(** * DMX binning and dmxparse of [pint/utils.py]

    A shallow embedding of the DMX part of [src/pint/utils.py]: the class
    [dmxrange], the two segmenters [dmx_ranges_old] and [dmx_ranges], and the
    summarizer [dmxparse]; and of the helpers [taylor_horner],
    [taylor_horner_deriv], [weighted_mean], [split_prefixed_name],
    [interesting_lines] and the class [PosVel].

    Numbers.  Python floats and astropy quantities are modelled by exact
    rationals [Q]; units are dropped.  Comparisons, [min], [max] and [abs]
    on floats agree with the rationals; sums, products and quotients are the
    exact ones, without rounding.  Equalities between computed numbers are
    therefore stated with [==] ([Qeq]).  A quotient by [0.0], which numpy
    evaluates to [nan] or [inf] with a warning, is kept apart (see
    [np_true_divide]); [numpy.sqrt] is a parameter of the summarizer on the
    numbers that are not negative, and [nan] below zero.

    Exceptions.  Python exceptions are values of [exn]; a function that can
    raise returns a [result]. *)

From Stdlib Require Import ZArith QArith Qabs Qround List Bool Arith Lia Lqa String Ascii.
From Stdlib Require Import Sorted Permutation.
Import ListNotations.
Open Scope Q_scope.

(* ================================================================== *)
(** * Python and numpy primitives used by the source *)
(* ================================================================== *)

Module Py.

Inductive exn : Type :=
| IndexError
| ValueError
| RuntimeError
| AttributeError.

(** The outcome of a call: a value, a raised exception, or, for the one
    [while True] loop of the source, a model that ran out of fuel. *)
Inductive result (A : Type) : Type :=
| Ok (a : A)
| Raise (e : exn)
| OutOfFuel.

Arguments Ok {A} a.
Arguments Raise {A} e.
Arguments OutOfFuel {A}.

Definition bind {A B : Type} (c : result A) (k : A -> result B) : result B :=
  match c with
  | Ok a => k a
  | Raise e => Raise e
  | OutOfFuel => OutOfFuel
  end.

Fixpoint mapM {A B : Type} (f : A -> result B) (l : list A) : result (list B) :=
  match l with
  | [] => Ok []
  | x :: xs =>
      bind (f x) (fun y => bind (mapM f xs) (fun ys => Ok (y :: ys)))
  end.

(** [x < y] on floats. *)
Definition Qltb (x y : Q) : bool := negb (Qle_bool y x).

(** [arr[mask]]: boolean-mask indexing. *)
Fixpoint select {A : Type} (arr : list A) (mask : list bool) : list A :=
  match arr, mask with
  | a :: arr', m :: mask' => if m then a :: select arr' mask' else select arr' mask'
  | _, _ => []
  end.

(** [np.any(mask)]. *)
Definition np_any (mask : list bool) : bool := existsb (fun b => b) mask.

(** [mask[idx] = True]. *)
Fixpoint assign_true (mask idx : list bool) : list bool :=
  match mask, idx with
  | m :: mask', i :: idx' => (if i then true else m) :: assign_true mask' idx'
  | _, _ => mask
  end.

(** Python's [min] and [max] of a list: the first smallest (largest)
    element; [ValueError] on an empty list. *)
Definition min_step (m y : Q) : Q := if Qltb y m then y else m.
Definition max_step (m y : Q) : Q := if Qltb m y then y else m.

Definition py_min (l : list Q) : result Q :=
  match l with
  | [] => Raise ValueError
  | x :: xs => Ok (fold_left min_step xs x)
  end.

Definition py_max (l : list Q) : result Q :=
  match l with
  | [] => Raise ValueError
  | x :: xs => Ok (fold_left max_step xs x)
  end.

(** [arr[0]]. *)
Definition first {A : Type} (arr : list A) : result A :=
  match arr with
  | [] => Raise IndexError
  | a :: _ => Ok a
  end.

End Py.

Import Py.

Declare Scope py_scope.
Delimit Scope py_scope with py.
Notation "x <- c ;; k" := (bind c (fun x => k))
  (at level 61, c at next level, right associativity) : py_scope.
Open Scope py_scope.

(* ================================================================== *)
(** * Observations and the class [dmxrange] *)
(* ================================================================== *)

(** A TOA: its MJD (days) and its observing frequency (MHz). *)
Record TOA : Type := mkTOA { mjd : Q; freq : Q }.

(** [toas.get_mjds()] and [toas.table["freq"]]. *)
Definition get_mjds (toas : list TOA) : list Q := map mjd toas.
Definition get_freqs (toas : list TOA) : list Q := map freq toas.

(** The pad [0.001 * u.d] of [dmxrange.__init__]. *)
Definition pad : Q := 1 # 1000.

Module DMX.

Record dmxrange : Type := mk {
  los : list Q;
  his : list Q;
  min : Q;
  max : Q
}.

(** [dmxrange.__init__(self, lofreqs, hifreqs)]. *)
Definition init (lofreqs hifreqs : list Q) : result dmxrange :=
  lo <- py_min (lofreqs ++ hifreqs) ;;
  hi <- py_max (lofreqs ++ hifreqs) ;;
  Ok (mk lofreqs hifreqs (lo - pad) (hi + pad)).

End DMX.

Abbreviation dmxrange := DMX.dmxrange.

(** What both segmenters return: the mask over the TOAs and the bins [DMXs]
    from which the DMX component is filled, one parameter triple
    [DMX_%04d], [DMXR1_%04d], [DMXR2_%04d] per bin, in this order. *)
Record output : Type := mkOutput { mask : list bool; bins : list dmxrange }.

(* ================================================================== *)
(** * [dmx_ranges]: fixed-width sequential binning *)
(* ================================================================== *)

Module Windowed.

(** One pass through the body of the [while True] loop. *)
Inductive step_result : Type :=
| Break
| Continue (bin : option dmxrange) (prevbinR2 : Q).

Section Loop.

Variable toas : list TOA.
Variables divide_freq binwidth : Q.

Let MJDs : list Q := get_mjds toas.
Let freqs : list Q := get_freqs toas.

(** [binidx = np.logical_and(MJDs > prevbinR2, MJDs <= startMJD + binwidth)] *)
Definition binidx (prevbinR2 startMJD : Q) : list bool :=
  map (fun t => Qltb prevbinR2 t && Qle_bool t (startMJD + binwidth)) MJDs.

Definition step (prevbinR2 : Q) : result step_result :=
  if negb (np_any (map (fun t => Qltb prevbinR2 t) MJDs)) then Ok Break
  else
    startMJD <- first (select MJDs (map (fun t => Qltb prevbinR2 t) MJDs)) ;;
    let idx := binidx prevbinR2 startMJD in
    if negb (np_any idx) then Ok Break
    else
      let binMJDs := select MJDs idx in
      let binfreqs := select freqs idx in
      let loMJDs := select binMJDs (map (fun f => Qltb f divide_freq) binfreqs) in
      let hiMJDs := select binMJDs (map (fun f => Qle_bool divide_freq f) binfreqs) in
      bin <- (if np_any (map (fun f => Qltb f divide_freq) binfreqs)
                 && np_any (map (fun f => Qltb divide_freq f) binfreqs)
              then b <- DMX.init loMJDs hiMJDs ;; Ok (Some b)
              else Ok None) ;;
      m <- py_max binMJDs ;;
      Ok (Continue bin m).

(** [DMXs.append(...)] when the batch is a good bin. *)
Definition append_bin (DMXs : list dmxrange) (bin : option dmxrange) : list dmxrange :=
  match bin with
  | Some b => DMXs ++ [b]
  | None => DMXs
  end.

(** The [while True] loop, with fuel. *)
Fixpoint loop (fuel : nat) (prevbinR2 : Q) (DMXs : list dmxrange)
  : result (list dmxrange) :=
  match fuel with
  | O => OutOfFuel
  | S fuel' =>
      r <- step prevbinR2 ;;
      match r with
      | Break => Ok DMXs
      | Continue bin prev' => loop fuel' prev' (append_bin DMXs bin)
      end
  end.

(** [mask[np.logical_and(MJDs >= DMX.min, MJDs <= DMX.max)] = True] for
    every bin, from an all-[False] mask. *)
Definition in_bin (DMX : dmxrange) (t : Q) : bool :=
  Qle_bool (DMX.min DMX) t && Qle_bool t (DMX.max DMX).

Definition make_mask (DMXs : list dmxrange) : list bool :=
  fold_left (fun mask DMX => assign_true mask (map (in_bin DMX) MJDs))
            DMXs (map (fun _ => false) MJDs).

End Loop.

(** [dmx_ranges(toas, divide_freq, binwidth)].  The loop is given one unit
    of fuel per TOA plus one, which [loop_enough_fuel] shows to suffice. *)
Definition dmx_ranges (toas : list TOA) (divide_freq binwidth : Q) : result output :=
  m0 <- first (get_mjds toas) ;;
  DMXs <- loop toas divide_freq binwidth (S (List.length toas)) (m0 - pad) [] ;;
  Ok (mkOutput (make_mask toas DMXs) DMXs).

(** Vocabulary of the statements: the TOAs after the cursor, the batch
    opened at [startMJD], and its two bands. *)
Definition after (toas : list TOA) (prevbinR2 : Q) : list TOA :=
  filter (fun o => Qltb prevbinR2 (mjd o)) toas.

Definition batch (toas : list TOA) (binwidth prevbinR2 startMJD : Q) : list TOA :=
  filter (fun o => Qltb prevbinR2 (mjd o) && Qle_bool (mjd o) (startMJD + binwidth)) toas.

Definition low_band (divide_freq : Q) (B : list TOA) : list Q :=
  map mjd (filter (fun o => Qltb (freq o) divide_freq) B).

Definition high_band (divide_freq : Q) (B : list TOA) : list Q :=
  map mjd (filter (fun o => Qle_bool divide_freq (freq o)) B).

(** The test [np.any(binfreqs < divide_freq) and np.any(binfreqs > divide_freq)]
    on a batch. *)
Definition accepts (divide_freq : Q) (B : list TOA) : bool :=
  existsb (fun o => Qltb (freq o) divide_freq) B
  && existsb (fun o => Qltb divide_freq (freq o)) B.

End Windowed.

(* ================================================================== *)
(** * [dmx_ranges_old]: nearest neighbour with orphan rescue *)
(* ================================================================== *)

Module Legacy.

(** [x.round(1)]: numpy rounds [10 x] to the nearest integer, halves to the
    even one, and divides by [10]. *)
Definition rint (y : Q) : Z :=
  let f := Qfloor y in
  match Qcompare (y - inject_Z f) (1 # 2) with
  | Lt => f
  | Gt => (f + 1)%Z
  | Eq => if Z.even f then f else (f + 1)%Z
  end.

Definition round1 (x : Q) : Q := inject_Z (rint (x * 10)) / 10.

(** [np.unique]: the sorted distinct values. *)
Fixpoint insert_unique (x : Q) (l : list Q) : list Q :=
  match l with
  | [] => [x]
  | y :: l' =>
      match Qcompare x y with
      | Lt => x :: l
      | Eq => l
      | Gt => y :: insert_unique x l'
      end
  end.

Definition np_unique (l : list Q) : list Q := fold_right insert_unique [] l.

(** Iteration over a Python [set] follows the hashes of its elements, which
    the source does not control.  The order is an input of the model: each
    pick names, modulo the number of elements left, the one visited next;
    without picks the remaining elements are visited as listed. *)
Fixpoint remove_at {A : Type} (k : nat) (l : list A) : list A :=
  match l, k with
  | [], _ => []
  | _ :: l', O => l'
  | a :: l', S k' => a :: remove_at k' l'
  end.

Fixpoint set_iter (picks : list nat) (s : list Q) : list Q :=
  match picks with
  | [] => s
  | k :: picks' =>
      match s with
      | [] => []
      | x :: _ =>
          let k' := (k mod List.length s)%nat in
          nth k' s x :: set_iter picks' (remove_at k' s)
      end
  end.

Section Segmenter.

Variables divide_freq offset max_diff : Q.

(** The high-frequency days paired with [loMJD], the [ii]-th low one. *)
Definition hi_close (loMJDs hiMJDs : list Q) (ii : nat) (loMJD : Q) : list Q :=
  let hc := filter (fun h => Qltb (Qabs (h - loMJD)) max_diff) hiMJDs in
  let hc :=
    if (0 <? ii)%nat then
      filter (fun h => Qltb (Qabs (h - loMJD))
                            (Qabs (h - nth (ii - 1) loMJDs 0))) hc
    else hc in
  let hc :=
    if (ii <? List.length loMJDs - 1)%nat then
      filter (fun h => Qltb (Qabs (h - loMJD))
                            (Qabs (h - nth (ii + 1) loMJDs 0))) hc
    else hc in
  hc.

(** The first loop: the state is [(DMXs, bad_los)]. *)
Definition pair_step (loMJDs hiMJDs : list Q)
    (st : list dmxrange * list Q) (ii : nat) (loMJD : Q)
  : result (list dmxrange * list Q) :=
  let '(DMXs, bad_los) := st in
  let hc := hi_close loMJDs hiMJDs ii loMJD in
  if (0 <? List.length hc)%nat then
    b <- DMX.init [loMJD] hc ;;
    Ok (DMXs ++ [b], bad_los)
  else Ok (DMXs, bad_los ++ [loMJD]).

Fixpoint pair_loop (loMJDs hiMJDs : list Q)
    (st : list dmxrange * list Q) (ii : nat) (rest : list Q)
  : result (list dmxrange * list Q) :=
  match rest with
  | [] => Ok st
  | loMJD :: rest' =>
      st' <- pair_step loMJDs hiMJDs st ii loMJD ;;
      pair_loop loMJDs hiMJDs st' (S ii) rest'
  end.

(** The inner loop of the rescue: the state is [(absmindiff, ind)]. *)
Definition nearest_step (bad_lo : Q) (st : Q * nat) (ii : nat) (DMX : dmxrange)
  : Q * nat :=
  let '(absmindiff, ind) := st in
  if Qltb (Qabs (bad_lo - DMX.min DMX)) max_diff
     && Qltb (Qabs (bad_lo - DMX.max DMX)) max_diff
  then
    let mindiff := min_step (Qabs (bad_lo - DMX.min DMX))
                            (Qabs (bad_lo - DMX.max DMX)) in
    if Qltb mindiff absmindiff then (mindiff, ii) else st
  else st.

Fixpoint nearest (bad_lo : Q) (st : Q * nat) (ii : nat) (DMXs : list dmxrange)
  : Q * nat :=
  match DMXs with
  | [] => st
  | DMX :: rest => nearest bad_lo (nearest_step bad_lo st ii DMX) (S ii) rest
  end.

(** [DMXs[ind].los.append(bad_lo)] and the update of [min] and [max]. *)
Definition absorb (DMX : dmxrange) (bad_lo : Q) : result dmxrange :=
  let los' := DMX.los DMX ++ [bad_lo] in
  lo <- py_min (los' ++ DMX.his DMX) ;;
  hi <- py_max (los' ++ DMX.his DMX) ;;
  Ok (DMX.mk los' (DMX.his DMX) lo hi).

Fixpoint set_item {A : Type} (l : list A) (ind : nat) (a : A) : list A :=
  match l, ind with
  | [], _ => []
  | _ :: l', O => a :: l'
  | x :: l', S ind' => x :: set_item l' ind' a
  end.

(** One orphan of the rescue loop. *)
Definition rescue_step (DMXs : list dmxrange) (bad_lo : Q) : result (list dmxrange) :=
  let '(absmindiff, ind) := nearest bad_lo (2 * max_diff, O) O DMXs in
  if Qltb absmindiff max_diff then
    match nth_error DMXs ind with
    | None => Raise IndexError
    | Some DMX =>
        DMX' <- absorb DMX bad_lo ;;
        Ok (set_item DMXs ind DMX')
    end
  else Ok DMXs.

Fixpoint rescue_loop (DMXs : list dmxrange) (bad_los : list Q)
  : result (list dmxrange) :=
  match bad_los with
  | [] => Ok DMXs
  | bad_lo :: rest =>
      DMXs' <- rescue_step DMXs bad_lo ;;
      rescue_loop DMXs' rest
  end.

(** [mask[np.logical_and(MJDs > DMX.min - offset, MJDs < DMX.max + offset)] = True] *)
Definition in_bin (DMX : dmxrange) (t : Q) : bool :=
  Qltb (DMX.min DMX - offset) t && Qltb t (DMX.max DMX + offset).

Definition make_mask (MJDs : list Q) (DMXs : list dmxrange) : list bool :=
  fold_left (fun mask DMX => assign_true mask (map (in_bin DMX) MJDs))
            DMXs (map (fun _ => false) MJDs).

(** [dmx_ranges_old(toas, divide_freq, offset, max_diff)]; [picks] is the
    order in which [set(bad_los)] is iterated.  The lists [saved_los],
    [good_his] and [bad_his] of the source only feed the verbose report. *)
Definition dmx_ranges_old (picks : list nat) (toas : list TOA) : result output :=
  let MJDs := get_mjds toas in
  let freqs := get_freqs toas in
  let loMJDs := select MJDs (map (fun f => Qltb f divide_freq) freqs) in
  let hiMJDs := select MJDs (map (fun f => Qltb divide_freq f) freqs) in
  let loMJDs := np_unique (map round1 loMJDs) in
  let hiMJDs := np_unique (map round1 hiMJDs) in
  st <- pair_loop loMJDs hiMJDs ([], []) O loMJDs ;;
  let '(DMXs, bad_los) := st in
  DMXs <- rescue_loop DMXs (set_iter picks bad_los) ;;
  Ok (mkOutput (make_mask MJDs DMXs) DMXs).

End Segmenter.

(** Vocabulary of the statements: the rounded, distinct low-band and
    high-band days of the TOAs. *)
Definition low_days (divide_freq : Q) (toas : list TOA) : list Q :=
  np_unique (map round1
    (select (get_mjds toas) (map (fun f => Qltb f divide_freq) (get_freqs toas)))).

Definition high_days (divide_freq : Q) (toas : list TOA) : list Q :=
  np_unique (map round1
    (select (get_mjds toas) (map (fun f => Qltb divide_freq f) (get_freqs toas)))).

(** A bin with both bands: some low-band day, some high-band day, and
    nothing else. *)
Definition both_bands (divide_freq : Q) (toas : list TOA) (b : dmxrange) : Prop :=
  DMX.los b <> [] /\ DMX.his b <> [] /\
  incl (DMX.los b) (low_days divide_freq toas) /\
  incl (DMX.his b) (high_days divide_freq toas).

End Legacy.

(* ================================================================== *)
(** * [dmxparse]: mean subtraction and error correction *)
(* ================================================================== *)

Module Parse.

(** ** numpy arrays *)

(** A float that may be [nan] (or [inf]): [None]. *)
Definition float : Type := option Q.

(** [float(n)]. *)
Definition of_nat (n : nat) : Q := inject_Z (Z.of_nat n).

(** [x / y] on numpy floats: no exception, [nan] or [inf] when [y] is [0.0]. *)
Definition np_true_divide (x y : Q) : float :=
  if Qeq_bool y 0 then None else Some (x / y).

Definition Qsum (l : list Q) : Q := fold_right Qplus 0 l.

(** [np.mean] of a 1-D array: [nan] on an empty one. *)
Definition np_mean (l : list Q) : float :=
  np_true_divide (Qsum l) (of_nat (List.length l)).

(** A float computed from a float that may be [nan]. *)
Definition lift (x : float) (k : Q -> float) : float :=
  match x with
  | Some q => k q
  | None => None
  end.

(** A numpy scalar: a float, or the masked constant [np.ma.masked]. *)
Inductive scalar : Type :=
| Float (x : float)
| Masked.

(** [np.mean] of a masked array: the mean of the entries that are not
    masked, the masked constant when there is none. *)
Definition ma_mean (data : list Q) (mask : list bool) : scalar :=
  match select data (map negb mask) with
  | [] => Masked
  | x :: l => Float (np_mean (x :: l))
  end.

(** [np.where(mask)[0]]: the indices of the [True] entries, ascending. *)
Fixpoint where_from (i : nat) (mask : list bool) : list nat :=
  match mask with
  | [] => []
  | b :: mask' => if b then i :: where_from (S i) mask' else where_from (S i) mask'
  end.

Definition np_where (mask : list bool) : list nat := where_from O mask.

(** [np.sum(mask_idxs)]. *)
Definition count_true (mask : list bool) : nat := List.length (filter (fun b => b) mask).

(** The scatter at the end of [np.insert]: [new[indices] = values] and
    [new[old_mask] = arr], over the positions [pos, pos + size). *)
Fixpoint scatter {A : Type} (pos size : nat) (indices : list nat)
    (arr : list A) (v : A) : list A :=
  match size with
  | O => []
  | S size' =>
      if existsb (Nat.eqb pos) indices then
        v :: scatter (S pos) size' indices arr v
      else
        match arr with
        | a :: arr' => a :: scatter (S pos) size' indices arr' v
        | [] => []
        end
  end.

(** [np.insert(arr, obj, v)] for a 1-D array [arr], a scalar [v] and an
    index array [obj] that is ascending and non-negative, as [np.where]
    returns it.  A single index is where [v] is put.  Several indices are
    positions in [arr] BEFORE the insertion: numpy adds [0, 1, 2, ...] to
    them to obtain the positions in the result, and an index beyond the
    result raises [IndexError]. *)
Definition np_insert {A : Type} (arr : list A) (obj : list nat) (v : A)
  : result (list A) :=
  let N := List.length arr in
  match obj with
  | [index] =>
      if (N <? index)%nat then Raise IndexError
      else Ok (firstn index arr ++ v :: skipn index arr)
  | _ =>
      let numnew := List.length obj in
      let indices := map (fun '(i, k) => (i + k)%nat) (combine obj (seq 0 numnew)) in
      if forallb (fun i => (i <? N + numnew)%nat) indices then
        Ok (scatter O (N + numnew) indices arr v)
      else Raise IndexError
  end.

(** A 2-D array: its shape and its entries. *)
Record ndarray : Type := mkArray {
  nrows : nat;
  ncols : nat;
  item : nat -> nat -> Q
}.

Fixpoint sum_upto (n : nat) (f : nat -> Q) : Q :=
  match n with
  | O => 0
  | S k => sum_upto k f + f k
  end.

(** [a.sum()]. *)
Definition np_sum (a : ndarray) : Q :=
  sum_upto (nrows a) (fun i => sum_upto (ncols a) (fun j => item a i j)).

(** [np.dot(a, b)] of 2-D arrays: [ValueError] when the shapes are not
    aligned. *)
Definition np_dot (a b : ndarray) : result ndarray :=
  if (ncols a =? nrows b)%nat then
    Ok (mkArray (nrows a) (ncols b)
          (fun i j => sum_upto (ncols a) (fun k => item a i k * item b k j)))
  else Raise ValueError.

(** [np.identity(n) - np.ones((n, n)) / float(n)]. *)
Definition np_identity (n : nat) : ndarray :=
  mkArray n n (fun i j => if (i =? j)%nat then 1 else 0).

Definition np_ones (n m : nat) : ndarray := mkArray n m (fun _ _ => 1).

Definition demean_matrix (n : nat) : ndarray :=
  mkArray n n (fun i j => item (np_identity n) i j - item (np_ones n n) i j / of_nat n).

(** ** The fitter *)

(** A parameter of the model: the attributes that [dmxparse] reads.  The
    uncertainty of a DMX parameter is taken to be a number. *)
Record prefixParameter : Type := mkParameter {
  value : Q;
  frozen : bool;
  uncertainty_value : Q
}.

(** The fitter: [fitter.model.params], [getattr(fitter.model, name)], and
    [fitter.parameter_covariance_matrix.get_label_matrix] when the fitter
    has that attribute ([get_label_matrix(labels).matrix] is what is kept). *)
Record Fitter : Type := mkFitter {
  params : list string;
  getattr : string -> option prefixParameter;
  parameter_covariance_matrix : option (list string -> ndarray)
}.

Definition get (f : Fitter) (name : string) : result prefixParameter :=
  match getattr f name with
  | Some p => Ok p
  | None => Raise AttributeError
  end.

(** ["DMX_" in p]. *)
Definition contains (sub s : string) : bool :=
  match String.index 0 sub s with
  | Some _ => true
  | None => false
  end.

(** [p.split("_")[-1]]. *)
Fixpoint last_field (cur s : string) : string :=
  match s with
  | EmptyString => cur
  | String c s' =>
      if Ascii.eqb c "_"%char then last_field EmptyString s'
      else last_field (cur ++ String c EmptyString)%string s'
  end.

Definition dmx_epochs (f : Fitter) : list string :=
  map (last_field EmptyString) (filter (contains "DMX_") (params f)).

(** [sorted] on strings. *)
Fixpoint insert_str (x : string) (l : list string) : list string :=
  match l with
  | [] => [x]
  | y :: l' => if String.leb x y then x :: l else y :: insert_str x l'
  end.

Definition sorted (l : list string) : list string := fold_right insert_str [] l.

(** What the first loop appends for one epoch [ii]. *)
Record row : Type := mkRow {
  DMX_key : string;
  DMX : Q;
  mask_idx : bool;
  DMX_Err : Q;
  R1 : Q;
  R2 : Q;
  center_MJD : Q
}.

Definition read_epoch (f : Fitter) (ii : string) : result row :=
  p <- get f ("DMX_" ++ ii)%string ;;
  p1 <- get f ("DMXR1_" ++ ii)%string ;;
  p2 <- get f ("DMXR2_" ++ ii)%string ;;
  let dmxr1 := value p1 in
  let dmxr2 := value p2 in
  Ok (mkRow ("DMX_" ++ ii)%string (value p) (frozen p) (uncertainty_value p)
            dmxr1 dmxr2 ((dmxr1 + dmxr2) / 2)).

(** A 1-D array of uncertainties: a plain array, where [None] is [nan], or
    a masked array [np.ma.array(data, mask=mask)]. *)
Inductive errors : Type :=
| Array (data : list float)
| MaskedArray (data : list Q) (ma_mask : list bool).

Definition len (e : errors) : nat :=
  match e with
  | Array data => List.length data
  | MaskedArray data _ => List.length data
  end.

(** [x * DMX_units], as the dictionary returns it: the Quantity made of a
    masked array holds its data, without the mask, and the Quantity made
    of the masked constant is [0.0]. *)
Definition times_units (e : errors) : errors :=
  match e with
  | Array data => Array data
  | MaskedArray data _ => Array (map Some data)
  end.

Definition scalar_times_units (s : scalar) : float :=
  match s with
  | Float x => x
  | Masked => Some 0
  end.

(** The dictionary returned by [dmxparse], without the units. *)
Record report : Type := mkReport {
  dmxs : list float;
  dmx_verrs : errors;
  dmxeps : list Q;
  r1s : list Q;
  r2s : list Q;
  bins : list string;
  mean_dmx : float;
  avg_dm_err : float
}.

Section Summarizer.

(** [np.sqrt] on the numbers that are not negative. *)
Variable np_sqrt : Q -> Q.

(** [np.sqrt]: [nan] below zero. *)
Definition sqrt_float (x : Q) : float :=
  if Qle_bool 0 x then Some (np_sqrt x) else None.

(** The labels passed to [get_label_matrix]. *)
Definition requested_labels (f : Fitter) : list string :=
  sorted (map (fun x => "DMX_" ++ x)%string (dmx_epochs f)).

(** [np.dot(np.dot(m, cc.matrix), m)]. *)
Definition corrected_covariance (n : nat) (cc : ndarray) : result ndarray :=
  let m := demean_matrix n in
  mc <- np_dot m cc ;;
  np_dot mc m.

(** The branch taken when the fitter has a covariance matrix, up to the
    loop that fills [DMX_vErrs]: the error of the mean and the corrected
    uncertainties of the [n] bins of the matrix. *)
Definition fit_errors (n : nat) (cc : ndarray) : result (float * list float) :=
  let DMX_mean_err :=
    lift (sqrt_float (np_sum cc)) (fun s => np_true_divide s (of_nat n)) in
  cc' <- corrected_covariance n cc ;;
  Ok (DMX_mean_err, map (fun i => sqrt_float (item cc' i i)) (seq 0 n)).

(** The whole branch, with the values added back where bins were masked. *)
Definition covariance_branch (cc : ndarray) (mask_idxs : list bool)
  : result (float * list float) :=
  let n := (List.length mask_idxs - count_true mask_idxs)%nat in
  r <- fit_errors n cc ;;
  let '(DMX_mean_err, DMX_vErrs) := r in
  DMX_vErrs <- (if existsb (fun b => b) mask_idxs
                then np_insert DMX_vErrs (np_where mask_idxs) None
                else Ok DMX_vErrs) ;;
  Ok (DMX_mean_err, DMX_vErrs).

(** [dmxparse] after its first loop has read the [rows] of the model. *)
Definition summarize (f : Fitter) (rows : list row) : result report :=
  let DMX_keys := map DMX_key rows in
  let DMXs := map DMX rows in
  let mask_idxs := map mask_idx rows in
  let DMX_R1 := map R1 rows in
  let DMX_R2 := map R2 rows in
  let DMX_center_MJD := map center_MJD rows in
  let DMX_Errs :=
    if existsb (fun b => b) mask_idxs
    then MaskedArray (map DMX_Err rows) mask_idxs
    else Array (map Some (map DMX_Err rows)) in
  let DMX_mean := np_mean DMXs in
  r <- match parameter_covariance_matrix f with
       | Some get_label_matrix =>
           let cc := get_label_matrix (requested_labels f) in
           r <- covariance_branch cc mask_idxs ;;
           Ok (Float (fst r), Array (snd r))
       | None =>
           let DMX_mean_err :=
             if existsb (fun b => b) mask_idxs
             then ma_mean (map DMX_Err rows) mask_idxs
             else Float (np_mean (map DMX_Err rows)) in
           Ok (DMX_mean_err, DMX_Errs)
       end ;;
  let '(DMX_mean_err, DMX_vErrs) := r in
  if negb (List.length DMXs =? len DMX_Errs)%nat
     || negb (List.length DMXs =? len DMX_vErrs)%nat
  then Raise RuntimeError
  else
    let mean_sub_DMXs :=
      map (fun v => match DMX_mean with
                    | Some m => Some (v - m)
                    | None => None
                    end) DMXs in
    Ok (mkReport mean_sub_DMXs (times_units DMX_vErrs) DMX_center_MJD DMX_R1
                 DMX_R2 DMX_keys DMX_mean (scalar_times_units DMX_mean_err)).

(** [dmxparse(fitter)], with [save=False]. *)
Definition dmxparse (f : Fitter) : result report :=
  match dmx_epochs f with
  | [] => Raise RuntimeError
  | _ :: _ =>
      rows <- mapM (read_epoch f) (dmx_epochs f) ;;
      summarize f rows
  end.

End Summarizer.

(** Vocabulary of the statements: the order of [sorted] on labels. *)
Definition label_le (a b : string) : Prop := String.leb a b = true.

(** ** The correction as the specification words it *)

Module Spec.

(** [M = I - (1/n) J], with [J] the all-ones matrix. *)
Definition M (n : nat) (i j : nat) : Q :=
  (if (i =? j)%nat then 1 else 0) - (1 / of_nat n) * 1.

(** Entry [(i, j)] of [M C M^T]. *)
Definition MCMt (n : nat) (C : nat -> nat -> Q) (i j : nat) : Q :=
  sum_upto n (fun k => sum_upto n (fun l => M n i k * C k l * M n j l)).

End Spec.

End Parse.

(* ================================================================== *)
(** * Concrete inputs used in the examples *)
(* ================================================================== *)

Module Fixtures.

(** One low-band and one high-band TOA a day apart. *)
Definition two_band : list TOA := [mkTOA 0 500; mkTOA 1 1500].


(** Two low-band days around one high-band day: the second low day loses
    the high day to the first and is rescued into its bin. *)
Definition orphan : list TOA := [mkTOA 0 500; mkTOA 1 1500; mkTOA 5 500].

(** A model given by the list of its parameters. *)
Definition model_of (l : list (string * Parse.prefixParameter)) (name : string)
  : option Parse.prefixParameter :=
  option_map snd (find (fun kv => String.eqb (fst kv) name) l).

Definition fitter_of (l : list (string * Parse.prefixParameter))
    (cov : option (list string -> Parse.ndarray)) : Parse.Fitter :=
  Parse.mkFitter (map fst l) (model_of l) cov.

(** The three parameters of the DMX bin [ii]. *)
Definition bin_params (ii : string) (v : Q) (fz : bool) (u r1 r2 : Q)
  : list (string * Parse.prefixParameter) :=
  [ (("DMX_" ++ ii)%string, Parse.mkParameter v fz u);
    (("DMXR1_" ++ ii)%string, Parse.mkParameter r1 true 0);
    (("DMXR2_" ++ ii)%string, Parse.mkParameter r2 true 0) ].

(** A 2-D array given by its rows. *)
Definition array_of (rows : list (list Q)) : Parse.ndarray :=
  Parse.mkArray (List.length rows) (List.length (hd [] rows))
                (fun i j => nth j (nth i rows []) 0).

(** Four fit bins with values 1, 2, 3, 4 and no covariance matrix. *)
Definition four_bins : Parse.Fitter :=
  fitter_of
    (("F0"%string, Parse.mkParameter 100 false 0)
     :: bin_params "0001" 1 false (1 # 10) 0 10
     ++ bin_params "0002" 2 false (2 # 10) 10 20
     ++ bin_params "0003" 3 false (3 # 10) 20 30
     ++ bin_params "0004" 4 false (4 # 10) 30 40)
    None.

(** Three bins of which the listed ones are frozen, and a covariance matrix
    over the fit ones, the same whatever the labels asked for. *)
Definition three_bins (fz1 fz2 fz3 : bool) (cov : list (list Q)) : Parse.Fitter :=
  fitter_of
    (bin_params "0001" 1 fz1 (1 # 10) 0 10
     ++ bin_params "0002" 2 fz2 (2 # 10) 10 20
     ++ bin_params "0003" 3 fz3 (3 # 10) 20 30)
    (Some (fun _ => array_of cov)).

(** The same three bins without a covariance matrix. *)
Definition three_bins_no_cov (fz1 fz2 fz3 : bool) : Parse.Fitter :=
  fitter_of
    (bin_params "0001" 1 fz1 (1 # 10) 0 10
     ++ bin_params "0002" 2 fz2 (2 # 10) 10 20
     ++ bin_params "0003" 3 fz3 (3 # 10) 20 30)
    None.

End Fixtures.


(* ================================================================== *)
(** * Numerical helpers: [taylor_horner] and [weighted_mean] *)
(* ================================================================== *)

Module Numeric.

Import Parse.

(** [x ** n] for a natural exponent. *)
Fixpoint Qpow (x : Q) (n : nat) : Q :=
  match n with
  | O => 1
  | S n' => x * Qpow x n'
  end.

(** [n!] as a float. *)
Definition Qfact (n : nat) : Q := of_nat (fact n).

(** Elementwise [op] on two 1-D arrays with numpy's broadcasting: the
    lengths agree, or one of them is 1; [ValueError] otherwise. *)
Fixpoint zip_with (op : Q -> Q -> Q) (a b : list Q) : list Q :=
  match a, b with
  | x :: a', y :: b' => op x y :: zip_with op a' b'
  | _, _ => []
  end.

Definition broadcast (op : Q -> Q -> Q) (a b : list Q) : result (list Q) :=
  if (List.length a =? List.length b)%nat then Ok (zip_with op a b)
  else
    match a, b with
    | [x], _ => Ok (map (fun y => op x y) b)
    | _, [y] => Ok (map (fun x => op x y) a)
    | _, _ => Raise ValueError
    end.

(** ** [taylor_horner] and [taylor_horner_deriv] *)

(** The body of the loop: the state is [(result, fact)]. *)
Definition horner_step (x : Q) (st : Q * Q) (coeff : Q) : Q * Q :=
  let '(result, fact) := st in
  (result * x / fact + coeff, fact - 1).

(** [taylor_horner_deriv(x, coeffs, deriv_order)] for a number [x], without
    the units.  [coeffs[-1]] is read first and raises [IndexError] on an
    empty list. *)
Definition taylor_horner_deriv (x : Q) (coeffs : list Q) (deriv_order : nat)
  : result Q :=
  match coeffs with
  | [] => Raise IndexError
  | _ :: _ =>
      let der_coeffs := skipn deriv_order coeffs in
      let fact := of_nat (List.length der_coeffs) in
      Ok (fst (fold_left (horner_step x) (rev der_coeffs) (0, fact)))
  end.

Definition taylor_horner (x : Q) (coeffs : list Q) : result Q :=
  taylor_horner_deriv x coeffs 0.

(** Vocabulary of the statements: the series
    [sum_i coeffs[i + d] x^i / i!]. *)
Definition taylor_series (x : Q) (coeffs : list Q) (d : nat) : Q :=
  sum_upto (List.length coeffs - d)
           (fun i => nth (i + d) coeffs 0 * Qpow x i / Qfact i).

(** ** [weighted_mean] *)

Section WeightedMean.

Variable np_sqrt : Q -> Q.

(** [weighted_mean(arrin, weights_in, inputmean, calcerr, sdev)]: the mean,
    its error and, with [sdev], the weighted standard deviation.  The sums,
    products and quotients are the exact ones, which the doubles of the
    code follow up to rounding. *)
Definition weighted_mean (arrin weights_in : list Q) (inputmean : option Q)
    (calcerr sdev : bool) : result (float * float * option float) :=
  let arr := arrin in
  let weights := weights_in in
  let wtot := Qsum weights in
  wmean <- match inputmean with
           | None =>
               wa <- broadcast Qmult weights arr ;;
               Ok (np_true_divide (Qsum wa) wtot)
           | Some m => Ok (Some m)
           end ;;
  werr <- (if calcerr then
             match wmean with
             | Some m =>
                 let dev2 := map (fun a => (a - m) * (a - m)) arr in
                 t <- broadcast Qmult (map (fun w => w * w) weights) dev2 ;;
                 Ok (lift (sqrt_float np_sqrt (Qsum t))
                          (fun s => np_true_divide s wtot))
             | None => Ok None
             end
           else Ok (lift (sqrt_float np_sqrt wtot)
                         (fun s => np_true_divide 1 s))) ;;
  if sdev then
    match wmean with
    | Some m =>
        let dev2 := map (fun a => (a - m) * (a - m)) arr in
        t <- broadcast Qmult weights dev2 ;;
        Ok (wmean, werr,
            Some (lift (np_true_divide (Qsum t) wtot) (sqrt_float np_sqrt)))
    | None => Ok (wmean, werr, Some None)
    end
  else Ok (wmean, werr, None).

End WeightedMean.

End Numeric.

(* ================================================================== *)
(** * Prefixed parameter names: [prefix_pattern], [split_prefixed_name] *)
(* ================================================================== *)

(** A [str] is a [string] of characters with code points below 256; among
    those the class [\d] holds the ten ASCII digits only. *)

Module Prefix.

Import Py.

Definition between (lo hi c : ascii) : bool :=
  ((nat_of_ascii lo <=? nat_of_ascii c) && (nat_of_ascii c <=? nat_of_ascii hi))%nat.

(** [\d], [[a-zA-Z]] and [[a-zA-Z0-9]]. *)
Definition is_digit (c : ascii) : bool := between "0" "9" c.
Definition is_alpha (c : ascii) : bool := between "a" "z" c || between "A" "Z" c.
Definition is_alnum (c : ascii) : bool :=
  between "a" "z" c || between "A" "Z" c || between "0" "9" c.

Definition newline : ascii := "010"%char.

(** The pieces the three expressions are made of: a class under [*] or [+],
    and a literal character. *)
Inductive atom :=
| Star (cls : ascii -> bool)
| Plus (cls : ascii -> bool)
| Lit (c : ascii).

(** [^(group1)(group2)$]. *)
Record pattern := { group1 : list atom; group2 : list atom }.

Definition prefix_pattern : list pattern :=
  [ {| group1 := [Star is_alpha; Plus is_digit; Plus is_alpha];
       group2 := [Plus is_digit] |};
    {| group1 := [Plus is_alpha]; group2 := [Plus is_digit] |};
    {| group1 := [Plus is_alnum; Lit "_"]; group2 := [Plus is_digit] |} ].

(** The length of the longest prefix of [s] in the class. *)
Fixpoint span (cls : ascii -> bool) (s : list ascii) : nat :=
  match s with
  | c :: s' => if cls c then S (span cls s') else O
  | [] => O
  end.

(** [$] without [re.MULTILINE]: the end of the string, or just before a
    newline that ends the string. *)
Definition at_end (s : list ascii) : bool :=
  match s with
  | [] => true
  | [c] => Ascii.eqb c newline
  | _ => false
  end.

(** A greedy quantifier: the longest repetition first, then shorter ones
    down to [min], until the rest of the expression matches. *)
Fixpoint greedy (k min : nat) (s : list ascii)
    (cont : list ascii -> option (list (list ascii)))
  : option (list (list ascii)) :=
  if (k <? min)%nat then None
  else
    match cont (skipn k s) with
    | Some parts => Some (firstn k s :: parts)
    | None =>
        match k with
        | O => None
        | S k' => greedy k' min s cont
        end
    end.

(** The backtracking matcher, from the start of [s] to [$]; the result is
    the text matched by each atom. *)
Fixpoint match_atoms (atoms : list atom) (s : list ascii)
  : option (list (list ascii)) :=
  match atoms with
  | [] => if at_end s then Some [] else None
  | Star cls :: rest => greedy (span cls s) 0 s (match_atoms rest)
  | Plus cls :: rest => greedy (span cls s) 1 s (match_atoms rest)
  | Lit c :: rest =>
      match s with
      | c' :: s' =>
          if Ascii.eqb c c' then option_map (cons [c']) (match_atoms rest s')
          else None
      | [] => None
      end
  end.

(** [pt.match(name)] and, on a match, [.groups()]. *)
Definition re_match (pt : pattern) (name : string) : option (string * string) :=
  match match_atoms (group1 pt ++ group2 pt) (list_ascii_of_string name) with
  | Some parts =>
      let n := List.length (group1 pt) in
      Some (string_of_list_ascii (List.concat (firstn n parts)),
            string_of_list_ascii (List.concat (skipn n parts)))
  | None => None
  end.

(** [int] of a string of decimal digits. *)
Definition int (s : string) : Z :=
  fold_left (fun acc c => 10 * acc + Z.of_nat (nat_of_ascii c - 48))%Z
            (list_ascii_of_string s) 0%Z.

(** The [for ... else] loop over the expressions; [PrefixError] is a
    [ValueError]. *)
Fixpoint first_match (pts : list pattern) (name : string)
  : result (string * string) :=
  match pts with
  | [] => Raise ValueError
  | pt :: rest =>
      match re_match pt name with
      | Some g => Ok g
      | None => first_match rest name
      end
  end.

Definition split_prefixed_name (name : string) : result (string * string * Z) :=
  g <- first_match prefix_pattern name ;;
  let '(prefix_part, index_part) := g in
  Ok (prefix_part, index_part, int index_part).

(** Vocabulary of the statements. *)
Definition all (cls : ascii -> bool) (s : string) : Prop :=
  forallb cls (list_ascii_of_string s) = true.

(** The prefixes the three expressions accept: letters, digits, letters
    (as in T2EFAC); letters (as in F); letters and digits before an
    underscore (as in DMXR1_). *)
Definition prefix_shape (p : string) : Prop :=
  (exists a d b, p = (a ++ d ++ b)%string /\ all is_alpha a /\
                 d <> EmptyString /\ all is_digit d /\
                 b <> EmptyString /\ all is_alpha b) \/
  (p <> EmptyString /\ all is_alpha p) \/
  (exists a, p = (a ++ "_")%string /\ a <> EmptyString /\ all is_alnum a).

End Prefix.

(* ================================================================== *)
(** * Reading lines: [interesting_lines] *)
(* ================================================================== *)

Module Lines.

Import Py.

(** [str.isspace] on the code points below 256: tab to carriage return,
    the four separators 28 to 31, space, next line (133) and no-break
    space (160). *)
Definition is_space (c : ascii) : bool :=
  let n := nat_of_ascii c in
  ((9 <=? n) && (n <=? 13) || (28 <=? n) && (n <=? 32)
   || (n =? 133) || (n =? 160))%nat.

(** [str.lstrip], [str.rstrip] and [str.strip] without argument. *)
Fixpoint lstrip (s : string) : string :=
  match s with
  | String c s' => if is_space c then lstrip s' else s
  | EmptyString => EmptyString
  end.

Fixpoint rstrip (s : string) : string :=
  match s with
  | String c s' =>
      match rstrip s' with
      | EmptyString => if is_space c then EmptyString else String c EmptyString
      | r => String c r
      end
  | EmptyString => EmptyString
  end.

Definition strip (s : string) : string := rstrip (lstrip s).

(** [s.startswith(p)] for a string [p], and for a tuple of strings. *)
Fixpoint startswith (s p : string) : bool :=
  match p, s with
  | EmptyString, _ => true
  | String a p', String b s' => Ascii.eqb a b && startswith s' p'
  | String _ _, EmptyString => false
  end.

Definition startswith_any (s : string) (cc : list string) : bool :=
  existsb (startswith s) cc.

Definition is_empty (s : string) : bool :=
  match s with EmptyString => true | String _ _ => false end.

(** The argument [comments]: [None], one string, or several. *)
Inductive comments_arg :=
| NoComments
| OneComment (c : string)
| Comments (cs : list string).

Definition tuple_of (comments : comments_arg) : list string :=
  match comments with
  | NoComments => []
  | OneComment c => [c]
  | Comments cs => cs
  end.

(** The loop that checks the comment strings. *)
Fixpoint check_comments (cc : list string) : result unit :=
  match cc with
  | [] => Ok tt
  | c :: rest =>
      let cs := strip c in
      if is_empty cs || negb (startswith c cs) then Raise ValueError
      else check_comments rest
  end.

(** The loop over the lines: the lines that are yielded, in order. *)
Fixpoint yield_lines (cc : list string) (lines : list string) : list string :=
  match lines with
  | [] => []
  | ln :: rest =>
      let ln := strip ln in
      if is_empty ln then yield_lines cc rest
      else if startswith_any ln cc then yield_lines cc rest
      else ln :: yield_lines cc rest
  end.

(** [list(interesting_lines(lines, comments))] for a finite [lines]: the
    generator runs the check when its first item is asked for. *)
Definition interesting_lines (lines : list string) (comments : comments_arg)
  : result (list string) :=
  let cc := tuple_of comments in
  _ <- check_comments cc ;;
  Ok (yield_lines cc lines).

End Lines.

(* ================================================================== *)
(** * Position and velocity vectors: the class [PosVel] *)
(* ================================================================== *)

(** [pos] and [vel] are 1-D arrays, without units; the labels [obj] and
    [origin] are strings or [None]. *)

Module PV.

Import Py Numeric.

Record PosVel := {
  pos : list Q;
  vel : list Q;
  obj : option string;
  origin : option string
}.

Definition is_none {A : Type} (x : option A) : bool :=
  match x with None => true | Some _ => false end.

(** [a == b] on labels. *)
Definition label_eq (a b : option string) : bool :=
  match a, b with
  | Some x, Some y => String.eqb x y
  | None, None => true
  | _, _ => false
  end.

(** [PosVel.__init__]; two 1-D arrays of length 3 have the same shape. *)
Definition init (pos vel : list Q) (obj origin : option string) : result PosVel :=
  if negb (List.length pos =? 3)%nat then Raise ValueError
  else if negb (List.length vel =? 3)%nat then Raise ValueError
  else if negb (Bool.eqb (is_none obj) (is_none origin)) then Raise ValueError
  else Ok {| pos := pos; vel := vel; obj := obj; origin := origin |}.

Definition _has_labels (self : PosVel) : bool :=
  negb (is_none (obj self)) && negb (is_none (origin self)).

(** [PosVel.__neg__] *)
Definition neg (self : PosVel) : result PosVel :=
  init (map Qopp (pos self)) (map Qopp (vel self)) (origin self) (obj self).

(** [PosVel.__add__]; the result of the first part is [(obj, origin)]. *)
Definition add (self other : PosVel) : result PosVel :=
  labels <- (if _has_labels self && _has_labels other then
               if label_eq (obj self) (origin other) then
                 Ok (obj other, origin self)
               else if label_eq (origin self) (obj other) then
                 Ok (obj self, origin other)
               else Raise ValueError
             else Ok (None, None)) ;;
  p <- broadcast Qplus (pos self) (pos other) ;;
  v <- broadcast Qplus (vel self) (vel other) ;;
  init p v (fst labels) (snd labels).

(** [PosVel.__sub__] *)
Definition sub (self other : PosVel) : result PosVel :=
  o <- neg other ;;
  add self o.

End PV.

(* ================================================================== *)
(** * Further inputs for the examples *)
(* ================================================================== *)

Module Scenarios.

(** Two observing sessions a month apart, each with one low-band and one
    high-band TOA. *)
Definition two_sessions : list TOA :=
  [mkTOA 0 500; mkTOA 1 1500; mkTOA 30 500; mkTOA 31 1500].

(** Three bins with the uncertainties 0.1, 0.2 and 0.6, of which the
    listed ones are frozen, without a covariance matrix. *)
Definition uneven_errors (fz1 fz2 fz3 : bool) : Parse.Fitter :=
  Fixtures.fitter_of
    (Fixtures.bin_params "0001" 1 fz1 (1 # 10) 0 10
     ++ Fixtures.bin_params "0002" 2 fz2 (2 # 10) 10 20
     ++ Fixtures.bin_params "0003" 3 fz3 (6 # 10) 20 30)
    None.

(** Modelled from the spec: the covariance provider of the fitter,
    [parameter_covariance_matrix.get_label_matrix], which is not under
    src/ ("label-based sub-matrix extraction for an arbitrary ordered list
    of parameter names, returning a matrix plus the names actually present
    (ordering preserved)"), for parameters that are not correlated: the
    diagonal matrix of the variances of the labels asked for, in the order
    in which they are asked for.  A label without a variance is not on the
    axes. *)
Definition diagonal_provider (variances : list (string * Q))
    (labels : list string) : Parse.ndarray :=
  let known l := existsb (fun kv => String.eqb (fst kv) l) variances in
  let variance l :=
    match find (fun kv => String.eqb (fst kv) l) variances with
    | Some kv => snd kv
    | None => 0
    end in
  let present := filter known labels in
  Parse.mkArray (List.length present) (List.length present)
    (fun i j => if (i =? j)%nat then variance (nth i present EmptyString) else 0).

(** Three fit bins with the variances 1, 4 and 9, listed by the model in
    the order of their names, and out of that order. *)
Definition variances : list (string * Q) :=
  [("DMX_0001"%string, 1); ("DMX_0002"%string, 4); ("DMX_0003"%string, 9)].

Definition ascending_bins : Parse.Fitter :=
  Fixtures.fitter_of
    (Fixtures.bin_params "0001" 1 false (1 # 10) 0 10
     ++ Fixtures.bin_params "0002" 2 false (2 # 10) 10 20
     ++ Fixtures.bin_params "0003" 3 false (3 # 10) 20 30)
    (Some (diagonal_provider variances)).

Definition unsorted_bins : Parse.Fitter :=
  Fixtures.fitter_of
    (Fixtures.bin_params "0002" 2 false (2 # 10) 10 20
     ++ Fixtures.bin_params "0001" 1 false (1 # 10) 0 10
     ++ Fixtures.bin_params "0003" 3 false (3 # 10) 20 30)
    (Some (diagonal_provider variances)).

End Scenarios.


(* ================================================================== *)
(** * Facts about the primitives *)
(* ================================================================== *)

Lemma Qltb_iff (x y : Q) : Qltb x y = true <-> x < y.
Proof.
  unfold Qltb. rewrite negb_true_iff. split; intro H.
  - apply Qnot_le_lt. intro Hle. apply Qle_bool_iff in Hle. congruence.
  - apply not_true_is_false. intro Hb. apply Qle_bool_iff in Hb.
    exact (Qlt_not_le _ _ H Hb).
Qed.

Lemma Qltb_false_iff (x y : Q) : Qltb x y = false <-> y <= x.
Proof.
  unfold Qltb. rewrite negb_false_iff. apply Qle_bool_iff.
Qed.

Lemma select_map_filter {A B : Type} (f : A -> B) (p : A -> bool) (l : list A) :
  select (map f l) (map p l) = map f (filter p l).
Proof.
  induction l as [|a l IH]; simpl; [reflexivity|].
  destruct (p a); simpl; now rewrite IH.
Qed.

Lemma select_filter {A : Type} (p : A -> bool) (l : list A) :
  select l (map p l) = filter p l.
Proof.
  rewrite <- (map_id l) at 1. rewrite select_map_filter. apply map_id.
Qed.

Lemma np_any_map {A : Type} (p : A -> bool) (l : list A) :
  np_any (map p l) = existsb p l.
Proof.
  unfold np_any. induction l as [|a l IH]; simpl; [reflexivity|].
  now rewrite IH.
Qed.

Lemma select_map2 {A B C : Type} (f : A -> B) (g : A -> C) (p : C -> bool) (l : list A) :
  select (map f l) (map p (map g l)) = map f (filter (fun x => p (g x)) l).
Proof. rewrite map_map. apply (select_map_filter f (fun x => p (g x))). Qed.

Lemma np_any_map2 {A C : Type} (g : A -> C) (p : C -> bool) (l : list A) :
  np_any (map p (map g l)) = existsb (fun x => p (g x)) l.
Proof. rewrite map_map. apply (np_any_map (fun x => p (g x))). Qed.

Lemma existsb_true_filter {A : Type} (p : A -> bool) (l : list A) :
  filter p l <> [] -> existsb p l = true.
Proof.
  induction l as [|a l IH]; simpl; [congruence|].
  destruct (p a); simpl; [reflexivity | exact IH].
Qed.

Lemma existsb_filter_nil {A : Type} (p : A -> bool) (l : list A) :
  existsb p l = false <-> filter p l = [].
Proof.
  induction l as [|a l IH]; simpl; [tauto|].
  destruct (p a); simpl; [split; discriminate | exact IH].
Qed.

Lemma max_step_cases (m y : Q) :
  (max_step m y = m /\ y <= m) \/ (max_step m y = y /\ m < y).
Proof.
  unfold max_step. destruct (Qltb m y) eqn:E.
  - right. split; [reflexivity | now apply Qltb_iff].
  - left. split; [reflexivity | now apply Qltb_false_iff].
Qed.

Lemma min_step_cases (m y : Q) :
  (min_step m y = m /\ m <= y) \/ (min_step m y = y /\ y < m).
Proof.
  unfold min_step. destruct (Qltb y m) eqn:E.
  - right. split; [reflexivity | now apply Qltb_iff].
  - left. split; [reflexivity | now apply Qltb_false_iff].
Qed.

Lemma fold_max_spec (xs : list Q) : forall x,
  let m := fold_left max_step xs x in
  In m (x :: xs) /\ Forall (fun y => y <= m) (x :: xs).
Proof.
  induction xs as [|a xs IH]; intros x; simpl.
  - split; [now left | constructor; [apply Qle_refl | constructor]].
  - destruct (IH (max_step x a)) as [Hin Hall]. simpl in Hin.
    inversion Hall as [|? ? Hm Hxs]; subst.
    destruct (max_step_cases x a) as [[E Hle]|[E Hlt]]; rewrite E in *.
    + split; [destruct Hin as [<-|Hin]; auto|].
      constructor; [exact Hm|]. constructor; [|exact Hxs].
      eapply Qle_trans; eassumption.
    + split; [destruct Hin as [<-|Hin]; auto|].
      constructor; [|constructor; assumption].
      eapply Qle_trans; [apply Qlt_le_weak; eassumption | assumption].
Qed.

Lemma fold_min_spec (xs : list Q) : forall x,
  let m := fold_left min_step xs x in
  In m (x :: xs) /\ Forall (fun y => m <= y) (x :: xs).
Proof.
  induction xs as [|a xs IH]; intros x; simpl.
  - split; [now left | constructor; [apply Qle_refl | constructor]].
  - destruct (IH (min_step x a)) as [Hin Hall]. simpl in Hin.
    inversion Hall as [|? ? Hm Hxs]; subst.
    destruct (min_step_cases x a) as [[E Hle]|[E Hlt]]; rewrite E in *.
    + split; [destruct Hin as [<-|Hin]; auto|].
      constructor; [exact Hm|]. constructor; [|exact Hxs].
      eapply Qle_trans; eassumption.
    + split; [destruct Hin as [<-|Hin]; auto|].
      constructor; [|constructor; assumption].
      eapply Qle_trans; [eassumption | apply Qlt_le_weak; assumption].
Qed.

Lemma py_max_spec (l : list Q) (m : Q) :
  py_max l = Ok m -> In m l /\ Forall (fun y => y <= m) l.
Proof.
  destruct l as [|x xs]; simpl; [discriminate|].
  intros [= <-]. apply fold_max_spec.
Qed.

Lemma py_min_spec (l : list Q) (m : Q) :
  py_min l = Ok m -> In m l /\ Forall (fun y => m <= y) l.
Proof.
  destruct l as [|x xs]; simpl; [discriminate|].
  intros [= <-]. apply fold_min_spec.
Qed.

Lemma py_max_total (l : list Q) : l <> [] -> exists m, py_max l = Ok m.
Proof. destruct l; [congruence | intros _; eexists; reflexivity]. Qed.

Lemma py_min_total (l : list Q) : l <> [] -> exists m, py_min l = Ok m.
Proof. destruct l; [congruence | intros _; eexists; reflexivity]. Qed.

Lemma init_total (lo hi : list Q) :
  lo ++ hi <> [] -> exists b, DMX.init lo hi = Ok b.
Proof.
  intros H. unfold DMX.init.
  destruct (py_min_total _ H) as [a ->]. destruct (py_max_total _ H) as [c ->].
  simpl. eexists; reflexivity.
Qed.

Lemma init_spec (lo hi : list Q) (b : dmxrange) :
  DMX.init lo hi = Ok b ->
  DMX.los b = lo /\ DMX.his b = hi /\
  exists tmin tmax,
    py_min (lo ++ hi) = Ok tmin /\ py_max (lo ++ hi) = Ok tmax /\
    DMX.min b = tmin - pad /\ DMX.max b = tmax + pad.
Proof.
  unfold DMX.init. destruct (py_min (lo ++ hi)) as [a| |]; simpl; try discriminate.
  destruct (py_max (lo ++ hi)) as [c| |]; simpl; try discriminate.
  intros [= <-]. simpl. repeat split. exists a, c. repeat split.
Qed.

Lemma assign_true_length (mask idx : list bool) :
  List.length (assign_true mask idx) = List.length mask.
Proof.
  revert idx. induction mask as [|m mask IH]; intros [|i idx]; simpl; auto.
Qed.

Lemma assign_true_nth (mask idx : list bool) (i : nat) :
  (i < List.length mask)%nat ->
  nth i (assign_true mask idx) false = nth i mask false || nth i idx false.
Proof.
  revert idx i. induction mask as [|m mask IH]; intros idx i Hi; simpl in Hi; [lia|].
  destruct idx as [|x idx]; simpl.
  - destruct i; now rewrite orb_false_r.
  - destruct i as [|i]; [destruct x, m; reflexivity|].
    apply IH. lia.
Qed.

(** The mask built by both segmenters: entry [i] is set iff the [i]-th MJD
    is inside some bin. *)
Lemma mask_fold_spec (inb : dmxrange -> Q -> bool) (MJDs : list Q) :
  forall (DMXs : list dmxrange) (init : list bool),
    List.length init = List.length MJDs ->
    let r := fold_left (fun mask DMX => assign_true mask (map (inb DMX) MJDs))
                       DMXs init in
    List.length r = List.length MJDs /\
    forall i, (i < List.length MJDs)%nat ->
      nth i r false = nth i init false || existsb (fun D => inb D (nth i MJDs 0)) DMXs.
Proof.
  induction DMXs as [|D DMXs IH]; intros init Hlen; cbn [fold_left existsb].
  - split; [exact Hlen|]. intros i _. now rewrite orb_false_r.
  - destruct (IH (assign_true init (map (inb D) MJDs))) as [Hl Hn].
    { now rewrite assign_true_length. }
    split; [exact Hl|]. intros i Hi. rewrite (Hn i Hi).
    rewrite assign_true_nth by lia.
    rewrite (nth_indep (map (inb D) MJDs) false (inb D 0)) by (rewrite length_map; lia).
    rewrite (map_nth (inb D)). now rewrite orb_assoc.
Qed.

Lemma nth_all_false {A : Type} (l : list A) (i : nat) :
  nth i (map (fun _ => false) l) false = false.
Proof.
  revert i. induction l as [|a l IH]; intros [|i]; simpl; auto.
Qed.

(* ================================================================== *)
(** * Facts about [dmx_ranges] *)
(* ================================================================== *)

Module WindowedFacts.
Import Windowed.

Section Facts.

Variable toas : list TOA.
Variables divide_freq binwidth : Q.

Abbreviation step := (Windowed.step toas divide_freq binwidth).
Abbreviation loop := (Windowed.loop toas divide_freq binwidth).

(** The body of the loop in terms of the batch. *)
Lemma step_unfold (prev : Q) :
  step prev =
  match after toas prev with
  | [] => Ok Break
  | o :: _ =>
      let B := batch toas binwidth prev (mjd o) in
      match B with
      | [] => Ok Break
      | _ :: _ =>
          bin <- (if existsb (fun o => Qltb (freq o) divide_freq) B
                     && existsb (fun o => Qltb divide_freq (freq o)) B
                  then b <- DMX.init (low_band divide_freq B) (high_band divide_freq B) ;;
                       Ok (Some b)
                  else Ok None) ;;
          m <- py_max (map mjd B) ;;
          Ok (Continue bin m)
      end
  end.
Proof.
  unfold Windowed.step, binidx, get_mjds, get_freqs, after, batch, low_band, high_band.
  rewrite np_any_map2, select_map2.
  destruct (filter (fun o => Qltb prev (mjd o)) toas) as [|o rest] eqn:Ha.
  - apply existsb_filter_nil in Ha. now rewrite Ha.
  - rewrite existsb_true_filter by (rewrite Ha; discriminate).
    cbn [negb first map bind].
    rewrite np_any_map2, !select_map2.
    set (p := fun x : TOA => Qltb prev (mjd x) && Qle_bool (mjd x) (mjd o + binwidth)).
    destruct (filter p toas) as [|o1 B] eqn:Hb.
    + apply existsb_filter_nil in Hb. now rewrite Hb.
    + rewrite existsb_true_filter by (rewrite Hb; discriminate).
      cbn [negb]. rewrite ?np_any_map2, ?select_map2. reflexivity.
Qed.

Abbreviation accepts := (Windowed.accepts divide_freq).

Lemma accepts_iff (B : list TOA) :
  accepts B = true <->
  (exists o, In o B /\ freq o < divide_freq) /\
  (exists o, In o B /\ divide_freq < freq o).
Proof.
  unfold Windowed.accepts. rewrite andb_true_iff, !existsb_exists.
  split; intros [[o [Ho Hf]] [o' [Ho' Hf']]]; (split; [exists o | exists o']);
    (split; [assumption | now apply Qltb_iff]).
Qed.

Lemma low_band_nonempty (B : list TOA) :
  accepts B = true -> low_band divide_freq B ++ high_band divide_freq B <> [].
Proof.
  unfold Windowed.accepts, low_band. intros H. apply andb_true_iff in H as [H _].
  destruct (filter (fun o => Qltb (freq o) divide_freq) B) eqn:E.
  - apply existsb_filter_nil in E. congruence.
  - discriminate.
Qed.

(** What a pass that continues has done. *)
Lemma step_continue (prev prev' : Q) (bin : option dmxrange) :
  step prev = Ok (Continue bin prev') ->
  exists o rest,
    after toas prev = o :: rest /\
    let B := batch toas binwidth prev (mjd o) in
    B <> [] /\ py_max (map mjd B) = Ok prev' /\
    ((accepts B = false /\ bin = None) \/
     (accepts B = true /\ exists b,
        bin = Some b /\
        DMX.init (low_band divide_freq B) (high_band divide_freq B) = Ok b)).
Proof.
  rewrite step_unfold. destruct (after toas prev) as [|o rest]; [discriminate|].
  cbn zeta. fold (accepts (batch toas binwidth prev (mjd o))).
  destruct (batch toas binwidth prev (mjd o)) as [|o1 B] eqn:HB; [discriminate|].
  intros H. exists o, rest. split; [reflexivity|]. rewrite HB. cbn zeta.
  split; [discriminate|].
  destruct (accepts (o1 :: B)) eqn:Hacc.
  - destruct (DMX.init _ _) as [b| |] eqn:Hi; cbn [bind] in H; try discriminate.
    destruct (py_max (map mjd (o1 :: B))) as [m| |] eqn:Hm; cbn [bind] in H;
      try discriminate.
    revert H; intros [= <- <-]. split; [reflexivity|]. right. split; [reflexivity|].
    exists b. split; reflexivity.
  - cbn [bind] in H.
    destruct (py_max (map mjd (o1 :: B))) as [m| |] eqn:Hm; cbn [bind] in H;
      try discriminate.
    revert H; intros [= <- <-]. split; [reflexivity|]. left. split; reflexivity.
Qed.

(** A pass never raises. *)
Lemma step_total (prev : Q) : exists r, step prev = Ok r.
Proof.
  rewrite step_unfold. destruct (after toas prev) as [|o rest]; [eexists; reflexivity|].
  cbn zeta. fold (accepts (batch toas binwidth prev (mjd o))).
  destruct (batch toas binwidth prev (mjd o)) as [|o1 B] eqn:HB; [eexists; reflexivity|].
  destruct (py_max_total (map mjd (o1 :: B))) as [m Hm]; [discriminate|].
  destruct (accepts (o1 :: B)) eqn:Hacc.
  - destruct (init_total _ _ (low_band_nonempty _ Hacc)) as [b Hb].
    rewrite Hb. cbn [bind]. rewrite Hm. eexists; reflexivity.
  - cbn [bind]. rewrite Hm. eexists; reflexivity.
Qed.

Lemma in_batch (prev start : Q) (o : TOA) :
  In o (batch toas binwidth prev start) <->
  In o toas /\ prev < mjd o /\ mjd o <= start + binwidth.
Proof.
  unfold batch. rewrite filter_In, andb_true_iff, Qltb_iff, Qle_bool_iff. tauto.
Qed.

Lemma in_after (prev : Q) (o : TOA) :
  In o (after toas prev) <-> In o toas /\ prev < mjd o.
Proof. unfold after. rewrite filter_In, Qltb_iff. tauto. Qed.

Lemma filter_length_lt {A : Type} (p q : A -> bool) (l : list A) (x : A) :
  (forall a, p a = true -> q a = true) ->
  In x l -> q x = true -> p x = false ->
  (List.length (filter p l) < List.length (filter q l))%nat.
Proof.
  intros Hpq. induction l as [|a l IH]; simpl; [tauto|].
  assert (Hle : (List.length (filter p l) <= List.length (filter q l))%nat).
  { clear IH. induction l as [|b l IHl]; simpl; [lia|].
    destruct (p b) eqn:Ep.
    - rewrite (Hpq _ Ep). simpl. lia.
    - destruct (q b); simpl; lia. }
  intros [->|Hin] Hq Hp.
  - rewrite Hq, Hp. simpl. lia.
  - specialize (IH Hin Hq Hp). destruct (p a) eqn:Ep.
    + rewrite (Hpq _ Ep). simpl. lia.
    + destruct (q a); simpl; lia.
Qed.

(** The cursor moves past at least one more TOA at every pass. *)
Lemma step_decreases (prev prev' : Q) (bin : option dmxrange) :
  step prev = Ok (Continue bin prev') ->
  (List.length (after toas prev') < List.length (after toas prev))%nat.
Proof.
  intros H. apply step_continue in H as (o & rest & Ha & HB & Hm & _).
  apply py_max_spec in Hm as [Hin Hall].
  apply in_map_iff in Hin as (x & Hx & Hin). apply in_batch in Hin as (Hx1 & Hx2 & Hx3).
  unfold after. apply filter_length_lt with (x := x); try assumption.
  - intros a Ha'. apply Qltb_iff in Ha'. apply Qltb_iff.
    eapply Qlt_trans; [|exact Ha']. now rewrite <- Hx.
  - now apply Qltb_iff.
  - apply Qltb_false_iff. rewrite Hx. apply Qle_refl.
Qed.

(** The loop returns as soon as it has more fuel than TOAs after the cursor. *)
Lemma loop_enough_fuel (fuel : nat) : forall prev DMXs,
  (List.length (after toas prev) < fuel)%nat ->
  exists out, loop fuel prev DMXs = Ok out.
Proof.
  induction fuel as [|fuel IH]; intros prev DMXs Hlt; [lia|].
  cbn [Windowed.loop]. destruct (step_total prev) as [r Hr]. rewrite Hr. cbn [bind].
  destruct r as [|bin prev']; [eexists; reflexivity|].
  apply IH. apply step_decreases in Hr. lia.
Qed.

(** Every bin of the loop comes from a pass that accepted its batch. *)
Lemma loop_bins (P : dmxrange -> Prop) :
  (forall prev b prev', step prev = Ok (Continue (Some b) prev') -> P b) ->
  forall fuel prev DMXs out,
    loop fuel prev DMXs = Ok out -> Forall P DMXs -> Forall P out.
Proof.
  intros Hstep. induction fuel as [|fuel IH]; intros prev DMXs out; [discriminate|].
  cbn [Windowed.loop]. destruct (step prev) as [r| |] eqn:Hr; cbn [bind]; try discriminate.
  destruct r as [|bin prev'].
  - intros [= <-]. auto.
  - intros H HP. apply (IH _ _ _ H). destruct bin as [b|]; cbn; [|exact HP].
    apply Forall_app. split; [exact HP|]. constructor; [|constructor].
    eapply Hstep; eassumption.
Qed.

End Facts.
End WindowedFacts.

Module WindowedTheorems.
Import Windowed WindowedFacts.

Lemma make_mask_spec (toas : list TOA) (DMXs : list dmxrange) :
  List.length (make_mask toas DMXs) = List.length toas /\
  forall i o, nth_error toas i = Some o ->
    (nth i (make_mask toas DMXs) false = true <->
     exists b, In b DMXs /\ DMX.min b <= mjd o /\ mjd o <= DMX.max b).
Proof.
  unfold make_mask, get_mjds.
  destruct (mask_fold_spec in_bin (map mjd toas) DMXs (map (fun _ => false) (map mjd toas)))
    as [Hl Hn]; [now rewrite !length_map|].
  rewrite length_map in Hl, Hn. split; [exact Hl|].
  intros i o Ho.
  assert (Hi : (i < List.length toas)%nat) by (apply nth_error_Some; congruence).
  rewrite (Hn i Hi), nth_all_false. cbn [orb].
  rewrite (nth_indep (map mjd toas) 0 (mjd o)) by (rewrite length_map; lia).
  rewrite (map_nth mjd), (nth_error_nth _ _ _ Ho).
  rewrite existsb_exists. unfold in_bin.
  split; intros [b [Hb H]]; exists b; (split; [exact Hb|]).
  - apply andb_true_iff in H as [H1 H2]. now rewrite <- !Qle_bool_iff.
  - apply andb_true_iff. now rewrite !Qle_bool_iff.
Qed.

(** Every TOA of a batch is in one of its two bands. *)
Lemma bands_cover (divide_freq : Q) (B : list TOA) (o : TOA) :
  In o B -> In (mjd o) (low_band divide_freq B ++ high_band divide_freq B).
Proof.
  intros Ho. apply in_or_app. unfold low_band, high_band.
  destruct (Qltb (freq o) divide_freq) eqn:E.
  - left. apply in_map, filter_In. split; assumption.
  - right. apply in_map, filter_In. split; [assumption|].
    apply Qle_bool_iff. now apply Qltb_false_iff.
Qed.

Lemma bands_within (divide_freq : Q) (B : list TOA) (t : Q) :
  In t (low_band divide_freq B ++ high_band divide_freq B) ->
  exists o, In o B /\ mjd o = t.
Proof.
  unfold low_band, high_band. intros H.
  apply in_app_or in H as [H|H]; apply in_map_iff in H as (o & Ho & Hin);
    apply filter_In in Hin as [Hin _]; exists o; split; assumption.
Qed.

(** The extent of a bin built from a batch. *)
Lemma init_extent (divide_freq : Q) (B : list TOA) (b : dmxrange) :
  DMX.init (low_band divide_freq B) (high_band divide_freq B) = Ok b ->
  (exists o, In o B /\ (forall o', In o' B -> mjd o <= mjd o') /\
             DMX.min b = mjd o - pad) /\
  (exists o, In o B /\ (forall o', In o' B -> mjd o' <= mjd o) /\
             DMX.max b = mjd o + pad).
Proof.
  intros H. apply init_spec in H as (_ & _ & tmin & tmax & Hmin & Hmax & -> & ->).
  apply py_min_spec in Hmin as [Hin1 Hall1]. apply py_max_spec in Hmax as [Hin2 Hall2].
  rewrite Forall_forall in Hall1, Hall2.
  apply bands_within in Hin1 as (o1 & Ho1 & <-). apply bands_within in Hin2 as (o2 & Ho2 & <-).
  split; [exists o1 | exists o2]; (split; [assumption|]); (split; [|reflexivity]);
    intros o' Ho'; [apply Hall1 | apply Hall2]; now apply bands_cover.
Qed.

(** The loop of [dmx_ranges] always returns. *)
Lemma dmx_ranges_returns (toas : list TOA) (divide_freq binwidth : Q) :
  toas <> [] -> exists out, dmx_ranges toas divide_freq binwidth = Ok out.
Proof.
  intros Hne. unfold dmx_ranges. destruct toas as [|o toas]; [congruence|].
  cbn [get_mjds map first bind].
  destruct (loop_enough_fuel (o :: toas) divide_freq binwidth
              (S (List.length (o :: toas))) (mjd o - pad) []) as [DMXs HD].
  { unfold after. pose proof (filter_length_le (fun x => Qltb (mjd o - pad) (mjd x)) (o :: toas)).
    lia. }
  rewrite HD. cbn [bind]. eexists; reflexivity.
Qed.

End WindowedTheorems.

Module WindowedClaims.
Import Windowed WindowedFacts WindowedTheorems Fixtures.

(** C4, as stated, fails: the bin built from the batch with times [0] and
    [1] does not span [0, 1]; [dmxrange.__init__] pads both ends. *)
Lemma windowed_extent_unpadded_counterexample :
  exists b,
    dmx_ranges two_band 1000 15 = Ok (mkOutput [true; true] [b]) /\
    DMX.los b = [0] /\ DMX.his b = [1] /\
    ~ DMX.min b == 0 /\ ~ DMX.max b == 1.
Proof.
  eexists. split; [vm_compute; reflexivity|]. cbn.
  repeat split; intros H; discriminate H.
Qed.

(** C4 (amended): every bin returned by [dmx_ranges] is built from one
    batch: its low and high times are the two bands of the batch, its [min]
    is the earliest time of the batch minus 0.001 day and its [max] the
    latest plus 0.001 day.  The mask has one entry per TOA, true iff the
    time of the TOA lies in the closed interval [[min, max]] of some
    returned bin. *)
Theorem windowed_bin_extent_and_mask
    (toas : list TOA) (divide_freq binwidth : Q) (out : output) :
  dmx_ranges toas divide_freq binwidth = Ok out ->
  (forall b, In b (bins out) ->
     exists prev start,
       let B := batch toas binwidth prev start in
       DMX.los b = low_band divide_freq B /\
       DMX.his b = high_band divide_freq B /\
       (exists o, In o B /\ (forall o', In o' B -> mjd o <= mjd o') /\
                  DMX.min b = mjd o - pad) /\
       (exists o, In o B /\ (forall o', In o' B -> mjd o' <= mjd o) /\
                  DMX.max b = mjd o + pad)) /\
  List.length (mask out) = List.length toas /\
  (forall i o, nth_error toas i = Some o ->
     (nth i (mask out) false = true <->
      exists b, In b (bins out) /\ DMX.min b <= mjd o /\ mjd o <= DMX.max b)).
Proof.
  unfold dmx_ranges. destruct (first (get_mjds toas)) as [m0| |]; cbn [bind]; try discriminate.
  destruct (loop _ _ _ _ _ _) as [DMXs| |] eqn:Hloop; cbn [bind]; try discriminate.
  intros [= <-]. cbn [bins mask]. split; [|apply make_mask_spec].
  apply Forall_forall.
  refine (loop_bins toas divide_freq binwidth _ _ _ _ _ _ Hloop (Forall_nil _)).
  intros prev b prev' Hstep.
  apply step_continue in Hstep as (o & rest & _ & _ & _ & [[_ Hn]|[_ (b' & Hb & Hinit)]]);
    [discriminate|].
  injection Hb as <-. exists prev, (mjd o). cbn zeta.
  destruct (init_spec _ _ _ Hinit) as (Hlo & Hhi & _).
  destruct (init_extent _ _ _ Hinit) as [Hmin Hmax].
  repeat split; assumption.
Qed.

Lemma windowed_bin_extent_and_mask_witness :
  dmx_ranges two_band 1000 15 =
    Ok (mkOutput [true; true] [DMX.mk [0] [1] (0 - pad) (1 + pad)]) /\
  List.length [true; true] = List.length two_band.
Proof.
  split; [vm_compute; reflexivity|].
  exact (proj1 (proj2 (windowed_bin_extent_and_mask two_band 1000 15
           (mkOutput [true; true] [DMX.mk [0] [1] (0 - pad) (1 + pad)]) eq_refl))).
Defined.




End WindowedClaims.

(* ================================================================== *)
(** * Facts about [dmx_ranges_old] *)
(* ================================================================== *)

Module LegacyFacts.
Import Legacy.

Lemma remove_at_incl {A : Type} (k : nat) (l : list A) : incl (remove_at k l) l.
Proof.
  revert k. induction l as [|a l IH]; intros k x; simpl.
  - destruct k; simpl; tauto.
  - destruct k as [|k]; simpl; [tauto|].
    intros [->|H]; [now left | right; eapply IH; eassumption].
Qed.

(** Whatever the picks, the iteration visits elements of the set only. *)
Lemma set_iter_incl (picks : list nat) : forall s, incl (set_iter picks s) s.
Proof.
  induction picks as [|k picks IH]; intros s x; simpl; [tauto|].
  destruct s as [|y s]; [tauto|].
  intros [<-|H].
  - apply nth_In. apply Nat.mod_upper_bound. discriminate.
  - eapply remove_at_incl, IH, H.
Qed.

Lemma set_iter_nil (picks : list nat) : set_iter picks [] = [].
Proof. destruct picks; reflexivity. Qed.

Section Facts.

Variables divide_freq offset max_diff : Q.

Lemma hi_close_incl (loMJDs hiMJDs : list Q) (ii : nat) (loMJD : Q) :
  incl (hi_close max_diff loMJDs hiMJDs ii loMJD) hiMJDs.
Proof.
  unfold hi_close. intros x Hx.
  destruct (ii <? List.length loMJDs - 1)%nat; [apply filter_In in Hx as [Hx _]|];
    (destruct (0 <? ii)%nat; [apply filter_In in Hx as [Hx _]|]);
    apply filter_In in Hx as [Hx _]; exact Hx.
Qed.

(** The first loop keeps an invariant of the bins that holds of every bin
    made of one low day and a non-empty part of the high days. *)
Lemma pair_loop_bins (P : dmxrange -> Prop) (loMJDs hiMJDs : list Q) :
  (forall lo hc b, In lo loMJDs -> hc <> [] -> incl hc hiMJDs ->
                   DMX.init [lo] hc = Ok b -> P b) ->
  forall rest st ii DMXs bad_los,
    incl rest loMJDs ->
    pair_loop max_diff loMJDs hiMJDs st ii rest = Ok (DMXs, bad_los) ->
    Forall P (fst st) -> incl (snd st) loMJDs ->
    Forall P DMXs /\ incl bad_los loMJDs.
Proof.
  intros HP. induction rest as [|lo rest IH]; intros [D0 B0] ii DMXs bad_los Hincl; simpl.
  - intros [= <- <-]. auto.
  - set (hc := hi_close max_diff loMJDs hiMJDs ii lo).
    assert (Hlo : In lo loMJDs) by (apply Hincl; now left).
    assert (Hrest : incl rest loMJDs) by (intros x Hx; apply Hincl; now right).
    destruct (0 <? List.length hc)%nat eqn:Hlen.
    + destruct (DMX.init [lo] hc) as [b| |] eqn:Hb; cbn [bind]; try discriminate.
      intros Hloop HD HB. apply (IH _ _ _ _ Hrest Hloop); cbn [fst snd]; [|exact HB].
      apply Forall_app. split; [exact HD|]. constructor; [|constructor].
      apply (HP lo hc); try assumption.
      * destruct hc; [discriminate Hlen | discriminate].
      * apply hi_close_incl.
      * reflexivity.
    + cbn [bind]. intros Hloop HD HB. apply (IH _ _ _ _ Hrest Hloop); cbn [fst snd]; [exact HD|].
      apply incl_app; [exact HB|]. intros x [<-|[]]. exact Hlo.
Qed.

(** Every bin of the first loop carries the pad of [dmxrange.__init__]. *)
Lemma pair_loop_padded (loMJDs hiMJDs : list Q) (DMXs : list dmxrange) (bad_los : list Q) :
  pair_loop max_diff loMJDs hiMJDs ([], []) O loMJDs = Ok (DMXs, bad_los) ->
  Forall (fun b => exists tmin tmax,
            py_min (DMX.los b ++ DMX.his b) = Ok tmin /\
            py_max (DMX.los b ++ DMX.his b) = Ok tmax /\
            DMX.min b = tmin - pad /\ DMX.max b = tmax + pad) DMXs.
Proof.
  intros H.
  refine (proj1 (pair_loop_bins _ loMJDs hiMJDs _ loMJDs ([], []) O DMXs bad_los
                   (incl_refl _) H (Forall_nil _) (incl_nil_l _))).
  intros lo hc b _ _ _ Hinit.
  apply init_spec in Hinit as (-> & -> & tmin & tmax & H1 & H2 & H3 & H4).
  exists tmin, tmax. auto.
Qed.

(** The first loop never raises. *)
Lemma pair_loop_total (loMJDs hiMJDs : list Q) :
  forall rest st ii, exists st', pair_loop max_diff loMJDs hiMJDs st ii rest = Ok st'.
Proof.
  induction rest as [|lo rest IH]; intros [D0 B0] ii; simpl; [eexists; reflexivity|].
  destruct (0 <? List.length _)%nat; apply IH.
Qed.

Lemma set_item_Forall {A : Type} (P : A -> Prop) (l : list A) (ind : nat) (a : A) :
  Forall P l -> P a -> Forall P (set_item l ind a).
Proof.
  intros Hl Ha. revert ind. induction Hl as [|x l Hx Hl IH]; intros [|ind]; simpl;
    constructor; auto.
Qed.

Lemma absorb_spec (DMX DMX' : dmxrange) (bad_lo : Q) :
  absorb DMX bad_lo = Ok DMX' ->
  DMX.los DMX' = DMX.los DMX ++ [bad_lo] /\ DMX.his DMX' = DMX.his DMX /\
  exists tmin tmax,
    py_min (DMX.los DMX' ++ DMX.his DMX') = Ok tmin /\
    py_max (DMX.los DMX' ++ DMX.his DMX') = Ok tmax /\
    DMX.min DMX' = tmin /\ DMX.max DMX' = tmax.
Proof.
  unfold absorb.
  destruct (py_min _) as [a| |] eqn:Hmin; cbn [bind]; try discriminate.
  destruct (py_max _) as [c| |] eqn:Hmax; cbn [bind]; try discriminate.
  intros [= <-]. cbn. repeat split. exists a, c. repeat split; assumption.
Qed.

Lemma absorb_total (DMX : dmxrange) (bad_lo : Q) :
  exists DMX', absorb DMX bad_lo = Ok DMX'.
Proof.
  unfold absorb.
  destruct (py_min_total ((DMX.los DMX ++ [bad_lo]) ++ DMX.his DMX)) as [a ->].
  { destruct (DMX.los DMX); discriminate. }
  destruct (py_max_total ((DMX.los DMX ++ [bad_lo]) ++ DMX.his DMX)) as [c ->].
  { destruct (DMX.los DMX); discriminate. }
  eexists; reflexivity.
Qed.

(** The rescue keeps an invariant of the bins that survives the absorption
    of an orphan. *)
Lemma rescue_loop_bins (P : dmxrange -> Prop) (allowed : list Q) :
  (forall DMX DMX' bad_lo, P DMX -> In bad_lo allowed ->
                           absorb DMX bad_lo = Ok DMX' -> P DMX') ->
  forall bad_los DMXs out,
    incl bad_los allowed ->
    rescue_loop max_diff DMXs bad_los = Ok out -> Forall P DMXs -> Forall P out.
Proof.
  intros HP. induction bad_los as [|bad_lo rest IH]; intros DMXs out Hincl; simpl.
  - intros [= <-]. auto.
  - unfold rescue_step.
    destruct (nearest max_diff bad_lo (2 * max_diff, 0%nat) 0 DMXs) as [absmindiff ind].
    assert (Hrest : incl rest allowed) by (intros x Hx; apply Hincl; now right).
    destruct (Qltb absmindiff max_diff).
    + destruct (nth_error DMXs ind) as [DMX|] eqn:Hnth; cbn [bind]; try discriminate.
      destruct (absorb DMX bad_lo) as [DMX'| |] eqn:Habs; cbn [bind]; try discriminate.
      intros Hloop HD. apply (IH _ _ Hrest Hloop).
      apply set_item_Forall; [exact HD|].
      apply (HP DMX DMX' bad_lo); [|apply Hincl; now left|exact Habs].
      rewrite Forall_forall in HD. apply HD. eapply nth_error_In; eassumption.
    + cbn [bind]. intros Hloop HD. apply (IH _ _ Hrest Hloop HD).
Qed.

(** The index chosen by the inner loop of the rescue is the initial one or
    the index of a bin. *)
Lemma nearest_index (bad_lo : Q) : forall DMXs st ii,
  nearest max_diff bad_lo st ii DMXs = st \/
  (ii <= snd (nearest max_diff bad_lo st ii DMXs) < ii + List.length DMXs)%nat.
Proof.
  induction DMXs as [|D DMXs IH]; intros st ii; cbn [nearest]; [now left|].
  assert (Hs : nearest_step max_diff bad_lo st ii D = st \/
               snd (nearest_step max_diff bad_lo st ii D) = ii).
  { unfold nearest_step. destruct st as [a ind].
    destruct (_ && _); [|now left]. destruct (Qltb _ a); [now right | now left]. }
  destruct (IH (nearest_step max_diff bad_lo st ii D) (S ii)) as [E|E].
  - rewrite E. destruct Hs as [Hs|Hs]; [now left|]. right. rewrite Hs. cbn [List.length]. lia.
  - right. cbn [List.length]. lia.
Qed.

(** With a maximum distance that is not negative the rescue never raises. *)
Lemma rescue_step_total (DMXs : list dmxrange) (bad_lo : Q) :
  0 <= max_diff -> exists out, rescue_step max_diff DMXs bad_lo = Ok out.
Proof.
  intros Hmd. unfold rescue_step.
  destruct (nearest_index bad_lo DMXs (2 * max_diff, 0%nat) 0) as [E|E].
  - rewrite E. replace (Qltb (2 * max_diff) max_diff) with false; [eexists; reflexivity|].
    symmetry. apply Qltb_false_iff. lra.
  - destruct (nearest max_diff bad_lo (2 * max_diff, 0%nat) 0 DMXs) as [a ind].
    cbn [snd] in E. destruct (Qltb a max_diff); [|eexists; reflexivity].
    destruct (nth_error DMXs ind) as [DMX|] eqn:Hnth.
    + destruct (absorb_total DMX bad_lo) as [DMX' ->]. eexists; reflexivity.
    + apply nth_error_None in Hnth. lia.
Qed.

Lemma rescue_loop_total (bad_los : list Q) : forall DMXs,
  0 <= max_diff -> exists out, rescue_loop max_diff DMXs bad_los = Ok out.
Proof.
  induction bad_los as [|bad_lo rest IH]; intros DMXs Hmd; cbn [rescue_loop];
    [eexists; reflexivity|].
  destruct (rescue_step_total DMXs bad_lo Hmd) as [D' ->]. cbn [bind]. now apply IH.
Qed.

(** [dmx_ranges_old] in terms of its two loops. *)
Lemma dmx_ranges_old_unfold (picks : list nat) (toas : list TOA) :
  dmx_ranges_old divide_freq offset max_diff picks toas =
  st <- pair_loop max_diff (low_days divide_freq toas) (high_days divide_freq toas)
          ([], []) O (low_days divide_freq toas) ;;
  DMXs <- rescue_loop max_diff (fst st) (set_iter picks (snd st)) ;;
  Ok (mkOutput (make_mask offset (get_mjds toas) DMXs) DMXs).
Proof.
  unfold dmx_ranges_old, low_days, high_days.
  destruct (pair_loop _ _ _ _ _ _) as [[D B]| |]; reflexivity.
Qed.

End Facts.
End LegacyFacts.

Module LegacyClaims.
Import Legacy LegacyFacts Fixtures.

(** C6: the bin that rescued the orphan day [5] has its extent recomputed
    without the pad: it spans exactly [[0, 5]], the earliest and the latest
    of its days, not [[-0.001, 5.001]]. *)
Theorem legacy_rescued_bin_loses_pad :
  exists b tmin tmax,
    dmx_ranges_old 1000 (1 # 100) 15 [] orphan = Ok (mkOutput [true; true; true] [b]) /\
    List.length (DMX.los b) = 2%nat /\
    py_min (DMX.los b ++ DMX.his b) = Ok tmin /\
    py_max (DMX.los b ++ DMX.his b) = Ok tmax /\
    tmin == 0 /\ tmax == 5 /\
    DMX.min b == 0 /\ DMX.max b == 5 /\
    ~ DMX.min b == tmin - pad /\ ~ DMX.max b == tmax + pad.
Proof.
  eexists. eexists. eexists.
  split; [vm_compute; reflexivity|]. cbn [DMX.los DMX.his DMX.min DMX.max].
  split; [reflexivity|]. split; [vm_compute; reflexivity|].
  split; [vm_compute; reflexivity|].
  repeat split; try reflexivity; intros H; discriminate H.
Qed.

(** C7: whenever [dmx_ranges_old] returns, and it does return when
    [max_diff] is not negative, every bin has a low-band day and a
    high-band day, and only such days. *)
Theorem legacy_bins_have_both_bands
    (divide_freq offset max_diff : Q) (picks : list nat) (toas : list TOA) :
  (0 <= max_diff ->
   exists out, dmx_ranges_old divide_freq offset max_diff picks toas = Ok out) /\
  (forall out,
     dmx_ranges_old divide_freq offset max_diff picks toas = Ok out ->
     Forall (both_bands divide_freq toas) (bins out)).
Proof.
  rewrite dmx_ranges_old_unfold. split.
  - intros Hmd.
    destruct (pair_loop_total max_diff (low_days divide_freq toas)
                (high_days divide_freq toas) (low_days divide_freq toas) ([], []) O)
      as [st ->].
    cbn [bind].
    destruct (rescue_loop_total max_diff (set_iter picks (snd st)) (fst st) Hmd) as [D ->].
    eexists; reflexivity.
  - intros out.
    destruct (pair_loop _ _ _ _ _ _) as [[D B]| |] eqn:Hpair; cbn [bind]; try discriminate.
    destruct (rescue_loop _ _ _) as [D'| |] eqn:Hres; cbn [bind]; try discriminate.
    intros [= <-]. cbn [bins fst snd] in *.
    destruct (pair_loop_bins max_diff (both_bands divide_freq toas)
                (low_days divide_freq toas) (high_days divide_freq toas)) with
      (rest := low_days divide_freq toas) (st := (@nil dmxrange, @nil Q)) (ii := O)
      (DMXs := D) (bad_los := B) as [HD HB]; try assumption.
    + intros lo hc b Hlo Hhc Hincl Hinit.
      apply init_spec in Hinit as (Hl & Hh & _). unfold both_bands. rewrite Hl, Hh.
      repeat split; [discriminate | assumption | | assumption].
      intros x [<-|[]]. exact Hlo.
    + apply incl_refl.
    + constructor.
    + intros x [].
    + refine (rescue_loop_bins max_diff (both_bands divide_freq toas)
                (low_days divide_freq toas) _ _ _ _ _ Hres HD).
      * intros DMX DMX' bad_lo (H1 & H2 & H3 & H4) Hbad Habs.
        apply absorb_spec in Habs as (Hl & Hh & _). unfold both_bands. rewrite Hl, Hh.
        repeat split; [destruct (DMX.los DMX); discriminate | assumption | | assumption].
        apply incl_app; [assumption|]. intros x [<-|[]]. exact Hbad.
      * intros x Hx. apply HB. eapply set_iter_incl, Hx.
Qed.

Lemma legacy_bins_have_both_bands_witness :
  0 <= 15 /\
  Forall (both_bands 1000 orphan)
    [DMX.mk [0 / 10; 50 / 10] [10 / 10] (0 / 10) (50 / 10)].
Proof.
  split; [discriminate|].
  refine (proj2 (legacy_bins_have_both_bands 1000 (1 # 100) 15 [] orphan)
            (mkOutput [true; true; true]
               [DMX.mk [0 / 10; 50 / 10] [10 / 10] (0 / 10) (50 / 10)]) _).
  vm_compute. reflexivity.
Defined.

(** C8: on no TOAs at all [dmx_ranges_old] returns no bins and an empty
    mask, but [dmx_ranges] raises [IndexError], at [MJDs[0]]. *)
Theorem empty_input_behaviour
    (divide_freq offset max_diff binwidth : Q) (picks : list nat) :
  dmx_ranges_old divide_freq offset max_diff picks [] = Ok (mkOutput [] []) /\
  Windowed.dmx_ranges [] divide_freq binwidth = Raise IndexError.
Proof.
  split; [|reflexivity].
  unfold dmx_ranges_old. cbn. now rewrite set_iter_nil.
Qed.

End LegacyClaims.

(* ================================================================== *)
(** * Facts about [dmxparse] *)
(* ================================================================== *)

Module ParseFacts.
Import Parse.

(** ** Finite sums *)

Lemma sum_upto_ext (n : nat) (f g : nat -> Q) :
  (forall k, (k < n)%nat -> f k == g k) -> sum_upto n f == sum_upto n g.
Proof.
  induction n as [|n IH]; intros H; cbn [sum_upto]; [reflexivity|].
  rewrite IH, (H n) by (intros; auto with arith). reflexivity.
Qed.

Lemma sum_upto_plus (n : nat) (f g : nat -> Q) :
  sum_upto n (fun k => f k + g k) == sum_upto n f + sum_upto n g.
Proof.
  induction n as [|n IH]; cbn [sum_upto]; [reflexivity|]. rewrite IH. ring.
Qed.

Lemma sum_upto_scale_l (n : nat) (c : Q) (f : nat -> Q) :
  sum_upto n (fun k => c * f k) == c * sum_upto n f.
Proof.
  induction n as [|n IH]; cbn [sum_upto]; [ring|]. rewrite IH. ring.
Qed.

Lemma sum_upto_scale_r (n : nat) (c : Q) (f : nat -> Q) :
  sum_upto n (fun k => f k * c) == sum_upto n f * c.
Proof.
  induction n as [|n IH]; cbn [sum_upto]; [ring|]. rewrite IH. ring.
Qed.

Lemma sum_upto_swap (n m : nat) (f : nat -> nat -> Q) :
  sum_upto n (fun k => sum_upto m (fun l => f k l)) ==
  sum_upto m (fun l => sum_upto n (fun k => f k l)).
Proof.
  induction n as [|n IH]; cbn [sum_upto].
  - induction m as [|m IHm]; cbn [sum_upto]; [reflexivity|]. rewrite <- IHm. ring.
  - rewrite IH, <- sum_upto_plus. reflexivity.
Qed.

Lemma of_nat_succ (n : nat) : of_nat (S n) == of_nat n + 1.
Proof.
  unfold of_nat. rewrite Nat2Z.inj_succ, <- Z.add_1_r, inject_Z_plus. reflexivity.
Qed.

Lemma of_nat_nonzero (n : nat) : (0 < n)%nat -> ~ of_nat n == 0.
Proof.
  intros Hn H. unfold of_nat, Qeq in H. cbn in H. lia.
Qed.

Lemma sum_upto_const (n : nat) (c : Q) : sum_upto n (fun _ => c) == of_nat n * c.
Proof.
  induction n as [|n IH]; cbn [sum_upto]; [unfold of_nat; cbn; ring|].
  rewrite IH, of_nat_succ. ring.
Qed.

Lemma sum_upto_delta (n i : nat) (g : nat -> Q) :
  (i < n)%nat -> sum_upto n (fun k => if (i =? k)%nat then g k else 0) == g i.
Proof.
  induction n as [|n IH]; intros Hi; [lia|]. cbn [sum_upto].
  destruct (Nat.eqb_spec i n) as [->|Hne].
  - rewrite (sum_upto_ext n _ (fun _ => 0)).
    + rewrite sum_upto_const. ring.
    + intros k Hk. destruct (Nat.eqb_spec n k); [lia | reflexivity].
  - rewrite IH by lia. ring.
Qed.

(** ** The corrected covariance *)

(** The de-meaning matrix applied on both sides, whenever the shapes fit. *)
Lemma corrected_covariance_shape (n : nat) (C : ndarray) :
  (exists cc', corrected_covariance n C = Ok cc') <-> nrows C = n /\ ncols C = n.
Proof.
  unfold corrected_covariance, np_dot. cbn [demean_matrix nrows ncols].
  destruct (Nat.eqb_spec n (nrows C)) as [E|E]; cbn [bind nrows ncols].
  - destruct (Nat.eqb_spec (ncols C) n) as [E'|E'].
    + split; [intros _; auto | intros _; eexists; reflexivity].
    + split; [intros [? H]; discriminate | intros [_ H]; congruence].
  - split; [intros [? H]; discriminate | intros [H _]; congruence].
Qed.

Lemma corrected_covariance_item (n : nat) (C cc' : ndarray) :
  corrected_covariance n C = Ok cc' ->
  nrows cc' = n /\ ncols cc' = n /\
  forall i j,
    item cc' i j =
    sum_upto n (fun k =>
      sum_upto n (fun l => item (demean_matrix n) i l * item C l k)
      * item (demean_matrix n) k j).
Proof.
  unfold corrected_covariance, np_dot. cbn [demean_matrix nrows ncols].
  destruct (Nat.eqb_spec n (nrows C)) as [E|E]; cbn [bind nrows ncols]; [|discriminate].
  destruct (Nat.eqb_spec (ncols C) n) as [E'|E']; [|discriminate].
  intros [= <-]. cbn [nrows ncols item]. rewrite E'. auto.
Qed.

Lemma demean_matrix_item (n k j : nat) :
  item (demean_matrix n) k j == Spec.M n j k.
Proof.
  unfold Spec.M. cbn. rewrite (Nat.eqb_sym k j). ring.
Qed.

(** The code computes [M C M]; as [M] is symmetric this is the [M C M^T]
    of the specification. *)
Lemma corrected_covariance_spec (n : nat) (C cc' : ndarray) :
  corrected_covariance n C = Ok cc' ->
  forall i j, item cc' i j == Spec.MCMt n (item C) i j.
Proof.
  intros H i j. destruct (corrected_covariance_item n C cc' H) as (_ & _ & Hitem).
  rewrite Hitem. unfold Spec.MCMt.
  rewrite (sum_upto_ext n _
             (fun k => sum_upto n (fun l => Spec.M n i l * item C l k * Spec.M n j k))).
  - apply sum_upto_swap.
  - intros k _. rewrite <- sum_upto_scale_r. apply sum_upto_ext. intros l _.
    rewrite !demean_matrix_item. unfold Spec.M. rewrite (Nat.eqb_sym l i). ring.
Qed.

(** On [v I] the transformed diagonal is [v (1 - 1/n)]. *)
Lemma MCMt_scalar (n : nat) (C : nat -> nat -> Q) (v : Q) :
  (0 < n)%nat ->
  (forall i j, (i < n)%nat -> (j < n)%nat -> C i j == if (i =? j)%nat then v else 0) ->
  forall i, (i < n)%nat -> Spec.MCMt n C i i == v * (1 - 1 / of_nat n).
Proof.
  intros Hn HC i Hi. unfold Spec.MCMt.
  pose proof (of_nat_nonzero n Hn) as Hnz.
  set (a := 1 / of_nat n).
  rewrite (sum_upto_ext n _
    (fun k => (if (i =? k)%nat then v * (1 - 2 * a) else 0) + v * a * a)).
  - rewrite sum_upto_plus, (sum_upto_delta n i (fun _ => v * (1 - 2 * a))) by assumption.
    rewrite sum_upto_const. unfold a. field. exact Hnz.
  - intros k Hk.
    rewrite (sum_upto_ext n _
      (fun l => if (k =? l)%nat then Spec.M n i k * v * Spec.M n i l else 0)).
    + rewrite (sum_upto_delta n k (fun l => Spec.M n i k * v * Spec.M n i l)) by assumption.
      unfold Spec.M. fold a. destruct (i =? k)%nat; ring.
    + intros l Hl. rewrite (HC k l Hk Hl). destruct (k =? l)%nat; ring.
Qed.

(** ** Means *)

Lemma np_true_divide_nat (x : Q) (n : nat) :
  (0 < n)%nat -> np_true_divide x (of_nat n) = Some (x / of_nat n).
Proof.
  intros Hn. unfold np_true_divide.
  destruct (Qeq_bool (of_nat n) 0) eqn:E; [|reflexivity].
  apply Qeq_bool_eq in E. now apply of_nat_nonzero in E.
Qed.

Lemma np_mean_nonempty (l : list Q) :
  l <> [] -> np_mean l = Some (Qsum l / of_nat (List.length l)).
Proof.
  intros H. apply np_true_divide_nat. destruct l; [congruence | cbn; lia].
Qed.

Lemma Qsum_shift (l : list Q) (m : Q) :
  Qsum (map (fun v => v - m) l) == Qsum l - of_nat (List.length l) * m.
Proof.
  induction l as [|x l IH]; cbn [map Qsum fold_right List.length].
  - unfold of_nat. cbn. ring.
  - fold (Qsum (map (fun v => v - m) l)). fold (Qsum l).
    rewrite IH, of_nat_succ. ring.
Qed.

(** Subtracting the mean leaves values that sum to zero. *)
Lemma Qsum_mean_subtracted (l : list Q) :
  l <> [] ->
  Qsum (map (fun v => v - Qsum l / of_nat (List.length l)) l) == 0.
Proof.
  intros H. rewrite Qsum_shift. field.
  apply of_nat_nonzero. destruct l; [congruence | cbn; lia].
Qed.

Lemma select_all {A : Type} (l : list A) (mask : list bool) :
  List.length mask = List.length l -> existsb (fun b => b) mask = false ->
  select l (map negb mask) = l.
Proof.
  revert mask. induction l as [|a l IH]; intros [|m mask]; cbn; try discriminate; auto.
  intros [= Hlen] H. apply orb_false_iff in H as [-> H]. cbn. now rewrite IH.
Qed.

(** ** The first loop *)

Lemma mapM_length {A B : Type} (f : A -> result B) (l : list A) (r : list B) :
  mapM f l = Ok r -> List.length r = List.length l.
Proof.
  revert r. induction l as [|x l IH]; intros r; cbn [mapM].
  - intros [= <-]. reflexivity.
  - destruct (f x) as [y| |]; cbn [bind]; try discriminate.
    destruct (mapM f l) as [ys| |]; cbn [bind]; try discriminate.
    intros [= <-]. cbn. now rewrite (IH ys).
Qed.

Lemma mapM_Forall2 {A B : Type} (f : A -> result B) (l : list A) (r : list B) :
  mapM f l = Ok r -> Forall2 (fun x y => f x = Ok y) l r.
Proof.
  revert r. induction l as [|x l IH]; intros r; cbn [mapM].
  - intros [= <-]. constructor.
  - destruct (f x) as [y| |] eqn:Hy; cbn [bind]; try discriminate.
    destruct (mapM f l) as [ys| |]; cbn [bind]; try discriminate.
    intros [= <-]. constructor; [exact Hy | now apply IH].
Qed.

Lemma read_epoch_spec (f : Fitter) (ii : string) (r : row) :
  read_epoch f ii = Ok r ->
  exists p, getattr f ("DMX_" ++ ii)%string = Some p /\
    DMX_key r = ("DMX_" ++ ii)%string /\ DMX r = value p /\
    mask_idx r = frozen p /\ DMX_Err r = uncertainty_value p.
Proof.
  unfold read_epoch, get.
  destruct (getattr f ("DMX_" ++ ii)%string) as [p|]; cbn [bind]; [|discriminate].
  destruct (getattr f ("DMXR1_" ++ ii)%string) as [p1|]; cbn [bind]; [|discriminate].
  destruct (getattr f ("DMXR2_" ++ ii)%string) as [p2|]; cbn [bind]; [|discriminate].
  intros [= <-]. exists p. cbn. auto.
Qed.

Lemma rows_values (f : Fitter) (rows : list row) :
  mapM (read_epoch f) (dmx_epochs f) = Ok rows ->
  Forall2 (fun ii v => exists p, getattr f ("DMX_" ++ ii)%string = Some p /\ value p = v)
          (dmx_epochs f) (map DMX rows).
Proof.
  intros H. apply mapM_Forall2 in H.
  induction H as [|ii r l rs Hr _ IH]; cbn [map]; constructor; [|exact IH].
  apply read_epoch_spec in Hr as (p & Hp & _ & Hv & _). exists p. split; congruence.
Qed.

Lemma rows_errors (f : Fitter) (rows : list row) :
  mapM (read_epoch f) (dmx_epochs f) = Ok rows ->
  Forall2 (fun ii r => exists p,
             getattr f ("DMX_" ++ ii)%string = Some p /\
             DMX_Err r = uncertainty_value p /\ mask_idx r = frozen p)
          (dmx_epochs f) rows.
Proof.
  intros H. apply mapM_Forall2 in H.
  induction H as [|ii r l rs Hr _ IH]; constructor; [|exact IH].
  apply read_epoch_spec in Hr as (p & Hp & _ & _ & Hm & He). exists p. auto.
Qed.

Lemma rows_keys (f : Fitter) (rows : list row) :
  mapM (read_epoch f) (dmx_epochs f) = Ok rows ->
  map DMX_key rows = map (fun x => "DMX_" ++ x)%string (dmx_epochs f).
Proof.
  intros H. apply mapM_Forall2 in H.
  induction H as [|ii r l rs Hr _ IH]; cbn [map]; [reflexivity|].
  apply read_epoch_spec in Hr as (p & _ & Hk & _). now rewrite Hk, IH.
Qed.

Section Summarize.

Variable np_sqrt : Q -> Q.

(** The mean and the mean-subtracted values do not depend on the branch. *)
Lemma summarize_mean (f : Fitter) (rows : list row) (out : report) :
  summarize np_sqrt f rows = Ok out ->
  mean_dmx out = np_mean (map DMX rows) /\
  dmxs out = map (fun v => match np_mean (map DMX rows) with
                           | Some m => Some (v - m)
                           | None => None
                           end) (map DMX rows) /\
  bins out = map DMX_key rows.
Proof.
  unfold summarize.
  destruct (match parameter_covariance_matrix f with Some _ => _ | None => _ end)
    as [[e v]| |]; cbn [bind]; try discriminate.
  destruct (_ || _); [discriminate|]. intros [= <-]. cbn. auto.
Qed.

(** Without a covariance matrix [summarize] returns the uncertainties of
    the model, those of the frozen bins too, and the mean of those of the
    bins that were fit, or zero when every bin is frozen. *)
Lemma summarize_fallback (f : Fitter) (rows : list row) :
  parameter_covariance_matrix f = None ->
  rows <> [] ->
  exists out,
    summarize np_sqrt f rows = Ok out /\
    dmx_verrs out = Array (map Some (map DMX_Err rows)) /\
    avg_dm_err out =
      match map DMX_Err (filter (fun r => negb (mask_idx r)) rows) with
      | [] => Some 0
      | e :: es =>
          Some (fold_right Qplus 0 (e :: es) / of_nat (List.length (e :: es)))
      end.
Proof.
  intros Hcov Hne. unfold summarize. rewrite Hcov. cbn [bind].
  assert (Hlen : (List.length (map DMX rows) =?
                  len (if existsb (fun b => b) (map mask_idx rows)
                       then MaskedArray (map DMX_Err rows) (map mask_idx rows)
                       else Array (map Some (map DMX_Err rows))))%nat = true).
  { apply Nat.eqb_eq. destruct (existsb _ _); cbn [len]; now rewrite !length_map. }
  rewrite Hlen. cbn [negb orb]. eexists. split; [reflexivity|].
  cbn [dmx_verrs avg_dm_err].
  pose proof (select_map2 DMX_Err mask_idx negb rows) as Hsel.
  destruct (existsb (fun b => b) (map mask_idx rows)) eqn:E; cbn [times_units].
  - split; [reflexivity|]. unfold ma_mean. rewrite Hsel.
    destruct (map DMX_Err (filter _ rows)) as [|e es]; cbn [scalar_times_units];
      [reflexivity|].
    now rewrite np_mean_nonempty.
  - split; [reflexivity|]. cbn [scalar_times_units].
    rewrite select_all in Hsel; [|now rewrite !length_map | exact E].
    rewrite <- Hsel. destruct rows as [|r rows]; [congruence|]. cbn [map].
    now rewrite np_mean_nonempty.
Qed.

Lemma count_true_none (mask : list bool) :
  existsb (fun b => b) mask = false -> count_true mask = 0%nat.
Proof.
  unfold count_true. induction mask as [|b mask IH]; cbn; [reflexivity|].
  destruct b; cbn; [discriminate | exact IH].
Qed.

(** With a matrix over the [n] fit bins the first part of the covariance
    branch returns the error of the mean and the corrected uncertainties. *)
Lemma fit_errors_square (n : nat) (C cc' : ndarray) :
  (0 < n)%nat -> corrected_covariance n C = Ok cc' ->
  fit_errors np_sqrt n C =
  Ok (lift (sqrt_float np_sqrt (np_sum C)) (fun s => Some (s / of_nat n)),
      map (fun i => sqrt_float np_sqrt (item cc' i i)) (seq 0 n)).
Proof.
  intros Hn Hcc. unfold fit_errors. rewrite Hcc. cbn [bind].
  destruct (sqrt_float np_sqrt (np_sum C)); cbn [lift]; [|reflexivity].
  now rewrite np_true_divide_nat.
Qed.

Lemma corrected_covariance_error (n : nat) (C : ndarray) :
  ~ (nrows C = n /\ ncols C = n) -> corrected_covariance n C = Raise ValueError.
Proof.
  intros H. unfold corrected_covariance, np_dot. cbn [demean_matrix nrows ncols].
  destruct (Nat.eqb_spec n (nrows C)) as [E|E]; cbn [bind nrows ncols]; [|reflexivity].
  destruct (Nat.eqb_spec (ncols C) n) as [E'|E']; [|reflexivity].
  exfalso. apply H. auto.
Qed.

(** [dmxparse] on a fitter that has a covariance matrix. *)
Lemma dmxparse_covariance (f : Fitter)
    (get_label_matrix : list string -> ndarray) (rows : list row) :
  parameter_covariance_matrix f = Some get_label_matrix ->
  dmx_epochs f <> [] ->
  mapM (read_epoch f) (dmx_epochs f) = Ok rows ->
  dmxparse np_sqrt f =
  r <- covariance_branch np_sqrt (get_label_matrix (requested_labels f))
         (map mask_idx rows) ;;
  if negb (List.length rows =? List.length (snd r))%nat then Raise RuntimeError
  else Ok (mkReport
             (map (fun v => match np_mean (map DMX rows) with
                            | Some m => Some (v - m)
                            | None => None
                            end) (map DMX rows))
             (Array (snd r)) (map center_MJD rows) (map R1 rows) (map R2 rows)
             (map DMX_key rows) (np_mean (map DMX rows)) (fst r)).
Proof.
  intros Hcov Hne Hrows. unfold dmxparse.
  destruct (dmx_epochs f) eqn:He; [congruence|]. rewrite Hrows. cbn [bind].
  unfold summarize. rewrite Hcov.
  destruct (covariance_branch _ _ _) as [[e v]| |]; cbn [bind fst snd]; try reflexivity.
  assert (Hlen : (List.length (map DMX rows) =?
                  len (if existsb (fun b => b) (map mask_idx rows)
                       then MaskedArray (map DMX_Err rows) (map mask_idx rows)
                       else Array (map Some (map DMX_Err rows))))%nat = true).
  { apply Nat.eqb_eq. destruct (existsb _ _); cbn [len]; now rewrite !length_map. }
  rewrite Hlen. cbn [negb orb len times_units scalar_times_units].
  now rewrite length_map.
Qed.

Lemma covariance_branch_mean_err (C : ndarray) (mask_idxs : list bool)
    (r : float * list float) :
  covariance_branch np_sqrt C mask_idxs = Ok r ->
  fst r = lift (sqrt_float np_sqrt (np_sum C))
             (fun s => np_true_divide s
                         (of_nat (List.length mask_idxs - count_true mask_idxs))).
Proof.
  unfold covariance_branch, fit_errors.
  destruct (corrected_covariance _ C) as [cc'| |]; cbn [bind]; try discriminate.
  destruct (if existsb _ _ then _ else _) as [v| |]; cbn [bind]; try discriminate.
  intros [= <-]. reflexivity.
Qed.

End Summarize.

(** ** The labels *)

Lemma insert_str_HdRel (x y : string) (l : list string) :
  label_le y x -> HdRel label_le y l -> HdRel label_le y (insert_str x l).
Proof.
  intros Hyx Hl. destruct l as [|z l]; cbn; [now constructor|].
  destruct (String.leb x z); constructor; [exact Hyx|]. now inversion Hl.
Qed.

Lemma insert_str_sorted (x : string) (l : list string) :
  Sorted label_le l -> Sorted label_le (insert_str x l).
Proof.
  induction l as [|y l IH]; intros Hs; cbn.
  - repeat constructor.
  - destruct (String.leb x y) eqn:E.
    + constructor; [exact Hs | constructor; exact E].
    + inversion Hs as [|? ? Hl Hhd]; subst. constructor; [now apply IH|].
      apply insert_str_HdRel; [|exact Hhd].
      destruct (String.leb_total x y) as [H|H]; [congruence | exact H].
Qed.

Lemma insert_str_perm (x : string) (l : list string) :
  Permutation (insert_str x l) (x :: l).
Proof.
  induction l as [|y l IH]; cbn; [reflexivity|].
  destruct (String.leb x y); [reflexivity|].
  rewrite IH. apply perm_swap.
Qed.

Lemma sorted_spec (l : list string) :
  Sorted label_le (sorted l) /\ Permutation (sorted l) l.
Proof.
  induction l as [|x l [IHs IHp]]; cbn; [split; constructor|].
  split; [now apply insert_str_sorted|].
  rewrite insert_str_perm. now constructor.
Qed.

(** [sorted] leaves a list in ascending order as it is. *)
Lemma sorted_fixed (l : list string) : Sorted label_le l -> sorted l = l.
Proof.
  induction l as [|x l IH]; intros Hs; [reflexivity|].
  inversion Hs as [|? ? Hl Hhd]; subst. cbn [sorted fold_right].
  fold (sorted l). rewrite (IH Hl).
  destruct l as [|y l]; [reflexivity|]. cbn [insert_str].
  inversion Hhd as [|? ? Hxy]; subst. unfold label_le in Hxy. now rewrite Hxy.
Qed.

End ParseFacts.

Module ParseClaims.
Import Parse ParseFacts Fixtures.

(** C1: whenever [dmxparse] returns, [mean_dmx] is the sum of the values of
    all the DMX parameters of the model, frozen or not, divided by their
    number, the returned [dmxs] are the values minus that mean, and they sum
    to zero.  On the values 1, 2, 3, 4 without a covariance matrix the mean
    is 5/2 and the [dmxs] are -3/2, -1/2, 1/2, 3/2. *)
Theorem dmxparse_mean_subtraction (np_sqrt : Q -> Q) :
  (forall f out,
     dmxparse np_sqrt f = Ok out ->
     exists values m,
       Forall2 (fun ii v => exists p,
                  getattr f ("DMX_" ++ ii)%string = Some p /\ value p = v)
               (dmx_epochs f) values /\
       values <> [] /\
       m = Qsum values / of_nat (List.length values) /\
       mean_dmx out = Some m /\
       dmxs out = map Some (map (fun v => v - m) values) /\
       Qsum (map (fun v => v - m) values) == 0) /\
  (exists out m d1 d2 d3 d4,
     dmxparse np_sqrt four_bins = Ok out /\
     mean_dmx out = Some m /\ m == 5 # 2 /\
     dmxs out = [Some d1; Some d2; Some d3; Some d4] /\
     d1 == - (3 # 2) /\ d2 == - (1 # 2) /\ d3 == 1 # 2 /\ d4 == 3 # 2).
Proof.
  split.
  - intros f out. unfold dmxparse.
    destruct (dmx_epochs f) as [|e es] eqn:He; [discriminate|].
    destruct (mapM (read_epoch f) (e :: es)) as [rows| |] eqn:Hrows; cbn [bind];
      try discriminate.
    intros Hsum. apply summarize_mean in Hsum as (Hm & Hd & _).
    rewrite <- He in Hrows.
    assert (Hne : map DMX rows <> []).
    { apply mapM_length in Hrows. rewrite He in Hrows. destruct rows; discriminate. }
    rewrite (np_mean_nonempty _ Hne) in Hm, Hd.
    exists (map DMX rows), (Qsum (map DMX rows) / of_nat (List.length (map DMX rows))).
    rewrite <- He. split; [now apply rows_values|].
    split; [exact Hne|]. split; [reflexivity|]. split; [exact Hm|].
    split; [rewrite Hd; symmetry; apply map_map|]. now apply Qsum_mean_subtracted.
  - do 6 eexists. split; [vm_compute; reflexivity|]. cbn.
    repeat split; reflexivity.
Qed.

Lemma dmxparse_mean_subtraction_witness :
  exists out,
    dmxparse (fun x => x) four_bins = Ok out /\
    exists m, mean_dmx out = Some m.
Proof.
  destruct (proj2 (dmxparse_mean_subtraction (fun x => x)))
    as (out & _ & _ & _ & _ & _ & Hout & _).
  exists out. split; [exact Hout|].
  destruct (proj1 (dmxparse_mean_subtraction (fun x => x)) four_bins out Hout)
    as (values & m & _ & _ & _ & Hm & _).
  exists m. exact Hm.
Defined.

(** C9, as it is worded, fails: with the uncertainties 0.1, 0.2 and 0.6
    and the second bin frozen, [dmx_verrs] holds the three uncertainties but
    [avg_dm_err] is 7/20, the mean of 0.1 and 0.6, and not their plain mean
    3/10. *)
Lemma fallback_plain_mean_counterexample :
  parameter_covariance_matrix (Scenarios.uneven_errors false true false) = None /\
  exists out m,
    dmxparse (fun x => x) (Scenarios.uneven_errors false true false) = Ok out /\
    dmx_verrs out = Array [Some (1 # 10); Some (2 # 10); Some (6 # 10)] /\
    avg_dm_err out = Some m /\
    m == 7 # 20 /\
    ~ m == ((1 # 10) + (2 # 10) + (6 # 10)) / 3.
Proof.
  split; [reflexivity|]. do 2 eexists.
  split; [vm_compute; reflexivity|].
  split; [reflexivity|]. split; [reflexivity|].
  split; [reflexivity|]. intros H. vm_compute in H. discriminate H.
Qed.

(** C9: without a covariance matrix [dmxparse] does return.  Its
    [dmx_verrs] are the uncertainties read from the model, those of all
    the bins, unchanged.  Its [avg_dm_err] is the arithmetic mean of the
    uncertainties of the bins that were fit: the plain mean of all the
    uncertainties when no bin is frozen.  (When every bin is frozen it is
    zero.) *)
Theorem dmxparse_fallback (np_sqrt : Q -> Q) (f : Fitter) (rows : list row) :
  parameter_covariance_matrix f = None ->
  dmx_epochs f <> [] ->
  mapM (read_epoch f) (dmx_epochs f) = Ok rows ->
  let errs := map DMX_Err rows in
  let fit_errs := map DMX_Err (filter (fun r => negb (mask_idx r)) rows) in
  Forall2 (fun ii r => exists p,
             getattr f ("DMX_" ++ ii)%string = Some p /\
             DMX_Err r = uncertainty_value p /\ mask_idx r = frozen p)
          (dmx_epochs f) rows /\
  exists out,
    dmxparse np_sqrt f = Ok out /\
    dmx_verrs out = Array (map Some errs) /\
    (fit_errs <> [] ->
     avg_dm_err out =
       Some (fold_right Qplus 0 fit_errs / of_nat (List.length fit_errs))) /\
    (existsb (fun b => b) (map mask_idx rows) = false ->
     avg_dm_err out = Some (fold_right Qplus 0 errs / of_nat (List.length errs))) /\
    (fit_errs = [] -> avg_dm_err out = Some 0).
Proof.
  intros Hcov Hne Hrows errs fit_errs. split; [now apply rows_errors|].
  assert (Hrne : rows <> []).
  { apply mapM_length in Hrows. destruct rows; [|discriminate].
    destruct (dmx_epochs f); [congruence | discriminate]. }
  destruct (summarize_fallback np_sqrt f rows Hcov Hrne) as (out & Hout & Hv & Ha).
  exists out. unfold dmxparse. destruct (dmx_epochs f) eqn:He; [congruence|].
  rewrite Hrows. cbn [bind]. split; [exact Hout|]. split; [exact Hv|].
  fold fit_errs in Ha. split; [|split].
  - intros Hfit. destruct fit_errs; [congruence | exact Ha].
  - intros Hnone.
    assert (E : fit_errs = errs).
    { unfold fit_errs, errs.
      rewrite <- (select_map2 DMX_Err mask_idx negb rows).
      apply select_all; [now rewrite !length_map | exact Hnone]. }
    rewrite E in Ha. unfold errs in Ha |- *.
    destruct rows as [|r rows]; [congruence | exact Ha].
  - intros Hfit. now rewrite Hfit in Ha.
Qed.

Lemma dmxparse_fallback_witness :
  parameter_covariance_matrix (Scenarios.uneven_errors false true false) = None /\
  exists out,
    dmxparse (fun x => x) (Scenarios.uneven_errors false true false) = Ok out /\
    dmx_verrs out = Array [Some (1 # 10); Some (2 # 10); Some (6 # 10)] /\
    avg_dm_err out = Some (((1 # 10) + ((6 # 10) + 0)) / of_nat 2).
Proof.
  split; [reflexivity|].
  destruct (dmxparse_fallback (fun x => x) (Scenarios.uneven_errors false true false)
              [ mkRow "DMX_0001" 1 false (1 # 10) 0 10 ((0 + 10) / 2);
                mkRow "DMX_0002" 2 true (2 # 10) 10 20 ((10 + 20) / 2);
                mkRow "DMX_0003" 3 false (6 # 10) 20 30 ((20 + 30) / 2) ]
              eq_refl) as [_ (out & Hout & Hv & Ha & _)].
  - discriminate.
  - reflexivity.
  - exists out. split; [exact Hout|]. split; [exact Hv|].
    apply Ha. discriminate.
Defined.

(** C2: what the code computes, for every fitter whose covariance matrix
    [C] is over its [n] fit bins.  The error of the mean is
    [sqrt (sum of the entries of C) / n], and [nan] when that sum is
    negative.  The matrix computed by the code is the [M C M^T] of the
    specification with [M = I - (1/n) J]; on [C = v I] its diagonal
    entries are [v (1 - 1/n)].  When no bin is frozen, entry [i] of
    [dmx_verrs] is the square root of the [i]-th diagonal entry of that
    matrix ([nan] when the entry is negative), next to the [i]-th bin in
    the order of [model.params].  The matrix was asked for with the
    labels in ascending order, so that its [i]-th row is the row of the
    [i]-th bin exactly when the model lists its bins in ascending order.

    On three fit bins listed as DMX_0002, DMX_0001, DMX_0003, with the
    variances 4, 1 and 9, the corrected variances of DMX_0001, DMX_0002
    and DMX_0003 are 17/9, 26/9 and 41/9, as the same bins listed in
    ascending order show; the code returns them in that order next to the
    bins DMX_0002, DMX_0001, DMX_0003: DMX_0002 is given the uncertainty
    of DMX_0001. *)
Theorem covariance_correction (np_sqrt : Q -> Q) :
  (forall f get_label_matrix rows,
     parameter_covariance_matrix f = Some get_label_matrix ->
     dmx_epochs f <> [] ->
     mapM (read_epoch f) (dmx_epochs f) = Ok rows ->
     let n := (List.length rows - count_true (map mask_idx rows))%nat in
     let C := get_label_matrix (requested_labels f) in
     let total := sum_upto n (fun i => sum_upto n (fun j => item C i j)) in
     (0 < n)%nat -> nrows C = n -> ncols C = n ->
     exists cc',
       corrected_covariance n C = Ok cc' /\
       (forall i j, item cc' i j == Spec.MCMt n (item C) i j) /\
       (forall v,
          (forall i j, (i < n)%nat -> (j < n)%nat ->
                       item C i j == if (i =? j)%nat then v else 0) ->
          forall i, (i < n)%nat -> item cc' i i == v * (1 - 1 / of_nat n)) /\
       (forall out,
          dmxparse np_sqrt f = Ok out ->
          avg_dm_err out =
            if Qle_bool 0 total then Some (np_sqrt total / of_nat n) else None) /\
       (existsb (fun b => b) (map mask_idx rows) = false ->
        exists out,
          dmxparse np_sqrt f = Ok out /\
          bins out = map DMX_key rows /\
          dmx_verrs out =
            Array (map (fun i => if Qle_bool 0 (item cc' i i)
                                 then Some (np_sqrt (item cc' i i))
                                 else None) (seq 0 n)) /\
          (bins out = requested_labels f <-> Sorted label_le (map DMX_key rows)))) /\
  (exists out d1 d2 d3 total,
     dmxparse np_sqrt Scenarios.unsorted_bins = Ok out /\
     requested_labels Scenarios.unsorted_bins =
       ["DMX_0001"; "DMX_0002"; "DMX_0003"]%string /\
     bins out = ["DMX_0002"; "DMX_0001"; "DMX_0003"]%string /\
     dmx_verrs out = Array [Some (np_sqrt d1); Some (np_sqrt d2); Some (np_sqrt d3)] /\
     d1 == 17 # 9 /\ d2 == 26 # 9 /\ d3 == 41 # 9 /\
     avg_dm_err out = Some (np_sqrt total / of_nat 3) /\ total == 14) /\
  (exists out d1 d2 d3 total,
     dmxparse np_sqrt Scenarios.ascending_bins = Ok out /\
     requested_labels Scenarios.ascending_bins =
       ["DMX_0001"; "DMX_0002"; "DMX_0003"]%string /\
     bins out = ["DMX_0001"; "DMX_0002"; "DMX_0003"]%string /\
     dmx_verrs out = Array [Some (np_sqrt d1); Some (np_sqrt d2); Some (np_sqrt d3)] /\
     d1 == 17 # 9 /\ d2 == 26 # 9 /\ d3 == 41 # 9 /\
     avg_dm_err out = Some (np_sqrt total / of_nat 3) /\ total == 14).
Proof.
  match goal with |- ?A /\ _ => assert (General : A) end.
  { intros f P rows Hcov Hne Hrows n C total Hn Hr Hc.
    destruct (proj2 (corrected_covariance_shape n C) (conj Hr Hc)) as [cc' Hcc].
    exists cc'. split; [exact Hcc|].
    split; [now apply corrected_covariance_spec|].
    split.
    { intros v HC i Hi. rewrite (corrected_covariance_spec n C cc' Hcc).
      now apply MCMt_scalar. }
    assert (Hsum : np_sum C = total) by (unfold np_sum, total; now rewrite Hr, Hc).
    rewrite (dmxparse_covariance np_sqrt f P rows Hcov Hne Hrows). fold C.
    split.
    - intros out.
      destruct (covariance_branch np_sqrt C (map mask_idx rows)) as [r| |] eqn:Hb;
        cbn [bind]; try discriminate.
      destruct (negb _); [discriminate|]. intros [= <-]. cbn [avg_dm_err].
      rewrite (covariance_branch_mean_err np_sqrt _ _ _ Hb), length_map, Hsum.
      fold n. unfold sqrt_float.
      destruct (Qle_bool 0 total); cbn [lift]; [|reflexivity].
      now apply np_true_divide_nat.
    - intros Hnone.
      assert (Hall : n = List.length rows).
      { unfold n. rewrite (count_true_none _ Hnone). lia. }
      unfold covariance_branch. rewrite length_map. fold n.
      rewrite (fit_errors_square np_sqrt n C cc' Hn Hcc), Hnone.
      cbn [bind fst snd]. rewrite length_map, length_seq, <- Hall, Nat.eqb_refl.
      cbn [negb]. eexists. split; [reflexivity|]. cbn [bins dmx_verrs].
      split; [reflexivity|]. split; [reflexivity|].
      unfold requested_labels. rewrite <- (rows_keys f rows Hrows). split.
      + intros E. rewrite E. apply sorted_spec.
      + intros Hs. symmetry. now apply sorted_fixed. }
  split; [exact General|]. split.
  - destruct (General Scenarios.unsorted_bins
                (Scenarios.diagonal_provider Scenarios.variances)
                [ mkRow "DMX_0002" 2 false (2 # 10) 10 20 ((10 + 20) / 2);
                  mkRow "DMX_0001" 1 false (1 # 10) 0 10 ((0 + 10) / 2);
                  mkRow "DMX_0003" 3 false (3 # 10) 20 30 ((20 + 30) / 2) ]
                eq_refl ltac:(discriminate) eq_refl (Nat.lt_0_succ 2) eq_refl eq_refl)
      as (cc' & Hcc & _ & _ & Havg & Hout).
    destruct (Hout eq_refl) as (out & Ho & Hb & Hv & _).
    vm_compute in Hcc. injection Hcc as <-.
    exists out. do 4 eexists.
    split; [exact Ho|]. split; [vm_compute; reflexivity|].
    split; [rewrite Hb; reflexivity|].
    split; [rewrite Hv; vm_compute; reflexivity|].
    split; [vm_compute; reflexivity|]. split; [vm_compute; reflexivity|].
    split; [vm_compute; reflexivity|].
    split; [rewrite (Havg out Ho); reflexivity | vm_compute; reflexivity].
  - destruct (General Scenarios.ascending_bins
                (Scenarios.diagonal_provider Scenarios.variances)
                [ mkRow "DMX_0001" 1 false (1 # 10) 0 10 ((0 + 10) / 2);
                  mkRow "DMX_0002" 2 false (2 # 10) 10 20 ((10 + 20) / 2);
                  mkRow "DMX_0003" 3 false (3 # 10) 20 30 ((20 + 30) / 2) ]
                eq_refl ltac:(discriminate) eq_refl (Nat.lt_0_succ 2) eq_refl eq_refl)
      as (cc' & Hcc & _ & _ & Havg & Hout).
    destruct (Hout eq_refl) as (out & Ho & Hb & Hv & _).
    vm_compute in Hcc. injection Hcc as <-.
    exists out. do 4 eexists.
    split; [exact Ho|]. split; [vm_compute; reflexivity|].
    split; [rewrite Hb; reflexivity|].
    split; [rewrite Hv; vm_compute; reflexivity|].
    split; [vm_compute; reflexivity|]. split; [vm_compute; reflexivity|].
    split; [vm_compute; reflexivity|].
    split; [rewrite (Havg out Ho); reflexivity | vm_compute; reflexivity].
Qed.

(** A single frozen bin takes the one-index path of [np.insert] and gets its
    placeholder where it was masked. *)
Example single_frozen_bin_aligned (np_sqrt : Q -> Q) :
  exists out e1 e3,
    dmxparse np_sqrt (three_bins false true false [[4; 0]; [0; 4]]) = Ok out /\
    dmx_verrs out = Array [Some e1; None; Some e3].
Proof.
  do 3 eexists. split; [vm_compute; reflexivity|]. reflexivity.
Qed.

(** C3: with bins 1 and 2 frozen and bin 3 fit, the uncertainty of bin 3 is
    returned at position 2 and a placeholder at position 3; with bins 2 and
    3 frozen the insertion raises [IndexError].  [np.insert] takes the
    indices given by [np.where] as positions in the array of the fit bins. *)
Theorem frozen_placeholders_misplaced (np_sqrt : Q -> Q) :
  (exists out e,
     dmxparse np_sqrt (three_bins true true false [[4]]) = Ok out /\
     bins out = ["DMX_0001"; "DMX_0002"; "DMX_0003"]%string /\
     dmx_verrs out = Array [None; Some e; None]) /\
  dmxparse np_sqrt (three_bins false true true [[4]]) = Raise IndexError.
Proof.
  split; [|vm_compute; reflexivity].
  do 2 eexists. split; [vm_compute; reflexivity|]. cbn. split; reflexivity.
Qed.

(** C10: when the fitter has a covariance matrix, [dmxparse] consults it
    for one list of labels only: the names of all the DMX parameters of the
    model, frozen ones included, in ascending order.  With [n] the number
    of bins that are not frozen, the two matrix products are defined
    exactly when the returned matrix is [n] by [n]; otherwise [dmxparse]
    raises [ValueError]. *)
Theorem covariance_request (np_sqrt : Q -> Q) (f : Fitter)
    (get_label_matrix : list string -> ndarray) :
  parameter_covariance_matrix f = Some get_label_matrix ->
  Sorted label_le (requested_labels f) /\
  Permutation (requested_labels f) (map (fun x => "DMX_" ++ x)%string (dmx_epochs f)) /\
  (forall g, g (requested_labels f) = get_label_matrix (requested_labels f) ->
     dmxparse np_sqrt (mkFitter (params f) (getattr f) (Some g)) = dmxparse np_sqrt f) /\
  (forall rows,
     dmx_epochs f <> [] ->
     mapM (read_epoch f) (dmx_epochs f) = Ok rows ->
     let n := (List.length rows - count_true (map mask_idx rows))%nat in
     let C := get_label_matrix (requested_labels f) in
     Permutation (requested_labels f) (map DMX_key rows) /\
     ((exists cc', corrected_covariance n C = Ok cc') <-> nrows C = n /\ ncols C = n) /\
     (~ (nrows C = n /\ ncols C = n) -> dmxparse np_sqrt f = Raise ValueError)).
Proof.
  intros Hcov. destruct (sorted_spec (map (fun x => "DMX_" ++ x)%string (dmx_epochs f)))
    as [Hs Hp].
  split; [exact Hs|]. split; [exact Hp|]. split.
  - intros g Hg. destruct (dmx_epochs f) as [|e es] eqn:He.
    + unfold dmxparse, dmx_epochs in *. cbn [params]. now rewrite He.
    + destruct (mapM (read_epoch f) (dmx_epochs f)) as [rows| |] eqn:Hrows.
      * rewrite (dmxparse_covariance np_sqrt f get_label_matrix rows Hcov);
          [|rewrite He; discriminate|exact Hrows].
        rewrite (dmxparse_covariance np_sqrt (mkFitter (params f) (getattr f) (Some g))
                   g rows eq_refl); [|unfold dmx_epochs in *; cbn [params]; rewrite He; discriminate|exact Hrows].
        unfold requested_labels, dmx_epochs in *. cbn [params]. now rewrite Hg.
      * unfold dmxparse, dmx_epochs, read_epoch, get in *. cbn [params getattr].
        rewrite He in *. now rewrite Hrows.
      * unfold dmxparse, dmx_epochs, read_epoch, get in *. cbn [params getattr].
        rewrite He in *. now rewrite Hrows.
  - intros rows Hne Hrows n C. split; [now rewrite (rows_keys f rows Hrows)|].
    split; [apply corrected_covariance_shape|].
    intros Hshape. rewrite (dmxparse_covariance np_sqrt f get_label_matrix rows Hcov Hne Hrows).
    unfold covariance_branch, fit_errors. rewrite length_map. fold n. fold C.
    now rewrite (corrected_covariance_error n C Hshape).
Qed.

Lemma covariance_request_witness :
  parameter_covariance_matrix
    (three_bins false true false [[4; 0; 0]; [0; 4; 0]; [0; 0; 4]]) <> None /\
  requested_labels (three_bins false true false [[4; 0; 0]; [0; 4; 0]; [0; 0; 4]]) =
    ["DMX_0001"; "DMX_0002"; "DMX_0003"]%string /\
  dmxparse (fun x => x) (three_bins false true false [[4; 0; 0]; [0; 4; 0]; [0; 0; 4]]) =
    Raise ValueError.
Proof.
  split; [discriminate|]. split; [reflexivity|].
  destruct (covariance_request (fun x => x)
              (three_bins false true false [[4; 0; 0]; [0; 4; 0]; [0; 0; 4]])
              (fun _ => array_of [[4; 0; 0]; [0; 4; 0]; [0; 0; 4]]) eq_refl)
    as (_ & _ & _ & Hrows).
  destruct (Hrows
              [ mkRow "DMX_0001" 1 false (1 # 10) 0 10 ((0 + 10) / 2);
                mkRow "DMX_0002" 2 true (2 # 10) 10 20 ((10 + 20) / 2);
                mkRow "DMX_0003" 3 false (3 # 10) 20 30 ((20 + 30) / 2) ])
    as (_ & _ & Hraise); [discriminate | reflexivity |].
  apply Hraise. cbn. intros [H _]. discriminate H.
Defined.

End ParseClaims.


(* ================================================================== *)
(** * Further properties of [dmxrange] and [dmx_ranges] *)
(* ================================================================== *)

Module WindowedExtras.
Import Windowed WindowedFacts WindowedTheorems Fixtures.

Lemma pad_positive : 0 < pad.
Proof. reflexivity. Qed.

(** X1: [dmxrange(lofreqs, hifreqs)] raises [ValueError] when both lists
    are empty; otherwise it keeps the two lists and every one of their
    times lies strictly inside [(min, max)]. *)
Theorem dmxrange_init_extent (lofreqs hifreqs : list Q) :
  (lofreqs ++ hifreqs = [] -> DMX.init lofreqs hifreqs = Raise ValueError) /\
  (lofreqs ++ hifreqs <> [] ->
   exists b,
     DMX.init lofreqs hifreqs = Ok b /\
     DMX.los b = lofreqs /\ DMX.his b = hifreqs /\
     forall t, In t (lofreqs ++ hifreqs) -> DMX.min b < t /\ t < DMX.max b).
Proof.
  split.
  - intros E. unfold DMX.init. now rewrite E.
  - intros Hne. destruct (init_total _ _ Hne) as [b Hb]. exists b.
    split; [exact Hb|].
    apply init_spec in Hb as (Hl & Hh & tmin & tmax & Hmin & Hmax & Emin & Emax).
    split; [exact Hl|]. split; [exact Hh|].
    apply py_min_spec in Hmin as [_ Hmin]. apply py_max_spec in Hmax as [_ Hmax].
    rewrite Forall_forall in Hmin, Hmax.
    intros t Ht. specialize (Hmin t Ht). specialize (Hmax t Ht).
    rewrite Emin, Emax. pose proof pad_positive. split; lra.
Qed.

Lemma dmxrange_init_extent_witness :
  [0] ++ [1] <> [] /\ exists b, DMX.init [0] [1] = Ok b /\ DMX.min b < 0.
Proof.
  split; [discriminate|].
  destruct (proj2 (dmxrange_init_extent [0] [1])) as (b & Hb & _ & _ & Ht);
    [discriminate|].
  exists b. split; [exact Hb|]. apply (Ht 0). now left.
Defined.

Section Loop.

Variable toas : list TOA.
Variables divide_freq binwidth : Q.

Abbreviation step := (Windowed.step toas divide_freq binwidth).
Abbreviation loop := (Windowed.loop toas divide_freq binwidth).

Lemma filter_length_split {A : Type} (p q r : A -> bool) (l : list A) :
  (forall a, In a l -> p a = true -> r a = true) ->
  (forall a, In a l -> q a = true -> r a = true) ->
  (forall a, In a l -> p a = true -> q a = true -> False) ->
  (List.length (filter p l) + List.length (filter q l) <= List.length (filter r l))%nat.
Proof.
  induction l as [|a l IH]; intros Hp Hq Hpq; cbn [filter List.length]; [lia|].
  assert (IH' : (List.length (filter p l) + List.length (filter q l)
                 <= List.length (filter r l))%nat).
  { apply IH; intros x Hx; [apply Hp | apply Hq | apply Hpq]; now right. }
  destruct (p a) eqn:Ep, (q a) eqn:Eq.
  - exfalso. apply (Hpq a); auto. now left.
  - rewrite (Hp a (or_introl eq_refl) Ep). cbn [List.length]. lia.
  - rewrite (Hq a (or_introl eq_refl) Eq). cbn [List.length]. lia.
  - destruct (r a); cbn [List.length]; lia.
Qed.

(** A pass that continues leaves the whole batch behind the cursor. *)
Lemma step_consumes (prev prev' : Q) (bin : option dmxrange) :
  step prev = Ok (Continue bin prev') ->
  exists start,
    (bin <> None -> accepts divide_freq (batch toas binwidth prev start) = true) /\
    (List.length (after toas prev') + List.length (batch toas binwidth prev start)
     <= List.length (after toas prev))%nat.
Proof.
  intros H. apply step_continue in H as (o & rest & Ha & HB & Hm & Hacc).
  exists (mjd o). split.
  - destruct Hacc as [[_ ->]|[Hacc _]]; [congruence | intros _; exact Hacc].
  - apply py_max_spec in Hm as [Hin Hall]. rewrite Forall_forall in Hall.
    apply in_map_iff in Hin as (x & Hx & Hin).
    apply (in_batch toas binwidth) in Hin as (_ & Hx2 & _).
    unfold after, batch. apply filter_length_split.
    + intros a _ Ha'. apply Qltb_iff in Ha'. apply Qltb_iff. rewrite Hx in Hx2. lra.
    + intros a _ Ha'. apply andb_true_iff in Ha' as [Ha' _]. exact Ha'.
    + intros a Hin Ha1 Ha2. apply Qltb_iff in Ha1.
      assert (Hle : mjd a <= prev').
      { apply Hall, in_map. unfold batch. apply filter_In. now split. }
      lra.
Qed.

(** A batch that is accepted holds at least two TOAs. *)
Lemma accepts_two (B : list TOA) :
  accepts divide_freq B = true -> (2 <= List.length B)%nat.
Proof.
  intros H. apply accepts_iff in H as [(o1 & H1 & F1) (o2 & H2 & F2)].
  assert (Hne : o1 <> o2) by (intros ->; lra).
  destruct B as [|a [|b B]]; cbn [List.length]; [destruct H1 | | lia].
  destruct H1 as [<-|[]], H2 as [<-|[]]. congruence.
Qed.

(** Every bin costs the loop two of the TOAs still after the cursor. *)
Lemma loop_bin_count (fuel : nat) : forall prev DMXs out,
  loop fuel prev DMXs = Ok out ->
  (2 * List.length out <= 2 * List.length DMXs + List.length (after toas prev))%nat.
Proof.
  induction fuel as [|fuel IH]; intros prev DMXs out; [discriminate|].
  cbn [Windowed.loop]. destruct (step prev) as [r| |] eqn:Hr; cbn [bind]; try discriminate.
  destruct r as [|bin prev'].
  - intros [= <-]. lia.
  - intros H. apply IH in H. apply step_consumes in Hr as (start & Hacc & Hlen).
    destruct bin as [b|]; cbn [append_bin] in H.
    + rewrite length_app in H. cbn [List.length] in H.
      pose proof (accepts_two _ (Hacc ltac:(discriminate))). lia.
    + lia.
Qed.

(** The cursor only moves forward, and a bin lies between the cursor
    before and the cursor after the pass that made it. *)
Lemma step_brackets (prev prev' : Q) (bin : option dmxrange) :
  step prev = Ok (Continue bin prev') ->
  prev < prev' /\
  forall b, bin = Some b ->
    prev < DMX.min b + pad /\ DMX.max b - pad <= prev' /\
    forall t, In t (DMX.los b ++ DMX.his b) -> DMX.min b <= t /\ t <= DMX.max b.
Proof.
  intros H. apply step_continue in H as (o & rest & Ha & HB & Hm & Hacc).
  apply py_max_spec in Hm as [Hin Hall]. rewrite Forall_forall in Hall.
  split.
  - apply in_map_iff in Hin as (x & Hx & Hin).
    apply (in_batch toas binwidth) in Hin as (_ & Hx2 & _). now rewrite <- Hx.
  - intros b ->. destruct Hacc as [[_ Hn]|[_ (b' & Hb & Hinit)]]; [discriminate|].
    injection Hb as <-.
    destruct (init_extent _ _ _ Hinit) as [(o1 & Ho1 & _ & E1) (o2 & Ho2 & _ & E2)].
    split; [|split].
    + rewrite E1. apply (in_batch toas binwidth) in Ho1 as (_ & H1 & _). lra.
    + rewrite E2. assert (mjd o2 <= prev') by now apply Hall, in_map. lra.
    + apply init_spec in Hinit as (Hl & Hh & tmin & tmax & Hmin & Hmax & Emin & Emax).
      apply py_min_spec in Hmin as [_ Hmin]. apply py_max_spec in Hmax as [_ Hmax].
      rewrite Forall_forall in Hmin, Hmax. rewrite Hl, Hh, Emin, Emax.
      intros t Ht. specialize (Hmin t Ht). specialize (Hmax t Ht).
      pose proof pad_positive. split; lra.
Qed.

Abbreviation before :=
  (fun b1 b2 : dmxrange => DMX.max b1 - pad < DMX.min b2 + pad).

Lemma StronglySorted_snoc {A : Type} (R : A -> A -> Prop) (l : list A) (a : A) :
  StronglySorted R l -> Forall (fun x => R x a) l -> StronglySorted R (l ++ [a]).
Proof.
  induction 1 as [|x l Hs IH Hx]; intros Hall; cbn.
  - repeat constructor.
  - inversion Hall as [|? ? Hxa Hl]; subst. constructor; [now apply IH|].
    apply Forall_app. split; [exact Hx | now constructor].
Qed.

Lemma loop_sorted (fuel : nat) : forall prev DMXs out,
  loop fuel prev DMXs = Ok out ->
  StronglySorted before DMXs ->
  Forall (fun b => DMX.max b - pad <= prev) DMXs ->
  StronglySorted before out.
Proof.
  induction fuel as [|fuel IH]; intros prev DMXs out; [discriminate|].
  cbn [Windowed.loop]. destruct (step prev) as [r| |] eqn:Hr; cbn [bind]; try discriminate.
  destruct r as [|bin prev'].
  - intros [= <-]. auto.
  - intros H Hs Hb. apply step_brackets in Hr as [Hlt Hbin].
    assert (Hb' : Forall (fun b => DMX.max b - pad <= prev') DMXs).
    { eapply Forall_impl; [|exact Hb]. cbn. intros b Hle. lra. }
    apply (IH _ _ _ H); destruct bin as [b|]; cbn [append_bin]; try assumption.
    + destruct (Hbin b eq_refl) as (H1 & H2 & _).
      apply StronglySorted_snoc; [exact Hs|].
      eapply Forall_impl; [|exact Hb]. cbn. intros b0 Hle. lra.
    + destruct (Hbin b eq_refl) as (H1 & H2 & _).
      apply Forall_app. split; [exact Hb'|]. now repeat constructor.
Qed.

End Loop.

(** X2: on a non-empty set of TOAs [dmx_ranges] always returns: the loop
    ends and nothing raises.  The mask has one entry per TOA and there is
    at most one bin for every two TOAs. *)
Theorem dmx_ranges_terminates (toas : list TOA) (divide_freq binwidth : Q) :
  toas <> [] ->
  exists out,
    dmx_ranges toas divide_freq binwidth = Ok out /\
    List.length (mask out) = List.length toas /\
    (2 * List.length (bins out) <= List.length toas)%nat.
Proof.
  intros Hne. destruct (dmx_ranges_returns toas divide_freq binwidth Hne) as [out Hout].
  exists out. split; [exact Hout|]. revert Hout. unfold dmx_ranges.
  destruct (first (get_mjds toas)) as [m0| |]; cbn [bind]; try discriminate.
  destruct (Windowed.loop _ _ _ _ _ _) as [DMXs| |] eqn:Hloop; cbn [bind]; try discriminate.
  intros [= <-]. cbn [bins mask]. split; [apply make_mask_spec|].
  apply loop_bin_count in Hloop. cbn [List.length] in Hloop.
  pose proof (filter_length_le (fun o => Qltb (m0 - pad) (mjd o)) toas).
  unfold after in Hloop. lia.
Qed.

Lemma dmx_ranges_terminates_witness :
  two_band <> [] /\ exists out, dmx_ranges two_band 1000 15 = Ok out.
Proof.
  split; [discriminate|].
  destruct (dmx_ranges_terminates two_band 1000 15) as (out & Hout & _);
    [discriminate|].
  exists out. exact Hout.
Defined.

(** X3: the bins of [dmx_ranges] come in time order and their batches do
    not overlap: the latest time of a bin, [max - 0.001], is strictly
    before the earliest time, [min + 0.001], of every later bin. *)
Theorem dmx_ranges_bins_ordered
    (toas : list TOA) (divide_freq binwidth : Q) (out : output) :
  dmx_ranges toas divide_freq binwidth = Ok out ->
  StronglySorted (fun b1 b2 => DMX.max b1 - pad < DMX.min b2 + pad) (bins out).
Proof.
  unfold dmx_ranges.
  destruct (first (get_mjds toas)) as [m0| |]; cbn [bind]; try discriminate.
  destruct (Windowed.loop _ _ _ _ _ _) as [DMXs| |] eqn:Hloop; cbn [bind]; try discriminate.
  intros [= <-]. cbn [bins].
  apply (loop_sorted toas divide_freq binwidth _ _ _ _ Hloop); constructor.
Qed.

Lemma dmx_ranges_bins_ordered_witness :
  exists out,
    dmx_ranges Scenarios.two_sessions 1000 15 = Ok out /\
    List.length (bins out) = 2%nat /\
    StronglySorted (fun b1 b2 => DMX.max b1 - pad < DMX.min b2 + pad) (bins out).
Proof.
  eexists. split; [vm_compute; reflexivity|]. split; [reflexivity|].
  apply (dmx_ranges_bins_ordered Scenarios.two_sessions 1000 15).
  vm_compute; reflexivity.
Defined.

(** X4: every TOA whose time is one of the low or high times of a returned
    bin is marked in the mask. *)
Theorem dmx_ranges_members_masked
    (toas : list TOA) (divide_freq binwidth : Q) (out : output) :
  dmx_ranges toas divide_freq binwidth = Ok out ->
  forall i o b,
    nth_error toas i = Some o -> In b (bins out) ->
    In (mjd o) (DMX.los b ++ DMX.his b) ->
    nth i (mask out) false = true.
Proof.
  unfold dmx_ranges.
  destruct (first (get_mjds toas)) as [m0| |]; cbn [bind]; try discriminate.
  destruct (Windowed.loop _ _ _ _ _ _) as [DMXs| |] eqn:Hloop; cbn [bind]; try discriminate.
  intros [= <-]. cbn [bins mask]. intros i o b Ho Hb Hin.
  apply (proj2 (make_mask_spec toas DMXs) i o Ho). exists b. split; [exact Hb|].
  assert (HP : Forall (fun b => forall t, In t (DMX.los b ++ DMX.his b) ->
                                DMX.min b <= t /\ t <= DMX.max b) DMXs).
  { refine (loop_bins toas divide_freq binwidth _ _ _ _ _ _ Hloop (Forall_nil _)).
    intros prev b0 prev' Hstep.
    apply (step_brackets toas divide_freq binwidth) in Hstep as [_ Hbin].
    now destruct (Hbin b0 eq_refl) as (_ & _ & H). }
  rewrite Forall_forall in HP. exact (HP b Hb _ Hin).
Qed.

Lemma dmx_ranges_members_masked_witness :
  dmx_ranges two_band 1000 15 =
    Ok (mkOutput [true; true] [DMX.mk [0] [1] (0 - pad) (1 + pad)]) /\
  nth 1 [true; true] false = true.
Proof.
  split; [vm_compute; reflexivity|].
  refine (dmx_ranges_members_masked two_band 1000 15
            (mkOutput [true; true] [DMX.mk [0] [1] (0 - pad) (1 + pad)]) eq_refl
            1%nat (mkTOA 1 1500) (DMX.mk [0] [1] (0 - pad) (1 + pad)) eq_refl _ _).
  - now left.
  - right. now left.
Defined.

End WindowedExtras.


(* ================================================================== *)
(** * Further properties of [dmx_ranges_old] *)
(* ================================================================== *)

Module LegacyExtras.
Import Legacy LegacyFacts Fixtures.

Ltac qabs :=
  repeat match goal with
         | |- context [Qabs ?x] => pattern (Qabs x); apply Qabs_case; intros
         | H : context [Qabs ?x] |- _ => revert H; pattern (Qabs x); apply Qabs_case; intros
         end.

(** X5: the mask of [dmx_ranges_old] has one entry per TOA, true iff the
    time of the TOA lies strictly inside [(min - offset, max + offset)] for
    some returned bin. *)
Theorem legacy_mask_spec
    (divide_freq offset max_diff : Q) (picks : list nat) (toas : list TOA)
    (out : output) :
  dmx_ranges_old divide_freq offset max_diff picks toas = Ok out ->
  List.length (mask out) = List.length toas /\
  forall i o, nth_error toas i = Some o ->
    (nth i (mask out) false = true <->
     exists b, In b (bins out) /\
               DMX.min b - offset < mjd o /\ mjd o < DMX.max b + offset).
Proof.
  rewrite dmx_ranges_old_unfold.
  destruct (pair_loop _ _ _ _ _ _) as [st| |]; cbn [bind]; try discriminate.
  destruct (rescue_loop _ _ _) as [DMXs| |]; cbn [bind]; try discriminate.
  intros [= <-]. cbn [mask bins]. unfold make_mask, get_mjds.
  destruct (mask_fold_spec (in_bin offset) (map mjd toas) DMXs
              (map (fun _ => false) (map mjd toas))) as [Hl Hn];
    [now rewrite !length_map|].
  rewrite length_map in Hl, Hn. split; [exact Hl|].
  intros i o Ho.
  assert (Hi : (i < List.length toas)%nat) by (apply nth_error_Some; congruence).
  rewrite (Hn i Hi), nth_all_false. cbn [orb].
  rewrite (nth_indep (map mjd toas) 0 (mjd o)) by (rewrite length_map; lia).
  rewrite (map_nth mjd), (nth_error_nth _ _ _ Ho).
  rewrite existsb_exists. unfold in_bin.
  split; intros [b [Hb H]]; exists b; (split; [exact Hb|]).
  - apply andb_true_iff in H as [H1 H2]. now rewrite <- !Qltb_iff.
  - apply andb_true_iff. now rewrite !Qltb_iff.
Qed.

Lemma legacy_mask_spec_witness :
  dmx_ranges_old 1000 (1 # 100) 15 [] orphan =
    Ok (mkOutput [true; true; true]
          [DMX.mk [0 / 10; 50 / 10] [10 / 10] (0 / 10) (50 / 10)]) /\
  List.length [true; true; true] = List.length orphan.
Proof.
  split; [vm_compute; reflexivity|].
  refine (proj1 (legacy_mask_spec 1000 (1 # 100) 15 [] orphan
            (mkOutput [true; true; true]
               [DMX.mk [0 / 10; 50 / 10] [10 / 10] (0 / 10) (50 / 10)]) _)).
  vm_compute. reflexivity.
Defined.

Section Negative.

Variables divide_freq offset max_diff : Q.

Lemma hi_close_negative (loMJDs hiMJDs : list Q) (ii : nat) (loMJD : Q) :
  max_diff < 0 -> hi_close max_diff loMJDs hiMJDs ii loMJD = [].
Proof.
  intros Hmd. unfold hi_close.
  assert (E : filter (fun h => Qltb (Qabs (h - loMJD)) max_diff) hiMJDs = []).
  { induction hiMJDs as [|h l IH]; cbn [filter]; [reflexivity|].
    replace (Qltb (Qabs (h - loMJD)) max_diff) with false; [exact IH|].
    symmetry. apply Qltb_false_iff. pose proof (Qabs_nonneg (h - loMJD)). lra. }
  rewrite E. destruct (0 <? ii)%nat, (ii <? List.length loMJDs - 1)%nat; reflexivity.
Qed.

Lemma pair_loop_negative (loMJDs hiMJDs : list Q) :
  max_diff < 0 ->
  forall rest st ii,
    pair_loop max_diff loMJDs hiMJDs st ii rest = Ok (fst st, snd st ++ rest).
Proof.
  intros Hmd. induction rest as [|lo rest IH]; intros [D B] ii; cbn [pair_loop fst snd].
  - now rewrite app_nil_r.
  - unfold pair_step. rewrite (hi_close_negative _ _ _ _ Hmd). cbn [List.length Nat.ltb Nat.leb bind].
    rewrite IH. cbn [fst snd]. now rewrite <- app_assoc.
Qed.

Lemma set_iter_nonempty (picks : list nat) (s : list Q) :
  s <> [] -> set_iter picks s <> [].
Proof.
  destruct picks as [|k picks]; cbn [set_iter]; [auto|].
  destruct s; [congruence | discriminate].
Qed.

Lemma insert_unique_nonempty (x : Q) (l : list Q) : insert_unique x l <> [].
Proof.
  destruct l as [|y l]; cbn; [discriminate|]. destruct (Qcompare x y); discriminate.
Qed.

Lemma low_days_nonempty (toas : list TOA) :
  (exists o, In o toas /\ freq o < divide_freq) -> low_days divide_freq toas <> [].
Proof.
  intros (o & Ho & Hf). unfold low_days, get_mjds, get_freqs.
  rewrite select_map2.
  destruct (filter (fun x => Qltb (freq x) divide_freq) toas) as [|a l] eqn:E.
  - exfalso. assert (Hin : In o (filter (fun x => Qltb (freq x) divide_freq) toas)).
    { apply filter_In. split; [exact Ho | now apply Qltb_iff]. }
    now rewrite E in Hin.
  - cbn. apply insert_unique_nonempty.
Qed.

End Negative.

(** X6: with a negative [max_diff] no low day finds a high day, and as soon
    as there is a TOA below the divide the rescue of the first orphan
    raises [IndexError], at [DMXs[ind]] on an empty list of bins. *)
Theorem legacy_negative_max_diff
    (divide_freq offset max_diff : Q) (picks : list nat) (toas : list TOA) :
  max_diff < 0 ->
  (exists o, In o toas /\ freq o < divide_freq) ->
  dmx_ranges_old divide_freq offset max_diff picks toas = Raise IndexError.
Proof.
  intros Hmd Hlow. rewrite dmx_ranges_old_unfold.
  rewrite (pair_loop_negative max_diff _ _ Hmd). cbn [bind fst snd app].
  pose proof (set_iter_nonempty picks _ (low_days_nonempty divide_freq toas Hlow)) as Hne.
  destruct (set_iter picks (low_days divide_freq toas)) as [|bad rest]; [congruence|].
  cbn [rescue_loop]. unfold rescue_step. cbn [nearest].
  replace (Qltb (2 * max_diff) max_diff) with true; [reflexivity|].
  symmetry. apply Qltb_iff. lra.
Qed.

Lemma legacy_negative_max_diff_witness :
  - (1) < 0 /\
  (exists o, In o two_band /\ freq o < 1000) /\
  dmx_ranges_old 1000 (1 # 100) (- (1)) [] two_band = Raise IndexError.
Proof.
  assert (H1 : - (1) < 0) by reflexivity.
  assert (H2 : exists o, In o two_band /\ freq o < 1000).
  { exists (mkTOA 0 500). split; [now left | reflexivity]. }
  split; [exact H1|]. split; [exact H2|].
  exact (legacy_negative_max_diff 1000 (1 # 100) (- (1)) [] two_band H1 H2).
Defined.

(** ** Nearest low day *)

Lemma insert_unique_HdRel (x y : Q) (l : list Q) :
  y < x -> HdRel Qlt y l -> HdRel Qlt y (insert_unique x l).
Proof.
  intros Hyx Hl. destruct l as [|z l]; cbn; [now constructor|].
  destruct (Qcompare x z); [exact Hl | now constructor | ].
  inversion Hl; subst. now constructor.
Qed.

Lemma insert_unique_sorted (x : Q) (l : list Q) :
  Sorted Qlt l -> Sorted Qlt (insert_unique x l).
Proof.
  induction l as [|y l IH]; intros Hs; cbn.
  - repeat constructor.
  - destruct (Qcompare x y) eqn:E.
    + exact Hs.
    + constructor; [exact Hs | constructor; now apply Qlt_alt].
    + inversion Hs as [|? ? Hl Hhd]; subst. constructor; [now apply IH|].
      apply insert_unique_HdRel; [now apply Qgt_alt | exact Hhd].
Qed.

(** [np.unique] returns its values in strictly increasing order. *)
Lemma np_unique_sorted (l : list Q) : StronglySorted Qlt (np_unique l).
Proof.
  apply Sorted_StronglySorted; [exact Qlt_trans|].
  induction l as [|x l IH]; cbn; [constructor | now apply insert_unique_sorted].
Qed.

Lemma sorted_nth_lt (l : list Q) :
  StronglySorted Qlt l ->
  forall i j x y, (i < j)%nat ->
    nth_error l i = Some x -> nth_error l j = Some y -> x < y.
Proof.
  induction 1 as [|a l Hs IH Ha]; intros i j x y Hij Hx Hy.
  - destruct i; discriminate.
  - destruct j as [|j]; [lia|]. cbn in Hy. destruct i as [|i]; cbn in Hx.
    + injection Hx as <-. rewrite Forall_forall in Ha. eapply Ha, nth_error_In, Hy.
    + apply (IH i j); [lia | assumption | assumption].
Qed.

Lemma skipn_cons_nth {A : Type} (l : list A) : forall i x r,
  skipn i l = x :: r -> nth_error l i = Some x /\ skipn (S i) l = r.
Proof.
  induction l as [|a l IH]; intros [|i] x r; cbn; try discriminate.
  - intros [= <- <-]. auto.
  - intros H. destruct (IH i x r H) as [H1 H2]. split; [exact H1|].
    destruct l; [destruct i; discriminate H | exact H2].
Qed.

Section Nearest.

Variables (max_diff : Q) (loMJDs hiMJDs : list Q).
Hypothesis lo_sorted : StronglySorted Qlt loMJDs.

(** What the three filters of the first loop leave. *)
Lemma hi_close_In (ii : nat) (lo h : Q) :
  In h (hi_close max_diff loMJDs hiMJDs ii lo) ->
  In h hiMJDs /\
  Qabs (h - lo) < max_diff /\
  ((0 < ii)%nat -> Qabs (h - lo) < Qabs (h - nth (ii - 1) loMJDs 0)) /\
  ((ii < List.length loMJDs - 1)%nat ->
   Qabs (h - lo) < Qabs (h - nth (ii + 1) loMJDs 0)).
Proof.
  unfold hi_close. intros H.
  destruct (Nat.ltb_spec ii (List.length loMJDs - 1)) as [Hn|Hn].
  - apply filter_In in H as [H Hnext]. apply Qltb_iff in Hnext.
    destruct (Nat.ltb_spec 0 ii) as [Hp|Hp].
    + apply filter_In in H as [H Hprev]. apply Qltb_iff in Hprev.
      apply filter_In in H as [H Hmd]. apply Qltb_iff in Hmd. auto.
    + apply filter_In in H as [H Hmd]. apply Qltb_iff in Hmd.
      repeat split; auto. lia.
  - destruct (Nat.ltb_spec 0 ii) as [Hp|Hp].
    + apply filter_In in H as [H Hprev]. apply Qltb_iff in Hprev.
      apply filter_In in H as [H Hmd]. apply Qltb_iff in Hmd.
      repeat split; auto. lia.
    + apply filter_In in H as [H Hmd]. apply Qltb_iff in Hmd.
      repeat split; auto; lia.
Qed.

(** A high day kept for the [ii]-th low day is strictly closer to it than
    to any other low day. *)
Lemma hi_close_nearest (ii : nat) (lo h : Q) :
  nth_error loMJDs ii = Some lo ->
  In h (hi_close max_diff loMJDs hiMJDs ii lo) ->
  Qabs (h - lo) < max_diff /\
  forall lo', In lo' loMJDs -> ~ lo' == lo -> Qabs (h - lo) < Qabs (h - lo').
Proof.
  intros Hlo Hh. apply hi_close_In in Hh as (_ & Hmd & Hprev & Hnext).
  split; [exact Hmd|]. intros lo' Hin Hne.
  apply In_nth_error in Hin as [jj Hjj].
  assert (Hii : (ii < List.length loMJDs)%nat) by (apply nth_error_Some; congruence).
  assert (Hjl : (jj < List.length loMJDs)%nat) by (apply nth_error_Some; congruence).
  destruct (Nat.lt_total jj ii) as [Hlt|[->|Hgt]].
  - specialize (Hprev ltac:(lia)).
    assert (Hp : nth_error loMJDs (ii - 1) = Some (nth (ii - 1) loMJDs 0))
      by (apply nth_error_nth'; lia).
    set (prev := nth (ii - 1) loMJDs 0) in *.
    assert (Hpl : prev < lo) by (apply (sorted_nth_lt _ lo_sorted (ii - 1) ii); auto; lia).
    assert (Hlp : lo' <= prev).
    { destruct (Nat.eq_dec jj (ii - 1)) as [->|Hd].
      - rewrite Hp in Hjj. injection Hjj as <-. apply Qle_refl.
      - apply Qlt_le_weak, (sorted_nth_lt _ lo_sorted jj (ii - 1)); auto; lia. }
    revert Hprev. qabs; lra.
  - exfalso. apply Hne. rewrite Hlo in Hjj. injection Hjj as <-. reflexivity.
  - specialize (Hnext ltac:(lia)).
    assert (Hn : nth_error loMJDs (ii + 1) = Some (nth (ii + 1) loMJDs 0))
      by (apply nth_error_nth'; lia).
    set (next := nth (ii + 1) loMJDs 0) in *.
    assert (Hln : lo < next) by (apply (sorted_nth_lt _ lo_sorted ii (ii + 1)); auto; lia).
    assert (Hnl : next <= lo').
    { destruct (Nat.eq_dec jj (ii + 1)) as [->|Hd].
      - rewrite Hn in Hjj. injection Hjj as <-. apply Qle_refl.
      - apply Qlt_le_weak, (sorted_nth_lt _ lo_sorted (ii + 1) jj); auto; lia. }
    revert Hnext. qabs; lra.
Qed.

(** The first loop makes the bin of the [jj]-th low day from that day and
    the high days kept for it, in the order of the low days. *)
Abbreviation made_at := (fun (ii : nat) (b : dmxrange) =>
  exists jj lo, (jj < ii)%nat /\ nth_error loMJDs jj = Some lo /\
    DMX.los b = [lo] /\ DMX.his b = hi_close max_diff loMJDs hiMJDs jj lo).

Abbreviation key := (fun b : dmxrange => (hd_error (DMX.los b), DMX.his b)).

Abbreviation key_lt := (fun k1 k2 : option Q * list Q =>
  exists x y, fst k1 = Some x /\ fst k2 = Some y /\ x < y).

Lemma pair_loop_made : forall rest st ii DMXs bad_los,
  rest = skipn ii loMJDs ->
  pair_loop max_diff loMJDs hiMJDs st ii rest = Ok (DMXs, bad_los) ->
  Forall (made_at ii) (fst st) ->
  StronglySorted key_lt (map key (fst st)) ->
  Forall (made_at (List.length loMJDs)) DMXs /\
  StronglySorted key_lt (map key DMXs).
Proof.
  induction rest as [|lo rest IH]; intros [D B] ii DMXs bad_los Hrest; cbn [pair_loop fst].
  - intros [= <- <-] HD Hs. split; [|exact Hs].
    eapply Forall_impl; [|exact HD]. cbn.
    intros b (jj & lo & Hjj & Hlo & H). exists jj, lo. split; [|now split].
    apply nth_error_Some. congruence.
  - symmetry in Hrest. apply skipn_cons_nth in Hrest as [Hlo Hrest]. symmetry in Hrest.
    assert (Hmono : Forall (made_at (S ii)) D -> Forall (made_at (S ii)) D) by auto.
    unfold pair_step.
    destruct (0 <? List.length (hi_close max_diff loMJDs hiMJDs ii lo))%nat.
    + destruct (DMX.init [lo] (hi_close max_diff loMJDs hiMJDs ii lo)) as [b| |] eqn:Hb;
        cbn [bind]; try discriminate.
      intros Hloop HD Hs. apply init_spec in Hb as (Hl & Hh & _).
      apply (IH _ _ _ _ Hrest Hloop); cbn [fst].
      * apply Forall_app. split.
        -- eapply Forall_impl; [|exact HD]. cbn.
           intros b0 (jj & lo0 & Hjj & H). exists jj, lo0. split; [lia | exact H].
        -- constructor; [|constructor]. exists ii, lo. auto.
      * rewrite map_app. cbn [map]. apply WindowedExtras.StronglySorted_snoc; [exact Hs|].
        apply Forall_map. eapply Forall_impl; [|exact HD]. cbn.
        intros b0 (jj & lo0 & Hjj & Hlo0 & Hl0 & _). exists lo0, lo.
        rewrite Hl0, Hl. cbn. repeat split.
        apply (sorted_nth_lt _ lo_sorted jj ii); assumption.
    + cbn [bind]. intros Hloop HD Hs. apply (IH _ _ _ _ Hrest Hloop); cbn [fst]; [|exact Hs].
      eapply Forall_impl; [|exact HD]. cbn.
      intros b0 (jj & lo0 & Hjj & H). exists jj, lo0. split; [lia | exact H].
Qed.

Lemma set_item_map {A B : Type} (f : A -> B) (l : list A) : forall ind x a,
  nth_error l ind = Some x -> f a = f x -> map f (set_item l ind a) = map f l.
Proof.
  induction l as [|y l IH]; intros [|ind] x a; cbn; try discriminate.
  - intros [= ->] ->. reflexivity.
  - intros Hx Ha. now rewrite (IH ind x a Hx Ha).
Qed.

(** The rescue changes neither the first low day nor the high days of a
    bin. *)
Lemma rescue_loop_keys : forall bad_los DMXs out,
  rescue_loop max_diff DMXs bad_los = Ok out ->
  Forall (fun b => DMX.los b <> []) DMXs ->
  map key out = map key DMXs.
Proof.
  induction bad_los as [|bad_lo rest IH]; intros DMXs out; cbn [rescue_loop].
  - intros [= <-]. reflexivity.
  - unfold rescue_step.
    destruct (nearest max_diff bad_lo (2 * max_diff, 0%nat) 0 DMXs) as [a ind].
    destruct (Qltb a max_diff); cbn [bind]; [|apply IH].
    destruct (nth_error DMXs ind) as [DMX|] eqn:Hnth; cbn [bind]; try discriminate.
    destruct (absorb DMX bad_lo) as [DMX'| |] eqn:Habs; cbn [bind]; try discriminate.
    intros Hloop HD. apply absorb_spec in Habs as (Hl & Hh & _).
    assert (HDMX : DMX.los DMX <> []).
    { rewrite Forall_forall in HD. eapply HD, nth_error_In, Hnth. }
    assert (Hk : key DMX' = key DMX).
    { cbn. rewrite Hl, Hh. destruct (DMX.los DMX); [congruence | reflexivity]. }
    rewrite (IH _ _ Hloop).
    + now apply (set_item_map key DMXs ind DMX DMX').
    + apply set_item_Forall; [exact HD|]. rewrite Hl. destruct (DMX.los DMX); discriminate.
Qed.

End Nearest.

(** The invariant of the returned bins, in terms of their keys. *)
Lemma legacy_keys
    (divide_freq offset max_diff : Q) (picks : list nat) (toas : list TOA)
    (out : output) :
  dmx_ranges_old divide_freq offset max_diff picks toas = Ok out ->
  StronglySorted (fun k1 k2 : option Q * list Q =>
                    exists x y, fst k1 = Some x /\ fst k2 = Some y /\ x < y)
                 (map (fun b => (hd_error (DMX.los b), DMX.his b)) (bins out)) /\
  Forall (fun k : option Q * list Q =>
            exists lo0, fst k = Some lo0 /\ In lo0 (low_days divide_freq toas) /\
              forall h, In h (snd k) ->
                In h (high_days divide_freq toas) /\
                Qabs (h - lo0) < max_diff /\
                forall lo', In lo' (low_days divide_freq toas) -> ~ lo' == lo0 ->
                            Qabs (h - lo0) < Qabs (h - lo'))
         (map (fun b => (hd_error (DMX.los b), DMX.his b)) (bins out)).
Proof.
  rewrite dmx_ranges_old_unfold.
  destruct (pair_loop _ _ _ _ _ _) as [[D B]| |] eqn:Hpair; cbn [bind]; try discriminate.
  destruct (rescue_loop _ _ _) as [D'| |] eqn:Hres; cbn [bind]; try discriminate.
  intros [= <-]. cbn [bins fst snd] in *.
  pose proof (np_unique_sorted
    (map round1 (select (get_mjds toas)
       (map (fun f => Qltb f divide_freq) (get_freqs toas))))) as Hsorted.
  fold (low_days divide_freq toas) in Hsorted.
  destruct (pair_loop_made max_diff (low_days divide_freq toas) (high_days divide_freq toas)
              Hsorted (low_days divide_freq toas) ([], []) O D B eq_refl Hpair)
    as [Hmade Hs]; [constructor | constructor |].
  assert (Hne : Forall (fun b => DMX.los b <> []) D).
  { eapply Forall_impl; [|exact Hmade]. cbn. intros b (jj & lo & _ & _ & Hl & _).
    rewrite Hl. discriminate. }
  rewrite (rescue_loop_keys max_diff _ _ _ Hres Hne). split; [exact Hs|].
  apply Forall_map. eapply Forall_impl; [|exact Hmade]. cbn.
  intros b (jj & lo & _ & Hlo & Hl & Hh). exists lo. rewrite Hl, Hh. cbn.
  split; [reflexivity|]. split; [eapply nth_error_In, Hlo|].
  intros h Hin. split; [eapply hi_close_incl, Hin|].
  exact (hi_close_nearest max_diff _ _ Hsorted jj lo h Hlo Hin).
Qed.

(** X7: in every bin returned by [dmx_ranges_old] the first low day is a
    low-band day of the TOAs, and every high day of the bin is a high-band
    day that is less than [max_diff] away from that low day and strictly
    closer to it than to any other low-band day. *)
Theorem legacy_high_days_nearest
    (divide_freq offset max_diff : Q) (picks : list nat) (toas : list TOA)
    (out : output) :
  dmx_ranges_old divide_freq offset max_diff picks toas = Ok out ->
  forall b, In b (bins out) ->
    exists lo0 rest,
      DMX.los b = lo0 :: rest /\ In lo0 (low_days divide_freq toas) /\
      forall h, In h (DMX.his b) ->
        In h (high_days divide_freq toas) /\
        Qabs (h - lo0) < max_diff /\
        forall lo', In lo' (low_days divide_freq toas) -> ~ lo' == lo0 ->
                    Qabs (h - lo0) < Qabs (h - lo').
Proof.
  intros Hout b Hb. destruct (legacy_keys _ _ _ _ _ _ Hout) as [_ HP].
  rewrite Forall_forall in HP.
  destruct (HP _ (in_map (fun b => (hd_error (DMX.los b), DMX.his b)) _ _ Hb))
    as (lo0 & Hhd & Hin & Hh).
  cbn [fst snd] in *. destruct (DMX.los b) as [|x rest] eqn:El; [discriminate|].
  injection Hhd as ->. exists lo0, rest. auto.
Qed.

Lemma legacy_high_days_nearest_witness :
  dmx_ranges_old 1000 (1 # 100) 15 [] orphan =
    Ok (mkOutput [true; true; true]
          [DMX.mk [0 / 10; 50 / 10] [10 / 10] (0 / 10) (50 / 10)]) /\
  exists lo0 rest, [0 / 10; 50 / 10] = lo0 :: rest /\ In lo0 (low_days 1000 orphan).
Proof.
  assert (H : dmx_ranges_old 1000 (1 # 100) 15 [] orphan =
              Ok (mkOutput [true; true; true]
                    [DMX.mk [0 / 10; 50 / 10] [10 / 10] (0 / 10) (50 / 10)]))
    by (vm_compute; reflexivity).
  split; [exact H|].
  destruct (legacy_high_days_nearest 1000 (1 # 100) 15 [] orphan _ H
              (DMX.mk [0 / 10; 50 / 10] [10 / 10] (0 / 10) (50 / 10)) (or_introl eq_refl))
    as (lo0 & rest & Hl & Hin & _).
  exists lo0, rest. split; [exact Hl | exact Hin].
Defined.

Lemma StronglySorted_map_inv {A B : Type} (f : A -> B) (R : B -> B -> Prop) (l : list A) :
  StronglySorted R (map f l) -> StronglySorted (fun a b => R (f a) (f b)) l.
Proof.
  induction l as [|a l IH]; cbn; intros H; [constructor|].
  inversion H as [|? ? Hs Ha]; subst. constructor; [now apply IH|].
  rewrite Forall_map in Ha. exact Ha.
Qed.

Lemma StronglySorted_strengthen {A : Type} (P : A -> Prop) (R R' : A -> A -> Prop)
    (l : list A) :
  (forall a b, P a -> P b -> R a b -> R' a b) ->
  Forall P l -> StronglySorted R l -> StronglySorted R' l.
Proof.
  intros HR HP Hs. induction Hs as [|a l Hs IH Ha]; [constructor|].
  inversion HP as [|? ? Pa Pl]; subst. constructor; [now apply IH|].
  rewrite Forall_forall in *. intros b Hb. apply HR; auto.
Qed.

(** X8: the bins of [dmx_ranges_old] come in strictly ascending order of
    their first low day, and no high-band day belongs to two bins. *)
Theorem legacy_bins_ascending_disjoint
    (divide_freq offset max_diff : Q) (picks : list nat) (toas : list TOA)
    (out : output) :
  dmx_ranges_old divide_freq offset max_diff picks toas = Ok out ->
  StronglySorted
    (fun b1 b2 =>
       (exists x y, hd_error (DMX.los b1) = Some x /\
                    hd_error (DMX.los b2) = Some y /\ x < y) /\
       (forall h1 h2, In h1 (DMX.his b1) -> In h2 (DMX.his b2) -> ~ h1 == h2))
    (bins out).
Proof.
  intros Hout. destruct (legacy_keys _ _ _ _ _ _ Hout) as [Hs HP].
  apply StronglySorted_map_inv in Hs. rewrite Forall_map in HP.
  refine (StronglySorted_strengthen _ _ _ _ _ HP Hs). cbn [fst snd].
  intros b1 b2 (lo1 & E1 & In1 & H1) (lo2 & E2 & In2 & H2) (x & y & Ex & Ey & Hlt).
  split; [exists x, y; auto|].
  rewrite E1 in Ex. rewrite E2 in Ey. injection Ex as <-. injection Ey as <-.
  intros h1 h2 Hh1 Hh2 Heq.
  destruct (H1 h1 Hh1) as (_ & _ & N1). destruct (H2 h2 Hh2) as (_ & _ & N2).
  assert (A1 : Qabs (h1 - lo1) < Qabs (h1 - lo2)).
  { apply N1; [exact In2|]. intros E. rewrite E in Hlt. now apply Qlt_irrefl in Hlt. }
  assert (A2 : Qabs (h2 - lo2) < Qabs (h2 - lo1)).
  { apply N2; [exact In1|]. intros E. rewrite E in Hlt. now apply Qlt_irrefl in Hlt. }
  rewrite <- Heq in A2. apply (Qlt_irrefl (Qabs (h1 - lo1))).
  eapply Qlt_trans; eassumption.
Qed.

Lemma legacy_bins_ascending_disjoint_witness :
  exists out,
    dmx_ranges_old 1000 (1 # 100) 15 [] Scenarios.two_sessions = Ok out /\
    List.length (bins out) = 2%nat /\
    StronglySorted
      (fun b1 b2 =>
         (exists x y, hd_error (DMX.los b1) = Some x /\
                      hd_error (DMX.los b2) = Some y /\ x < y) /\
         (forall h1 h2, In h1 (DMX.his b1) -> In h2 (DMX.his b2) -> ~ h1 == h2))
      (bins out).
Proof.
  eexists. split; [vm_compute; reflexivity|]. split; [reflexivity|].
  apply (legacy_bins_ascending_disjoint 1000 (1 # 100) 15 [] Scenarios.two_sessions).
  vm_compute; reflexivity.
Defined.

End LegacyExtras.


(* ================================================================== *)
(** * Further properties of [dmxparse] *)
(* ================================================================== *)

Module ParseExtras.
Import Parse ParseFacts Fixtures.

(** ** [np.where] and [np.insert] *)

Lemma where_from_spec (mask : list bool) : forall i,
  StronglySorted lt (where_from i mask) /\
  Forall (fun p => (i <= p < i + List.length mask)%nat) (where_from i mask) /\
  List.length (where_from i mask) = count_true mask.
Proof.
  induction mask as [|b mask IH]; intros i; cbn [where_from].
  - repeat split; constructor.
  - destruct (IH (S i)) as (Hs & Hb & Hl).
    assert (Hb' : Forall (fun p => (i <= p < i + List.length (b :: mask))%nat)
                         (where_from (S i) mask)).
    { eapply Forall_impl; [|exact Hb]. cbn. intros; lia. }
    destruct b; unfold count_true in *; cbn [filter List.length].
    + split; [|split].
      * constructor; [exact Hs|]. eapply Forall_impl; [|exact Hb]. cbn. intros; lia.
      * constructor; [cbn; lia | exact Hb'].
      * now rewrite Hl.
    + auto.
Qed.

Lemma count_true_le (mask : list bool) : (count_true mask <= List.length mask)%nat.
Proof. unfold count_true. apply filter_length_le. Qed.

Lemma sorted_window_length (ix : list nat) : forall a n,
  StronglySorted lt ix -> Forall (fun i => (a <= i < a + n)%nat) ix ->
  (List.length ix <= n)%nat.
Proof.
  induction ix as [|x ix IH]; intros a n Hs Hb; cbn [List.length]; [lia|].
  inversion Hs as [|? ? Hs' Hx]; subst. inversion Hb as [|? ? Hxa Hb']; subst.
  assert (H : (List.length ix <= a + n - S x)%nat).
  { apply (IH (S x)); [exact Hs'|]. rewrite Forall_forall in *.
    intros i Hi. specialize (Hx i Hi). specialize (Hb' i Hi). lia. }
  lia.
Qed.

(** The scatter of [np.insert] fills every position when the indices are
    distinct and inside the result. *)
Lemma scatter_length {A : Type} (all : list nat) (v : A) : forall size pos ix arr,
  StronglySorted lt ix ->
  Forall (fun i => (pos <= i < pos + size)%nat) ix ->
  (forall p, (pos <= p)%nat -> existsb (Nat.eqb p) all = true <-> In p ix) ->
  (List.length arr + List.length ix = size)%nat ->
  List.length (scatter pos size all arr v) = size.
Proof.
  induction size as [|size IH]; intros pos ix arr Hs Hb Hall Hlen; [reflexivity|].
  cbn [scatter]. destruct (existsb (Nat.eqb pos) all) eqn:E.
  - apply (Hall pos (Nat.le_refl _)) in E.
    destruct ix as [|x ix]; [destruct E|].
    inversion Hs as [|? ? Hs' Hx]; subst. inversion Hb as [|? ? Hxa Hb']; subst.
    assert (x = pos).
    { destruct E as [E|E]; [exact E|]. rewrite Forall_forall in Hx.
      specialize (Hx pos E). lia. }
    subst x. cbn [List.length]. f_equal.
    apply (IH (S pos) ix arr); [exact Hs'| | |cbn [List.length] in Hlen; lia].
    + rewrite Forall_forall in *. intros i Hi. specialize (Hx i Hi).
      specialize (Hb' i Hi). lia.
    + intros p Hp. rewrite (Hall p ltac:(lia)). cbn [In]. split; [|auto].
      intros [->|H]; [lia | exact H].
  - assert (Hnot : ~ In pos ix).
    { intros H. apply (Hall pos (Nat.le_refl _)) in H. congruence. }
    assert (Hb' : Forall (fun i => (S pos <= i < S pos + size)%nat) ix).
    { rewrite Forall_forall in *. intros i Hi. specialize (Hb i Hi).
      assert (i <> pos) by (intros ->; auto). lia. }
    pose proof (sorted_window_length ix (S pos) size Hs Hb') as Hle.
    destruct arr as [|a arr]; cbn [List.length] in *; [lia|]. f_equal.
    apply (IH (S pos) ix arr); [exact Hs | exact Hb' | | lia].
    intros p Hp. apply Hall. lia.
Qed.

Lemma shifted_sorted (obj : list nat) : forall k,
  StronglySorted lt obj ->
  StronglySorted lt (map (fun '(i, j) => (i + j)%nat)
                         (combine obj (seq k (List.length obj)))) /\
  Forall (fun p => exists i, In i obj /\ (i + k <= p)%nat)
         (map (fun '(i, j) => (i + j)%nat) (combine obj (seq k (List.length obj)))).
Proof.
  induction obj as [|x obj IH]; intros k Hs; cbn; [split; constructor|].
  inversion Hs as [|? ? Hs' Hx]; subst. destruct (IH (S k) Hs') as [IHs IHb].
  split.
  - constructor; [exact IHs|]. rewrite Forall_forall in *.
    intros p Hp. destruct (IHb p Hp) as (i & Hi & Hle). specialize (Hx i Hi). lia.
  - constructor; [exists x; split; [now left | lia]|].
    eapply Forall_impl; [|exact IHb]. cbn. intros p (i & Hi & Hle).
    exists i. split; [now right | lia].
Qed.

(** [np.insert] with the indices of [np.where] either raises [IndexError]
    or returns one more entry per index. *)
Lemma np_insert_length {A : Type} (arr : list A) (obj : list nat) (v : A) (r : list A) :
  StronglySorted lt obj ->
  np_insert arr obj v = Ok r ->
  List.length r = (List.length arr + List.length obj)%nat.
Proof.
  intros Hs. unfold np_insert.
  set (ix := map (fun '(i, k) => (i + k)%nat) (combine obj (seq 0 (List.length obj)))).
  assert (Hmulti :
    (if forallb (fun i => (i <? List.length arr + List.length obj)%nat) ix
     then Ok (scatter 0 (List.length arr + List.length obj) ix arr v)
     else Raise IndexError) = Ok r ->
    List.length r = (List.length arr + List.length obj)%nat).
  { destruct (forallb _ ix) eqn:Hf; [|discriminate]. intros [= <-].
    apply (scatter_length ix v _ 0 ix arr).
    - apply (shifted_sorted obj 0 Hs).
    - rewrite forallb_forall in Hf. apply Forall_forall. intros i Hi.
      specialize (Hf i Hi). apply Nat.ltb_lt in Hf. lia.
    - intros p _. rewrite existsb_exists. split.
      + intros (x & Hx & E). apply Nat.eqb_eq in E. now subst.
      + intros H. exists p. split; [exact H | apply Nat.eqb_refl].
    - unfold ix. rewrite length_map, length_combine, length_seq. lia. }
  destruct obj as [|index [|i2 obj]]; [exact Hmulti | | exact Hmulti].
  destruct (Nat.ltb_spec (List.length arr) index); [discriminate|].
  intros [= <-]. rewrite length_app. cbn [List.length].
  rewrite length_firstn, length_skipn. lia.
Qed.

Lemma np_insert_raises {A : Type} (arr : list A) (obj : list nat) (v : A) (e : exn) :
  np_insert arr obj v = Raise e -> e = IndexError.
Proof.
  unfold np_insert. destruct obj as [|index [|i2 obj]].
  - destruct (forallb _ _); [discriminate | now intros [= <-]].
  - destruct (_ <? _)%nat; [now intros [= <-] | discriminate].
  - destruct (forallb _ _); [discriminate | now intros [= <-]].
Qed.

Lemma np_insert_fuel {A : Type} (arr : list A) (obj : list nat) (v : A) :
  np_insert arr obj v <> OutOfFuel.
Proof.
  unfold np_insert. destruct obj as [|index [|i2 obj]];
    [destruct (forallb _ _) | destruct (_ <? _)%nat | destruct (forallb _ _)];
    discriminate.
Qed.

(** ** What [dmxparse] raises *)

Lemma mapM_raises {A B : Type} (f : A -> result B) (l : list A) (e : exn) :
  mapM f l = Raise e -> exists x, In x l /\ f x = Raise e.
Proof.
  induction l as [|x l IH]; cbn [mapM]; [discriminate|].
  destruct (f x) as [y| |] eqn:Hx; cbn [bind].
  - destruct (mapM f l) as [ys| |]; cbn [bind]; try discriminate.
    intros [= <-]. destruct (IH eq_refl) as (z & Hz & Hfz). exists z. split; [now right | exact Hfz].
  - intros [= <-]. exists x. split; [now left | exact Hx].
  - discriminate.
Qed.

Lemma mapM_all_ok {A B : Type} (f : A -> result B) (l : list A) :
  (forall x, In x l -> exists y, f x = Ok y) -> exists r, mapM f l = Ok r.
Proof.
  induction l as [|x l IH]; intros H; cbn [mapM]; [eexists; reflexivity|].
  destruct (H x (or_introl eq_refl)) as [y ->]. cbn [bind].
  destruct IH as [r ->]; [intros z Hz; apply H; now right|].
  eexists; reflexivity.
Qed.

(** One epoch is read unless one of its three parameters is missing, in
    which case [getattr] raises [AttributeError]. *)
Lemma read_epoch_cases (f : Fitter) (ii : string) :
  (exists r, read_epoch f ii = Ok r /\
             getattr f ("DMX_" ++ ii)%string <> None /\
             getattr f ("DMXR1_" ++ ii)%string <> None /\
             getattr f ("DMXR2_" ++ ii)%string <> None) \/
  (read_epoch f ii = Raise AttributeError /\
   (getattr f ("DMX_" ++ ii)%string = None \/
    getattr f ("DMXR1_" ++ ii)%string = None \/
    getattr f ("DMXR2_" ++ ii)%string = None)).
Proof.
  unfold read_epoch, get.
  destruct (getattr f ("DMX_" ++ ii)%string); cbn [bind]; [|right; auto].
  destruct (getattr f ("DMXR1_" ++ ii)%string); cbn [bind]; [|right; auto].
  destruct (getattr f ("DMXR2_" ++ ii)%string); cbn [bind]; [|right; auto].
  left. eexists. repeat split; discriminate.
Qed.

Lemma mapM_read_epoch (f : Fitter) (l : list string) :
  (exists rows, mapM (read_epoch f) l = Ok rows /\
     forall ii, In ii l ->
       getattr f ("DMX_" ++ ii)%string <> None /\
       getattr f ("DMXR1_" ++ ii)%string <> None /\
       getattr f ("DMXR2_" ++ ii)%string <> None) \/
  (mapM (read_epoch f) l = Raise AttributeError /\
   exists ii, In ii l /\
     (getattr f ("DMX_" ++ ii)%string = None \/
      getattr f ("DMXR1_" ++ ii)%string = None \/
      getattr f ("DMXR2_" ++ ii)%string = None)).
Proof.
  induction l as [|ii l IH]; cbn [mapM].
  - left. eexists. split; [reflexivity | intros ? []].
  - destruct (read_epoch_cases f ii) as [(r & -> & Hr)|[-> Hmiss]]; cbn [bind].
    + destruct IH as [(rows & -> & Hrows)|[-> (jj & Hjj & Hmiss)]]; cbn [bind].
      * left. eexists. split; [reflexivity|]. intros x [<-|Hx]; auto.
      * right. split; [reflexivity|]. exists jj. split; [now right | exact Hmiss].
    + right. split; [reflexivity|]. exists ii. split; [now left | exact Hmiss].
Qed.

Section Errors.

Variable np_sqrt : Q -> Q.

Lemma fit_errors_cases (n : nat) (C : ndarray) :
  (exists r, fit_errors np_sqrt n C = Ok r /\ List.length (snd r) = n) \/
  fit_errors np_sqrt n C = Raise ValueError.
Proof.
  unfold fit_errors, corrected_covariance, np_dot.
  cbn [demean_matrix nrows ncols].
  destruct (n =? nrows C)%nat; cbn [bind nrows ncols]; [|now right].
  destruct (ncols C =? n)%nat; cbn [bind]; [|now right].
  left. eexists. split; [reflexivity|]. cbn [snd]. now rewrite length_map, length_seq.
Qed.

(** The covariance branch returns one uncertainty per bin, or raises
    [ValueError] (the shapes) or [IndexError] (the insertion). *)
Lemma covariance_branch_cases (C : ndarray) (mask_idxs : list bool) :
  (exists r, covariance_branch np_sqrt C mask_idxs = Ok r /\
             List.length (snd r) = List.length mask_idxs) \/
  covariance_branch np_sqrt C mask_idxs = Raise ValueError \/
  covariance_branch np_sqrt C mask_idxs = Raise IndexError.
Proof.
  unfold covariance_branch.
  destruct (fit_errors_cases (List.length mask_idxs - count_true mask_idxs) C)
    as [([e v] & -> & Hv)| ->]; cbn [bind snd] in *; [|auto].
  destruct (existsb (fun b => b) mask_idxs) eqn:Hex.
  - destruct (np_insert v (np_where mask_idxs) None) as [v'| |] eqn:Hins; cbn [bind].
    + left. eexists. split; [reflexivity|]. cbn [snd].
      destruct (where_from_spec mask_idxs 0) as (Hs & _ & Hl).
      rewrite (np_insert_length _ _ _ _ Hs Hins), Hv. unfold np_where. rewrite Hl.
      pose proof (count_true_le mask_idxs). lia.
    + apply np_insert_raises in Hins. subst. auto.
    + now apply np_insert_fuel in Hins.
  - cbn [bind]. left. eexists. split; [reflexivity|]. cbn [snd].
    rewrite Hv, (count_true_none _ Hex). lia.
Qed.

(** After the first loop [dmxparse] returns, or raises [ValueError] or
    [IndexError] from the covariance branch; its count check never fails. *)
Lemma summarize_cases (f : Fitter) (rows : list row) :
  (exists out, summarize np_sqrt f rows = Ok out) \/
  (parameter_covariance_matrix f <> None /\
   (summarize np_sqrt f rows = Raise ValueError \/
    summarize np_sqrt f rows = Raise IndexError)).
Proof.
  unfold summarize.
  assert (Hlen : (List.length (map DMX rows) =?
                  len (if existsb (fun b => b) (map mask_idx rows)
                       then MaskedArray (map DMX_Err rows) (map mask_idx rows)
                       else Array (map Some (map DMX_Err rows))))%nat = true).
  { apply Nat.eqb_eq. destruct (existsb _ _); cbn [len]; now rewrite !length_map. }
  rewrite Hlen. cbn [negb orb].
  destruct (parameter_covariance_matrix f) as [P|].
  - destruct (covariance_branch_cases (P (requested_labels f)) (map mask_idx rows))
      as [([e v] & -> & Hv)|[ -> | -> ]]; cbn [bind fst snd len] in *.
    + left. rewrite !length_map in *. rewrite Hv, Nat.eqb_refl. cbn [negb].
      eexists; reflexivity.
    + right. split; [discriminate | auto].
    + right. split; [discriminate | auto].
  - cbn [bind]. rewrite Hlen. cbn [negb]. left. eexists; reflexivity.
Qed.

End Errors.

(** X9: [dmxparse] raises [RuntimeError] exactly when no parameter name of
    the model contains [DMX_]: the check of the numbers of entries at its
    end can never fail. *)
Theorem dmxparse_runtime_error (np_sqrt : Q -> Q) (f : Fitter) :
  dmxparse np_sqrt f = Raise RuntimeError <->
  filter (contains "DMX_") (params f) = [].
Proof.
  unfold dmxparse, dmx_epochs.
  destruct (filter (contains "DMX_") (params f)) as [|p ps] eqn:E; cbn [map].
  - split; reflexivity.
  - split; [|discriminate]. rewrite <- E.
    change (last_field EmptyString p :: map (last_field EmptyString) ps) with
      (map (last_field EmptyString) (p :: ps)). rewrite <- E.
    destruct (mapM_read_epoch f (map (last_field EmptyString)
                (filter (contains "DMX_") (params f))))
      as [(rows & -> & _)|[-> _]]; cbn [bind]; [|discriminate].
    destruct (summarize_cases np_sqrt f rows) as [[out ->]|[_ [ -> | -> ]]]; discriminate.
Qed.

(** X10: [dmxparse] raises [AttributeError] exactly when, for some
    parameter whose name contains [DMX_], the model lacks one of [DMX_ii],
    [DMXR1_ii], [DMXR2_ii], where [ii] is what follows the last underscore
    of the name. *)
Theorem dmxparse_attribute_error (np_sqrt : Q -> Q) (f : Fitter) :
  dmxparse np_sqrt f = Raise AttributeError <->
  exists ii, In ii (dmx_epochs f) /\
    (getattr f ("DMX_" ++ ii)%string = None \/
     getattr f ("DMXR1_" ++ ii)%string = None \/
     getattr f ("DMXR2_" ++ ii)%string = None).
Proof.
  unfold dmxparse. destruct (dmx_epochs f) as [|e es] eqn:E.
  - split; [discriminate | intros (ii & [] & _)].
  - destruct (mapM_read_epoch f (e :: es)) as [(rows & -> & Hall)|[-> Hmiss]]; cbn [bind].
    + split.
      * destruct (summarize_cases np_sqrt f rows) as [[out ->]|[_ [ -> | -> ]]]; discriminate.
      * intros (ii & Hii & Hmiss). destruct (Hall ii Hii) as (H1 & H2 & H3).
        destruct Hmiss as [H|[H|H]]; congruence.
    + split; [intros _; exact Hmiss | reflexivity].
Qed.

(** ** The per-bin outputs *)

Lemma Forall2_nth_error {A B : Type} (R : A -> B -> Prop) (l : list A) (l' : list B) :
  Forall2 R l l' ->
  forall i x, nth_error l i = Some x -> exists y, nth_error l' i = Some y /\ R x y.
Proof.
  induction 1 as [|a b l l' Hab _ IH]; intros [|i] x; cbn; try discriminate.
  - intros [= <-]. exists b. auto.
  - apply IH.
Qed.

Lemma read_epoch_ranges (f : Fitter) (ii : string) (r : row) :
  read_epoch f ii = Ok r ->
  exists p1 p2,
    getattr f ("DMXR1_" ++ ii)%string = Some p1 /\
    getattr f ("DMXR2_" ++ ii)%string = Some p2 /\
    DMX_key r = ("DMX_" ++ ii)%string /\
    R1 r = value p1 /\ R2 r = value p2 /\
    center_MJD r = (value p1 + value p2) / 2.
Proof.
  unfold read_epoch, get.
  destruct (getattr f ("DMX_" ++ ii)%string) as [p|]; cbn [bind]; [|discriminate].
  destruct (getattr f ("DMXR1_" ++ ii)%string) as [p1|]; cbn [bind]; [|discriminate].
  destruct (getattr f ("DMXR2_" ++ ii)%string) as [p2|]; cbn [bind]; [|discriminate].
  intros [= <-]. exists p1, p2. cbn. auto 6.
Qed.

Lemma len_times_units (e : errors) : len (times_units e) = len e.
Proof. destruct e; cbn [times_units len]; [reflexivity | apply length_map]. Qed.

Lemma summarize_fields (np_sqrt : Q -> Q) (f : Fitter) (rows : list row) (out : report) :
  summarize np_sqrt f rows = Ok out ->
  dmxeps out = map center_MJD rows /\ r1s out = map R1 rows /\
  r2s out = map R2 rows /\ bins out = map DMX_key rows /\
  List.length (dmxs out) = List.length rows /\
  len (dmx_verrs out) = List.length rows.
Proof.
  unfold summarize.
  destruct (match parameter_covariance_matrix f with Some _ => _ | None => _ end)
    as [[e v]| |]; cbn [bind]; try discriminate.
  destruct (negb (_ =? _)%nat) eqn:E1; cbn [orb]; [discriminate|].
  destruct (negb (_ =? len v)%nat) eqn:E2; [discriminate|].
  intros [= <-]. cbn [dmxeps r1s r2s bins dmxs dmx_verrs].
  apply negb_false_iff, Nat.eqb_eq in E2.
  rewrite len_times_units, !length_map in *. auto 7.
Qed.

(** X11: whenever [dmxparse] returns, each of its per-bin outputs has one
    entry per parameter whose name contains [DMX_], in the order of
    [model.params]: entry [i] of [bins], [r1s], [r2s] and [dmxeps] is the
    name [DMX_ii], the values of [DMXR1_ii] and [DMXR2_ii], and their
    midpoint. *)
Theorem dmxparse_outputs_aligned (np_sqrt : Q -> Q) (f : Fitter) (out : report) :
  dmxparse np_sqrt f = Ok out ->
  let k := List.length (filter (contains "DMX_") (params f)) in
  List.length (dmxs out) = k /\ len (dmx_verrs out) = k /\
  List.length (dmxeps out) = k /\ List.length (r1s out) = k /\
  List.length (r2s out) = k /\ List.length (bins out) = k /\
  forall i ii, nth_error (dmx_epochs f) i = Some ii ->
    exists p1 p2,
      getattr f ("DMXR1_" ++ ii)%string = Some p1 /\
      getattr f ("DMXR2_" ++ ii)%string = Some p2 /\
      nth_error (bins out) i = Some ("DMX_" ++ ii)%string /\
      nth_error (r1s out) i = Some (value p1) /\
      nth_error (r2s out) i = Some (value p2) /\
      nth_error (dmxeps out) i = Some ((value p1 + value p2) / 2).
Proof.
  unfold dmxparse. destruct (dmx_epochs f) as [|e es] eqn:E; [discriminate|].
  destruct (mapM (read_epoch f) (e :: es)) as [rows| |] eqn:Hrows; cbn [bind];
    try discriminate.
  intros Hsum. apply summarize_fields in Hsum as (He & H1 & H2 & Hb & Hd & Hv).
  pose proof (mapM_length _ _ _ Hrows) as Hlen.
  assert (Hk : List.length (e :: es) = List.length (filter (contains "DMX_") (params f))).
  { rewrite <- E. unfold dmx_epochs. apply length_map. }
  cbv zeta. rewrite <- Hk, <- Hlen, He, H1, H2, Hb, Hd, Hv, !length_map.
  repeat (split; [reflexivity|]).
  intros i ii Hii. apply mapM_Forall2 in Hrows.
  destruct (Forall2_nth_error _ _ _ Hrows i ii Hii) as (r & Hr & Hread).
  apply read_epoch_ranges in Hread as (p1 & p2 & Hp1 & Hp2 & Hkey & HR1 & HR2 & Hc).
  exists p1, p2. rewrite <- Hc, <- Hkey, <- HR1, <- HR2.
  repeat split; auto; apply map_nth_error; exact Hr.
Qed.

Lemma dmxparse_outputs_aligned_witness :
  exists out,
    dmxparse (fun x => x) four_bins = Ok out /\ List.length (bins out) = 4%nat.
Proof.
  assert (H : exists out, dmxparse (fun x => x) four_bins = Ok out)
    by (eexists; vm_compute; reflexivity).
  destruct H as [out Hout]. exists out. split; [exact Hout|].
  exact (proj1 (proj2 (proj2 (proj2 (proj2 (proj2
           (dmxparse_outputs_aligned (fun x => x) four_bins out Hout))))))).
Defined.

(** ** Where the placeholders go *)

Lemma where_from_app (l1 l2 : list bool) : forall i,
  where_from i (l1 ++ l2) = where_from i l1 ++ where_from (i + List.length l1) l2.
Proof.
  induction l1 as [|b l1 IH]; intros i; cbn [app where_from List.length].
  - now rewrite Nat.add_0_r.
  - rewrite IH, <- Nat.add_succ_comm. destruct b; reflexivity.
Qed.

Lemma where_from_none (l : list bool) (i : nat) :
  existsb (fun b => b) l = false -> where_from i l = [].
Proof.
  revert i. induction l as [|b l IH]; intros i; cbn; [reflexivity|].
  destruct b; cbn; [discriminate | apply IH].
Qed.

Lemma where_from_complete (mask : list bool) : forall i j,
  nth j mask false = true -> In (i + j)%nat (where_from i mask).
Proof.
  induction mask as [|b mask IH]; intros i [|j]; cbn [nth where_from]; try discriminate.
  - intros ->. rewrite Nat.add_0_r. now left.
  - intros H. rewrite <- Nat.add_succ_comm. destruct b; [right|]; now apply IH.
Qed.

Lemma count_one_split (mask : list bool) :
  count_true mask = 1%nat ->
  exists l1 l2, mask = l1 ++ true :: l2 /\
    existsb (fun b => b) l1 = false /\ existsb (fun b => b) l2 = false.
Proof.
  unfold count_true. induction mask as [|b mask IH]; cbn [filter List.length];
    [discriminate|].
  destruct b; cbn [List.length].
  - intros [= H]. exists [], mask. split; [reflexivity|]. split; [reflexivity|].
    clear IH. induction mask as [|b mask IH]; [reflexivity|].
    cbn in *. destruct b; cbn in *; [discriminate | auto].
  - intros H. destruct (IH H) as (l1 & l2 & -> & H1 & H2).
    exists (false :: l1), l2. auto.
Qed.

Lemma select_app {A : Type} (a b : list A) (ma mb : list bool) :
  List.length a = List.length ma ->
  select (a ++ b) (ma ++ mb) = select a ma ++ select b mb.
Proof.
  revert ma. induction a as [|x a IH]; intros [|m ma]; cbn; try discriminate; auto.
  intros [= H]. rewrite (IH ma H). destruct m; reflexivity.
Qed.

(** X12: when exactly one bin is frozen and the covariance matrix is over
    the [n] other bins, [dmxparse] returns the corrected uncertainties of
    the fit bins in their order ([nan] where the corrected variance is
    negative), with one placeholder at the position of the frozen bin. *)
Theorem single_frozen_bin_placeholder (np_sqrt : Q -> Q) (f : Fitter)
    (get_label_matrix : list string -> ndarray) (rows : list row) (cc' : ndarray) :
  parameter_covariance_matrix f = Some get_label_matrix ->
  dmx_epochs f <> [] ->
  mapM (read_epoch f) (dmx_epochs f) = Ok rows ->
  count_true (map mask_idx rows) = 1%nat ->
  corrected_covariance (List.length rows - 1) (get_label_matrix (requested_labels f))
    = Ok cc' ->
  let fit := map (fun i => if Qle_bool 0 (item cc' i i)
                           then Some (np_sqrt (item cc' i i))
                           else None) (seq 0 (List.length rows - 1)) in
  exists out p,
    dmxparse np_sqrt f = Ok out /\
    nth p (map mask_idx rows) false = true /\
    dmx_verrs out = Array (firstn p fit ++ None :: skipn p fit) /\
    select (firstn p fit ++ None :: skipn p fit) (map negb (map mask_idx rows)) = fit.
Proof.
  intros Hcov Hne Hrows Hone Hcc fit.
  destruct (count_one_split _ Hone) as (l1 & l2 & Hmask & H1 & H2).
  assert (Hlen : List.length rows = S (List.length l1 + List.length l2)).
  { rewrite <- (length_map mask_idx rows), Hmask, length_app. cbn. lia. }
  assert (Hfit : List.length fit = (List.length l1 + List.length l2)%nat).
  { unfold fit. rewrite length_map, length_seq. lia. }
  assert (Hwhere : np_where (map mask_idx rows) = [List.length l1]).
  { unfold np_where. rewrite Hmask, where_from_app. cbn [where_from].
    rewrite (where_from_none l1 0 H1), (where_from_none l2 _ H2). reflexivity. }
  assert (Hex : existsb (fun b => b) (map mask_idx rows) = true).
  { rewrite Hmask, existsb_app. cbn. apply orb_true_r. }
  rewrite (dmxparse_covariance np_sqrt f get_label_matrix rows Hcov Hne Hrows).
  unfold covariance_branch, fit_errors.
  rewrite length_map, Hone, Hcc. cbn [bind]. rewrite Hex, Hwhere.
  change (map (fun i => sqrt_float np_sqrt (item cc' i i))
              (seq 0 (List.length rows - 1))) with fit.
  unfold np_insert. unfold float.
  match goal with
  | |- context [Nat.ltb ?a ?b] =>
      replace (Nat.ltb a b) with false by (symmetry; apply Nat.ltb_ge; lia)
  end.
  cbn [bind snd fst]. rewrite length_app, length_firstn. cbn [List.length].
  rewrite length_skipn, Hfit, Hlen.
  replace (S (List.length l1 + List.length l2) =?
           Nat.min (List.length l1) (List.length l1 + List.length l2)
           + S (List.length l1 + List.length l2 - List.length l1))%nat with true
    by (symmetry; apply Nat.eqb_eq; lia).
  cbn [negb]. eexists. exists (List.length l1). split; [reflexivity|]. cbn [dmx_verrs].
  split; [|split; [reflexivity|]].
  - rewrite Hmask, app_nth2, Nat.sub_diag by lia. reflexivity.
  - rewrite Hmask, map_app. cbn [map negb].
    rewrite select_app by (rewrite length_firstn, length_map; lia).
    cbn [select]. rewrite !select_all; [apply firstn_skipn | | exact H2 | | exact H1].
    + rewrite length_skipn. lia.
    + rewrite length_firstn. lia.
Qed.

Lemma single_frozen_bin_placeholder_witness :
  exists out,
    dmxparse (fun x => x) (three_bins false true false [[4; 0]; [0; 4]]) = Ok out.
Proof.
  destruct (single_frozen_bin_placeholder (fun x => x)
              (three_bins false true false [[4; 0]; [0; 4]])
              (fun _ => array_of [[4; 0]; [0; 4]])
              [ mkRow "DMX_0001" 1 false (1 # 10) 0 10 ((0 + 10) / 2);
                mkRow "DMX_0002" 2 true (2 # 10) 10 20 ((10 + 20) / 2);
                mkRow "DMX_0003" 3 false (3 # 10) 20 30 ((20 + 30) / 2) ]
              (mkArray 2 2 (fun i j =>
                 sum_upto 2 (fun k =>
                   sum_upto 2 (fun l => item (demean_matrix 2) i l
                                        * item (array_of [[4; 0]; [0; 4]]) l k)
                   * item (demean_matrix 2) k j)))
              eq_refl) as (out & p & Hout & _).
  - discriminate.
  - reflexivity.
  - reflexivity.
  - reflexivity.
  - exists out. exact Hout.
Defined.

Lemma scatter_at {A : Type} (all : list nat) (v : A) : forall size pos ix arr,
  StronglySorted lt ix ->
  Forall (fun i => (pos <= i < pos + size)%nat) ix ->
  (forall p, (pos <= p)%nat -> existsb (Nat.eqb p) all = true <-> In p ix) ->
  (List.length arr + List.length ix = size)%nat ->
  forall p, In p ix -> nth_error (scatter pos size all arr v) (p - pos) = Some v.
Proof.
  induction size as [|size IH]; intros pos ix arr Hs Hb Hall Hlen p Hp.
  - destruct ix; [destruct Hp | cbn [List.length] in Hlen; lia].
  - cbn [scatter]. destruct (existsb (Nat.eqb pos) all) eqn:E.
    + apply (Hall pos (Nat.le_refl _)) in E.
      destruct ix as [|x ix]; [destruct E|].
      inversion Hs as [|? ? Hs' Hx]; subst. inversion Hb as [|? ? Hxa Hb']; subst.
      assert (x = pos).
      { destruct E as [E|E]; [exact E|]. rewrite Forall_forall in Hx.
        specialize (Hx pos E). lia. }
      subst x. destruct Hp as [<-|Hp]; [now rewrite Nat.sub_diag|].
      assert (Hgt : (pos < p)%nat) by (rewrite Forall_forall in Hx; auto).
      replace (p - pos)%nat with (S (p - S pos)) by lia. cbn [nth_error].
      apply (IH (S pos) ix arr); [exact Hs'| | |cbn [List.length] in Hlen; lia|exact Hp].
      * rewrite Forall_forall in *. intros i Hi. specialize (Hx i Hi).
        specialize (Hb' i Hi). lia.
      * intros q Hq. rewrite (Hall q ltac:(lia)). cbn [In]. split; [|auto].
        intros [->|H]; [lia | exact H].
    + assert (Hnot : ~ In pos ix).
      { intros H. apply (Hall pos (Nat.le_refl _)) in H. congruence. }
      assert (Hb' : Forall (fun i => (S pos <= i < S pos + size)%nat) ix).
      { rewrite Forall_forall in *. intros i Hi. specialize (Hb i Hi).
        assert (i <> pos) by (intros ->; auto). lia. }
      pose proof (sorted_window_length ix (S pos) size Hs Hb') as Hle.
      destruct arr as [|a arr]; cbn [List.length] in *; [lia|].
      assert (Hgt : (pos < p)%nat).
      { rewrite Forall_forall in Hb'. specialize (Hb' p Hp). lia. }
      replace (p - pos)%nat with (S (p - S pos)) by lia. cbn [nth_error].
      apply (IH (S pos) ix arr); [exact Hs | exact Hb' | | lia | exact Hp].
      intros q Hq. apply Hall. lia.
Qed.

Lemma shifted_In (obj : list nat) : forall s k p,
  nth_error obj k = Some p ->
  In (p + (s + k))%nat
     (map (fun '(i, j) => (i + j)%nat) (combine obj (seq s (List.length obj)))).
Proof.
  induction obj as [|x obj IH]; intros s [|k] p; cbn; try discriminate.
  - intros [= <-]. left. lia.
  - intros H. right. replace (s + S k)%nat with (S s + k)%nat by lia. now apply IH.
Qed.

Lemma sorted_nat_nth_le (l : list nat) :
  StronglySorted lt l ->
  forall i j x y, (i <= j)%nat ->
    nth_error l i = Some x -> nth_error l j = Some y -> (x <= y)%nat.
Proof.
  induction 1 as [|a l Hs IH Ha]; intros i j x y Hij Hx Hy.
  - destruct i; discriminate.
  - destruct i as [|i], j as [|j]; cbn in Hx, Hy; try lia.
    + injection Hx as <-. injection Hy as <-. lia.
    + injection Hx as <-. rewrite Forall_forall in Ha.
      apply Nat.lt_le_incl. eapply Ha, nth_error_In, Hy.
    + apply (IH i j); [lia | assumption | assumption].
Qed.

Lemma np_insert_multi {A : Type} (arr : list A) (obj : list nat) (v : A) :
  (2 <= List.length obj)%nat ->
  np_insert arr obj v =
  let ix := map (fun '(i, k) => (i + k)%nat) (combine obj (seq 0 (List.length obj))) in
  if forallb (fun i => (i <? List.length arr + List.length obj)%nat) ix
  then Ok (scatter 0 (List.length arr + List.length obj) ix arr v)
  else Raise IndexError.
Proof.
  destruct obj as [|a [|b l]]; cbn [List.length]; intros H; try lia. reflexivity.
Qed.

(** [np.insert] with two or more indices of [np.where] puts its last value
    after the last index, where the mask is not set. *)
Lemma np_insert_misplaces {A : Type} (arr : list A) (mask : list bool) (v : A)
    (r : list A) :
  (2 <= count_true mask)%nat ->
  np_insert arr (np_where mask) v = Ok r ->
  exists i, (i < List.length arr + count_true mask)%nat /\
            nth i mask false = false /\ nth_error r i = Some v.
Proof.
  intros Htwo. destruct (where_from_spec mask 0) as (Hs & Hb & Hl).
  fold (np_where mask) in Hs, Hb, Hl. rewrite <- Hl in *.
  set (obj := np_where mask) in *. rewrite (np_insert_multi arr obj v Htwo). cbv zeta.
  set (ix := map (fun '(i, k) => (i + k)%nat) (combine obj (seq 0 (List.length obj)))).
  destruct (forallb _ ix) eqn:Hf; [|discriminate]. intros [= <-].
  rewrite forallb_forall in Hf.
  destruct (nth_error obj (List.length obj - 1)) as [pl|] eqn:Hpl;
    [|apply nth_error_None in Hpl; lia].
  assert (Hin : In (pl + (List.length obj - 1))%nat ix).
  { apply (shifted_In obj 0 (List.length obj - 1) pl Hpl). }
  exists (pl + (List.length obj - 1))%nat. split; [|split].
  - specialize (Hf _ Hin). now apply Nat.ltb_lt in Hf.
  - destruct (nth (pl + (List.length obj - 1)) mask false) eqn:Hm; [|reflexivity].
    exfalso. apply (where_from_complete mask 0) in Hm. cbn [Nat.add] in Hm.
    fold (np_where mask) in Hm. fold obj in Hm.
    apply In_nth_error in Hm as [j Hj].
    assert (Hjl : (j < List.length obj)%nat) by (apply nth_error_Some; congruence).
    pose proof (sorted_nat_nth_le obj Hs j (List.length obj - 1) _ _ ltac:(lia) Hj Hpl).
    lia.
  - rewrite <- (Nat.sub_0_r (pl + (List.length obj - 1))).
    apply (scatter_at ix v _ 0 ix arr); [| | | |exact Hin].
    + apply (shifted_sorted obj 0 Hs).
    + apply Forall_forall. intros i Hi. specialize (Hf i Hi).
      apply Nat.ltb_lt in Hf. lia.
    + intros p _. rewrite existsb_exists. split.
      * intros (x & Hx & E). apply Nat.eqb_eq in E. now subst.
      * intros H. exists p. split; [exact H | apply Nat.eqb_refl].
    + unfold ix. rewrite length_map, length_combine, length_seq. lia.
Qed.

(** X13: when two or more bins are frozen and [dmxparse] returns with a
    covariance matrix, its uncertainties carry a placeholder at the place
    of a bin that was fit: [np.insert] counts the indices of [np.where] in
    the array of the fit bins, before the insertion. *)
Theorem frozen_bins_shift_placeholders (np_sqrt : Q -> Q) (f : Fitter)
    (get_label_matrix : list string -> ndarray) (rows : list row) (out : report) :
  parameter_covariance_matrix f = Some get_label_matrix ->
  dmx_epochs f <> [] ->
  mapM (read_epoch f) (dmx_epochs f) = Ok rows ->
  (2 <= count_true (map mask_idx rows))%nat ->
  dmxparse np_sqrt f = Ok out ->
  exists i r v,
    nth_error rows i = Some r /\ mask_idx r = false /\
    dmx_verrs out = Array v /\ nth_error v i = Some None.
Proof.
  intros Hcov Hne Hrows Htwo.
  rewrite (dmxparse_covariance np_sqrt f get_label_matrix rows Hcov Hne Hrows).
  unfold covariance_branch.
  destruct (fit_errors_cases np_sqrt
              (List.length (map mask_idx rows) - count_true (map mask_idx rows))
              (get_label_matrix (requested_labels f)))
    as [([e fit] & -> & Hfit)| ->]; cbn [bind snd] in *; [|discriminate].
  assert (Hex : existsb (fun b => b) (map mask_idx rows) = true).
  { destruct (existsb (fun b => b) (map mask_idx rows)) eqn:E; [reflexivity|].
    apply count_true_none in E. lia. }
  rewrite Hex.
  destruct (np_insert fit (np_where (map mask_idx rows)) None) as [v| |] eqn:Hins;
    cbn [bind fst snd]; try discriminate.
  destruct (negb _); [discriminate|]. intros [= <-]. cbn [dmx_verrs].
  destruct (np_insert_misplaces fit (map mask_idx rows) None v Htwo Hins)
    as (i & Hi & Hm & Hv).
  assert (Hir : (i < List.length rows)%nat).
  { rewrite Hfit, length_map in Hi. pose proof (count_true_le (map mask_idx rows)) as Hc.
    rewrite length_map in Hc. lia. }
  destruct (nth_error rows i) as [r|] eqn:Hr; [|apply nth_error_None in Hr; lia].
  exists i, r, v. split; [exact Hr|]. split; [|auto].
  rewrite (nth_indep _ false (mask_idx r)) in Hm by (rewrite length_map; lia).
  rewrite (map_nth mask_idx) in Hm. now rewrite (nth_error_nth _ _ _ Hr) in Hm.
Qed.

Lemma frozen_bins_shift_placeholders_witness :
  exists out v,
    dmxparse (fun x => x) (three_bins true true false [[4]]) = Ok out /\
    dmx_verrs out = Array v.
Proof.
  assert (H : exists out, dmxparse (fun x => x) (three_bins true true false [[4]]) = Ok out)
    by (eexists; vm_compute; reflexivity).
  destruct H as [out Hout].
  destruct (frozen_bins_shift_placeholders (fun x => x)
              (three_bins true true false [[4]]) (fun _ => array_of [[4]])
              [ mkRow "DMX_0001" 1 true (1 # 10) 0 10 ((0 + 10) / 2);
                mkRow "DMX_0002" 2 true (2 # 10) 10 20 ((10 + 20) / 2);
                mkRow "DMX_0003" 3 false (3 # 10) 20 30 ((20 + 30) / 2) ]
              out eq_refl) as (i & r & v & _ & _ & Hv & _).
  - discriminate.
  - reflexivity.
  - cbn. lia.
  - exact Hout.
  - exists out, v. split; [exact Hout | exact Hv].
Defined.

End ParseExtras.


(* ================================================================== *)
(** * Properties of the numerical helpers *)
(* ================================================================== *)

Module NumericExtras.
Import Parse ParseFacts Numeric.

Lemma of_nat_mult (n m : nat) : of_nat (n * m) == of_nat n * of_nat m.
Proof.
  unfold of_nat. rewrite Nat2Z.inj_mul, inject_Z_mult. reflexivity.
Qed.

Lemma Qfact_succ (n : nat) : Qfact (S n) == of_nat (S n) * Qfact n.
Proof. unfold Qfact. cbn [fact]. apply (of_nat_mult (S n) (fact n)). Qed.

Lemma Qfact_nonzero (n : nat) : ~ Qfact n == 0.
Proof. apply of_nat_nonzero. apply Nat.neq_0_lt_0, fact_neq_0. Qed.

Lemma sum_upto_shift (n : nat) (f : nat -> Q) :
  sum_upto (S n) f == f O + sum_upto n (fun k => f (S k)).
Proof.
  induction n as [|n IH]; cbn [sum_upto]; [ring|].
  cbn [sum_upto] in IH. rewrite IH. ring.
Qed.

(** The loop of [taylor_horner_deriv], from the last coefficient down. *)
Lemma horner_fold (x : Q) (l : list Q) : forall m,
  exists h,
    fold_right (fun c st => horner_step x st c) (0, of_nat (m + List.length l)) l
      = (h, (fold_right (fun _ q => q - 1) (of_nat (m + List.length l)) l)) /\
    fold_right (fun _ q => q - 1) (of_nat (m + List.length l)) l == of_nat m /\
    h == sum_upto (List.length l)
           (fun k => nth k l 0 * Qpow x k * (Qfact m / Qfact (m + k))).
Proof.
  induction l as [|c l IH]; intros m; cbn [fold_right List.length].
  - exists 0. rewrite Nat.add_0_r. repeat split; reflexivity.
  - destruct (IH (S m)) as (h & Hfold & Hfact & Hh).
    replace (m + S (List.length l))%nat with (S m + List.length l)%nat by lia.
    rewrite Hfold. cbn [horner_step].
    eexists. split; [reflexivity|]. split.
    + rewrite Hfact, of_nat_succ. ring.
    + rewrite Hfact, Hh, sum_upto_shift. cbn [nth Qpow]. rewrite Nat.add_0_r.
      assert (Hm : ~ of_nat (S m) == 0) by (apply of_nat_nonzero; lia).
      assert (E0 : c * 1 * (Qfact m / Qfact m) == c)
        by (field; apply Qfact_nonzero).
      rewrite E0.
      set (S1 := sum_upto (List.length l)
                   (fun k => nth k l 0 * Qpow x k * (Qfact (S m) / Qfact (S m + k)))).
      assert (E1 : S1 * x / of_nat (S m) ==
                   sum_upto (List.length l)
                     (fun k => nth k l 0 * (x * Qpow x k)
                               * (Qfact m / Qfact (m + S k)))).
      { setoid_replace (S1 * x / of_nat (S m)) with (S1 * (x / of_nat (S m)))
          by (field; exact Hm).
        unfold S1. rewrite <- sum_upto_scale_r. apply sum_upto_ext.
        intros k _. replace (m + S k)%nat with (S m + k)%nat by lia.
        rewrite (Qfact_succ m). field.
        split; [apply Qfact_nonzero | exact Hm]. }
      rewrite E1. ring.
Qed.

(** X14: [taylor_horner_deriv(x, coeffs, d)] raises [IndexError] on an
    empty list of coefficients and otherwise returns the series
    [sum_i coeffs[i + d] x^i / i!], the [d]-th derivative, term by term, of
    [sum_i coeffs[i] x^i / i!], which is what [taylor_horner] returns.  On
    the coefficients 10, 3, 4, 12 at [x = 2] these are 40 and, for
    [d = 1], [3 + 4 * 2 + 12 * 4 / 2 = 35] (the docstring says 15). *)
Theorem taylor_horner_deriv_series (x : Q) (coeffs : list Q) (d : nat) :
  (coeffs = [] -> taylor_horner_deriv x coeffs d = Raise IndexError) /\
  (coeffs <> [] ->
   exists r, taylor_horner_deriv x coeffs d = Ok r /\ r == taylor_series x coeffs d) /\
  taylor_horner x coeffs = taylor_horner_deriv x coeffs 0 /\
  (exists r, taylor_horner 2 [10; 3; 4; 12] = Ok r /\ r == 40) /\
  (exists r, taylor_horner_deriv 2 [10; 3; 4; 12] 1 = Ok r /\ r == 35).
Proof.
  split; [intros ->; reflexivity|]. split; [|split; [reflexivity|split]].
  - intros Hne. unfold taylor_horner_deriv. destruct coeffs as [|c0 cs]; [congruence|].
    set (coeffs := c0 :: cs). eexists. split; [reflexivity|].
    rewrite <- fold_left_rev_right, rev_involutive.
    destruct (horner_fold x (skipn d coeffs) 0) as (h & Hfold & _ & Hh).
    cbn [Nat.add] in Hfold, Hh. rewrite Hfold. cbn [fst]. rewrite Hh.
    unfold taylor_series. rewrite length_skipn. apply sum_upto_ext. intros k Hk.
    rewrite nth_skipn, (Nat.add_comm d k).
    unfold Qfact at 1. cbn [fact]. unfold Qdiv.
    setoid_replace (of_nat 1) with 1 by reflexivity. ring.
  - eexists. split; [reflexivity|]. vm_compute. reflexivity.
  - eexists. split; [reflexivity|]. vm_compute. reflexivity.
Qed.

Lemma taylor_horner_deriv_series_witness :
  [10; 3; 4; 12] <> [] /\
  exists r, taylor_horner_deriv 2 [10; 3; 4; 12] 2 = Ok r /\
            r == taylor_series 2 [10; 3; 4; 12] 2.
Proof.
  split; [discriminate|].
  apply (proj1 (proj2 (taylor_horner_deriv_series 2 [10; 3; 4; 12] 2))). discriminate.
Defined.

(** ** [weighted_mean] *)

Lemma broadcast_same (op : Q -> Q -> Q) (a b : list Q) :
  List.length a = List.length b -> broadcast op a b = Ok (zip_with op a b).
Proof. intros H. unfold broadcast. now rewrite H, Nat.eqb_refl. Qed.

Section WeightedMean.

Variable np_sqrt : Q -> Q.

(** With arrays of one length and a weight total that is not zero,
    [weighted_mean] returns, and its mean is the weighted sum over the
    total of the weights. *)
Lemma weighted_mean_value (arr weights : list Q) (calcerr sdev : bool) :
  List.length arr = List.length weights ->
  ~ Qsum weights == 0 ->
  exists werr ws,
    weighted_mean np_sqrt arr weights None calcerr sdev =
    Ok (Some (Qsum (zip_with Qmult weights arr) / Qsum weights), werr, ws).
Proof.
  intros Hlen Hw. unfold weighted_mean.
  rewrite (broadcast_same Qmult weights arr) by auto. cbn [bind].
  assert (E : np_true_divide (Qsum (zip_with Qmult weights arr)) (Qsum weights) =
              Some (Qsum (zip_with Qmult weights arr) / Qsum weights)).
  { unfold np_true_divide.
    destruct (Qeq_bool (Qsum weights) 0) eqn:E; [|reflexivity].
    apply Qeq_bool_eq in E. contradiction. }
  rewrite E.
  destruct calcerr; cbn [bind].
  - rewrite broadcast_same by now rewrite !length_map. cbn [bind].
    destruct sdev; [|do 2 eexists; reflexivity].
    rewrite broadcast_same by now rewrite !length_map. cbn [bind].
    do 2 eexists; reflexivity.
  - destruct sdev; [|do 2 eexists; reflexivity].
    rewrite broadcast_same by now rewrite !length_map. cbn [bind].
    do 2 eexists; reflexivity.
Qed.

End WeightedMean.

Lemma equal_weights_sum (w : Q) (weights arr : list Q) :
  List.length arr = List.length weights ->
  Forall (fun x => x == w) weights ->
  Qsum (zip_with Qmult weights arr) == w * Qsum arr /\
  Qsum weights == w * of_nat (List.length arr).
Proof.
  revert arr. induction weights as [|x ws IH]; intros [|a arr]; cbn [List.length];
    try discriminate.
  - intros _ _. cbn. unfold of_nat. cbn. split; ring.
  - intros [= Hlen] Hw. inversion Hw as [|? ? Hx Hw']; subst.
    destruct (IH arr Hlen Hw') as [H1 H2].
    cbn [zip_with Qsum fold_right]. fold (Qsum ws). fold (Qsum arr).
    fold (Qsum (zip_with Qmult ws arr)). rewrite H1, H2, Hx, of_nat_succ. split; ring.
Qed.

(** X17: with equal weights, not zero, [weighted_mean] returns the
    arithmetic mean of the values. *)
Theorem weighted_mean_equal_weights (np_sqrt : Q -> Q) (arr weights : list Q)
    (calcerr sdev : bool) (w : Q) :
  arr <> [] ->
  List.length arr = List.length weights ->
  Forall (fun x => x == w) weights ->
  ~ w == 0 ->
  exists m werr ws,
    weighted_mean np_sqrt arr weights None calcerr sdev = Ok (Some m, werr, ws) /\
    m == Qsum arr / of_nat (List.length arr).
Proof.
  intros Hne Hlen Hw Hw0.
  destruct (equal_weights_sum w weights arr Hlen Hw) as [H1 H2].
  assert (Hn : ~ of_nat (List.length arr) == 0).
  { apply of_nat_nonzero. destruct arr; [congruence | cbn; lia]. }
  assert (Htot : ~ Qsum weights == 0).
  { rewrite H2. intros H. apply Qmult_integral in H as [H|H]; contradiction. }
  destruct (weighted_mean_value np_sqrt arr weights calcerr sdev Hlen Htot)
    as (werr & ws & H).
  do 3 eexists. split; [exact H|]. rewrite H1, H2. field. auto.
Qed.

Lemma weighted_mean_equal_weights_witness :
  [1; 3] <> [] /\
  exists m werr ws,
    weighted_mean (fun x => x) [1; 3] [2; 2] None true true = Ok (Some m, werr, ws) /\
    m == Qsum [1; 3] / of_nat 2.
Proof.
  split; [discriminate|].
  apply (weighted_mean_equal_weights (fun x => x) [1; 3] [2; 2] true true 2).
  - discriminate.
  - reflexivity.
  - repeat constructor; reflexivity.
  - discriminate.
Defined.

End NumericExtras.

(* ================================================================== *)
(** * Properties of [split_prefixed_name] *)
(* ================================================================== *)

Module PrefixExtras.

Import Prefix.

(** ** Strings and lists of characters *)

Lemma list_of_append (a b : string) :
  list_ascii_of_string (a ++ b) = list_ascii_of_string a ++ list_ascii_of_string b.
Proof. induction a as [|c a IH]; cbn; [reflexivity | now rewrite IH]. Qed.

Lemma string_of_app (a b : list ascii) :
  string_of_list_ascii (a ++ b) =
  (string_of_list_ascii a ++ string_of_list_ascii b)%string.
Proof. induction a as [|c a IH]; cbn; [reflexivity | now rewrite IH]. Qed.

Lemma list_of_inj (a b : string) :
  list_ascii_of_string a = list_ascii_of_string b -> a = b.
Proof.
  intros H. rewrite <- (string_of_list_ascii_of_string a),
    <- (string_of_list_ascii_of_string b). now rewrite H.
Qed.

Lemma list_of_nonempty (a : string) :
  a <> EmptyString <-> list_ascii_of_string a <> [].
Proof. destruct a; cbn; split; congruence. Qed.

(** ** The matcher *)

(** What an atom accepts. *)
Abbreviation atom_ok := (fun (a : atom) (part : list ascii) =>
  match a with
  | Star cls => forallb cls part = true
  | Plus cls => part <> [] /\ forallb cls part = true
  | Lit c => part = [c]
  end).

Lemma span_firstn (cls : ascii -> bool) (s : list ascii) (k : nat) :
  (k <= span cls s)%nat ->
  forallb cls (firstn k s) = true /\ List.length (firstn k s) = k.
Proof.
  revert k. induction s as [|c s IH]; intros [|k] H; cbn in *; auto; try lia.
  destruct (cls c) eqn:E; [|lia].
  destruct (IH k ltac:(lia)) as [H1 H2]. cbn. now rewrite H1, H2.
Qed.

Lemma span_ge (cls : ascii -> bool) (part rest : list ascii) :
  forallb cls part = true -> (List.length part <= span cls (part ++ rest))%nat.
Proof.
  induction part as [|c part IH]; cbn; [lia|].
  intros H. apply andb_true_iff in H as [H1 H2]. rewrite H1.
  specialize (IH H2). lia.
Qed.

Lemma span_exact (cls : ascii -> bool) (part rest : list ascii) :
  forallb cls part = true ->
  match rest with [] => True | c :: _ => cls c = false end ->
  span cls (part ++ rest) = List.length part.
Proof.
  intros H Hr. induction part as [|c part IH]; cbn.
  - destruct rest as [|c rest]; [reflexivity | cbn; now rewrite Hr].
  - cbn in H. apply andb_true_iff in H as [H1 H2]. rewrite H1. now rewrite IH.
Qed.

Lemma greedy_sound k min s cont parts :
  greedy k min s cont = Some parts ->
  exists k' rest, (min <= k' <= k)%nat /\ parts = firstn k' s :: rest /\
                  cont (skipn k' s) = Some rest.
Proof.
  induction k as [|k IH]; cbn [greedy].
  - destruct (Nat.ltb_spec 0 min); [discriminate|].
    destruct (cont (skipn 0 s)) eqn:E; [|discriminate].
    intros [= <-]. exists O, l. repeat split; auto; lia.
  - destruct (Nat.ltb_spec (S k) min); [discriminate|].
    destruct (cont (skipn (S k) s)) eqn:E.
    + intros [= <-]. exists (S k), l. repeat split; auto; lia.
    + intros H'. destruct (IH H') as (k' & rest & Hk & Hp & Hc).
      exists k', rest. repeat split; auto; lia.
Qed.

Lemma greedy_complete k0 k min s cont :
  (min <= k0 <= k)%nat -> cont (skipn k0 s) <> None -> greedy k min s cont <> None.
Proof.
  intros Hk Hc. induction k as [|k IH]; cbn [greedy].
  - assert (k0 = O) by lia. subst.
    destruct (Nat.ltb_spec 0 min); [lia|].
    destruct (cont (skipn 0 s)); congruence.
  - destruct (Nat.ltb_spec (S k) min); [lia|].
    destruct (cont (skipn (S k) s)) eqn:E; [discriminate|].
    apply IH. destruct (Nat.eq_dec k0 (S k)) as [->|]; [congruence | lia].
Qed.

Lemma at_end_cases (t : list ascii) :
  at_end t = true <-> t = [] \/ t = [newline].
Proof.
  destruct t as [|c [|c' t]]; cbn; split; auto; try discriminate.
  - intros H. apply Ascii.eqb_eq in H. subst. now right.
  - intros [H|[= ->]]; [discriminate | apply Ascii.eqb_refl].
  - intros [H|H]; discriminate.
Qed.

Lemma match_atoms_sound atoms : forall s parts,
  match_atoms atoms s = Some parts ->
  Forall2 atom_ok atoms parts /\
  exists t, s = List.concat parts ++ t /\ at_end t = true.
Proof.
  induction atoms as [|a atoms IH]; intros s parts; cbn [match_atoms].
  - destruct (at_end s) eqn:E; [|discriminate]. intros [= <-].
    split; [constructor|]. exists s. now split.
  - destruct a as [cls|cls|c].
    + intros H. apply greedy_sound in H as (k & rest & Hk & -> & Hc).
      destruct (IH _ _ Hc) as (HF & t & Ht & He).
      destruct (span_firstn cls s k ltac:(lia)) as [H1 H2].
      split; [constructor; auto|]. exists t. split; [|exact He].
      cbn [List.concat]. rewrite <- app_assoc, <- Ht. symmetry. apply firstn_skipn.
    + intros H. apply greedy_sound in H as (k & rest & Hk & -> & Hc).
      destruct (IH _ _ Hc) as (HF & t & Ht & He).
      destruct (span_firstn cls s k ltac:(lia)) as [H1 H2].
      split.
      * constructor; [|exact HF]. split; [|exact H1].
        intros E. rewrite E in H2. cbn in H2. lia.
      * exists t. split; [|exact He].
        cbn [List.concat]. rewrite <- app_assoc, <- Ht. symmetry. apply firstn_skipn.
    + destruct s as [|c' s]; [discriminate|].
      destruct (Ascii.eqb_spec c c') as [<-|]; [|discriminate].
      destruct (match_atoms atoms s) as [rest|] eqn:E; [|discriminate].
      cbn [option_map]. intros [= <-].
      destruct (IH _ _ E) as (HF & t & Ht & He).
      split; [constructor; auto|]. exists t. split; [|exact He].
      cbn. now rewrite <- Ht.
Qed.

Lemma match_atoms_complete atoms : forall parts t,
  Forall2 atom_ok atoms parts -> at_end t = true ->
  match_atoms atoms (List.concat parts ++ t) <> None.
Proof.
  induction atoms as [|a atoms IH]; intros parts t HF Ht;
    inversion HF as [|? part ? rest Ha HF']; subst; cbn [match_atoms List.concat].
  - cbn. now rewrite Ht.
  - rewrite <- app_assoc.
    assert (Hskip : skipn (List.length part) (part ++ List.concat rest ++ t)
                    = List.concat rest ++ t).
    { rewrite skipn_app, skipn_all, Nat.sub_diag. reflexivity. }
    destruct a as [cls|cls|c].
    + apply (greedy_complete (List.length part)).
      * split; [lia | now apply span_ge].
      * rewrite Hskip. now apply IH.
    + destruct Ha as [Hne Ha].
      apply (greedy_complete (List.length part)).
      * split; [destruct part; [congruence | cbn; lia] | now apply span_ge].
      * rewrite Hskip. now apply IH.
    + subst part. cbn. rewrite Ascii.eqb_refl.
      specialize (IH rest t HF' Ht).
      destruct (match_atoms atoms (List.concat rest ++ t)); [discriminate | congruence].
Qed.

(** ** The index is the last run of digits *)

Lemma newline_not_digit : is_digit newline = false.
Proof. reflexivity. Qed.

(** The decomposition of a name into a part that ends outside the digits,
    a non-empty run of digits and the end of the string is unique. *)
Lemma trailing_digits_rev (p i t : list ascii) (c : ascii) :
  is_digit c = false -> i <> [] -> forallb is_digit i = true -> at_end t = true ->
  let r := rev ((p ++ [c]) ++ i ++ t) in
  let r' := match r with x :: r0 => if Ascii.eqb x newline then r0 else r | [] => r end in
  rev i = firstn (span is_digit r') r' /\ rev (p ++ [c]) = skipn (span is_digit r') r'.
Proof.
  intros Hc Hi Hd Ht r r'.
  assert (Hr' : r' = rev i ++ rev (p ++ [c])).
  { subst r' r. rewrite !rev_app_distr.
    apply at_end_cases in Ht as [->| ->].
    - cbn [rev app]. destruct (rev i) as [|x ri] eqn:E.
      + apply (f_equal (@rev ascii)) in E. rewrite rev_involutive in E. now cbn in E.
      + assert (Hx : is_digit x = true).
        { assert (HI : In x i) by (apply in_rev; rewrite E; now left).
          rewrite forallb_forall in Hd. now apply Hd. }
        cbn - [newline Ascii.eqb]. destruct (Ascii.eqb_spec x newline) as [->|]; [|reflexivity].
        rewrite newline_not_digit in Hx. discriminate.
    - cbn - [newline Ascii.eqb is_digit]. rewrite Ascii.eqb_refl.
      reflexivity. }
  assert (Hs : span is_digit r' = List.length (rev i)).
  { rewrite Hr'. apply span_exact.
    - rewrite forallb_forall in *. intros x Hx. apply Hd. now apply in_rev.
    - rewrite rev_app_distr. cbn. exact Hc. }
  rewrite Hs, Hr'. split.
  - now rewrite firstn_app, firstn_all, Nat.sub_diag, app_nil_r.
  - now rewrite skipn_app, skipn_all, Nat.sub_diag.
Qed.

Lemma trailing_digits_unique (p i t p' i' t' : list ascii) (c c' : ascii) :
  is_digit c = false -> i <> [] -> forallb is_digit i = true -> at_end t = true ->
  is_digit c' = false -> i' <> [] -> forallb is_digit i' = true -> at_end t' = true ->
  (p ++ [c]) ++ i ++ t = (p' ++ [c']) ++ i' ++ t' ->
  p ++ [c] = p' ++ [c'] /\ i = i'.
Proof.
  intros Hc Hi Hd Ht Hc' Hi' Hd' Ht' E.
  destruct (trailing_digits_rev p i t c Hc Hi Hd Ht) as [H1 H2].
  destruct (trailing_digits_rev p' i' t' c' Hc' Hi' Hd' Ht') as [H1' H2'].
  cbv zeta in *. rewrite <- E in H1', H2'.
  rewrite <- H1' in H1. rewrite <- H2' in H2.
  apply (f_equal (@rev ascii)) in H1, H2. rewrite !rev_involutive in H1, H2.
  now split.
Qed.

(** ** The three expressions *)

(** [name] is a prefix of one of the three shapes, then digits, then the
    end of the string or one newline. *)
Abbreviation splits_as := (fun (name p i : string) =>
  (name = (p ++ i)%string \/ name = (p ++ i ++ String newline EmptyString)%string) /\
  prefix_shape p /\ i <> EmptyString /\ all is_digit i).

Lemma name_of_parts (name : string) (lp li t : list ascii) :
  list_ascii_of_string name = (lp ++ li) ++ t -> at_end t = true ->
  name = (string_of_list_ascii lp ++ string_of_list_ascii li)%string \/
  name = (string_of_list_ascii lp ++ string_of_list_ascii li
            ++ String newline EmptyString)%string.
Proof.
  intros H Ht. apply at_end_cases in Ht as [->| ->]; [left | right];
    apply list_of_inj; rewrite H, !list_of_append,
      !list_ascii_of_string_of_list_ascii.
  - now rewrite app_nil_r.
  - now rewrite app_assoc.
Qed.

Lemma all_of_list (cls : ascii -> bool) (l : list ascii) :
  forallb cls l = true -> all cls (string_of_list_ascii l).
Proof. intros H. unfold all. now rewrite list_ascii_of_string_of_list_ascii. Qed.

Lemma nonempty_of_list (l : list ascii) :
  l <> [] -> string_of_list_ascii l <> EmptyString.
Proof. destruct l; cbn; congruence. Qed.

Lemma re_match_sound (pt : pattern) (name p i : string) :
  In pt prefix_pattern -> re_match pt name = Some (p, i) -> splits_as name p i.
Proof.
  intros Hin. unfold re_match.
  destruct (match_atoms _ _) as [parts|] eqn:E; [|discriminate].
  apply match_atoms_sound in E as (HF & t & Hs & Ht).
  destruct Hin as [<-|[<-|[<-|[]]]]; cbn in HF.
  - inversion HF as [|? a ? ? Ha HF1]; subst.
    inversion HF1 as [|? d ? ? Hd HF2]; subst.
    inversion HF2 as [|? b ? ? Hb HF3]; subst.
    inversion HF3 as [|? ii ? ? Hi HF4]; subst.
    inversion HF4; subst. cbn beta iota in Ha, Hd, Hb, Hi.
    destruct Hd as [Hd0 Hd], Hb as [Hb0 Hb], Hi as [Hi0 Hi]. cbn in Hs |- *. rewrite !app_nil_r in *.
    intros [= <- <-]. split; [|split; [|split]].
    + apply (name_of_parts _ _ _ t); [|exact Ht]. rewrite Hs. now rewrite <- !app_assoc.
    + left. exists (string_of_list_ascii a), (string_of_list_ascii d),
        (string_of_list_ascii b).
      rewrite !string_of_app.
      repeat split; auto using all_of_list, nonempty_of_list.
    + now apply nonempty_of_list.
    + now apply all_of_list.
  - inversion HF as [|? a ? ? Ha HF1]; subst.
    inversion HF1 as [|? ii ? ? Hi HF2]; subst.
    inversion HF2; subst. cbn beta iota in Ha, Hi.
    destruct Ha as [Ha0 Ha], Hi as [Hi0 Hi]. cbn in Hs |- *. rewrite !app_nil_r in *.
    intros [= <- <-]. split; [|split; [|split]].
    + apply (name_of_parts _ _ _ t); [|exact Ht]. rewrite Hs. now rewrite <- !app_assoc.
    + right. left. split; auto using all_of_list, nonempty_of_list.
    + now apply nonempty_of_list.
    + now apply all_of_list.
  - inversion HF as [|? a ? ? Ha HF1]; subst.
    inversion HF1 as [|? u ? ? Hu HF2]; subst.
    inversion HF2 as [|? ii ? ? Hi HF3]; subst.
    inversion HF3; subst. cbn beta iota in Ha, Hi.
    destruct Ha as [Ha0 Ha], Hi as [Hi0 Hi]. cbn in Hs |- *. rewrite !app_nil_r in *.
    intros [= <- <-]. split; [|split; [|split]].
    + apply (name_of_parts _ _ _ t); [|exact Ht]. rewrite Hs. now rewrite <- !app_assoc.
    + right. right. exists (string_of_list_ascii a).
      rewrite string_of_app. repeat split; auto using all_of_list, nonempty_of_list.
    + now apply nonempty_of_list.
    + now apply all_of_list.
Qed.

Lemma list_of_name (name p i : string) :
  (name = (p ++ i)%string \/ name = (p ++ i ++ String newline EmptyString)%string) ->
  exists t, list_ascii_of_string name =
            list_ascii_of_string p ++ list_ascii_of_string i ++ t /\
            at_end t = true.
Proof.
  intros [->| ->]; rewrite !list_of_append.
  - exists []. now rewrite app_nil_r.
  - exists [newline]. split; reflexivity.
Qed.

Lemma re_match_complete (name p i : string) :
  splits_as name p i -> exists pt, In pt prefix_pattern /\ re_match pt name <> None.
Proof.
  intros (Hn & Hp & Hi0 & Hi).
  destruct (list_of_name name p i Hn) as (t & Hs & Ht).
  apply list_of_nonempty in Hi0.
  assert (Hgo : forall pt parts,
             Forall2 atom_ok (group1 pt ++ group2 pt) parts ->
             list_ascii_of_string name = List.concat parts ++ t ->
             re_match pt name <> None).
  { intros pt parts HF E. unfold re_match. rewrite E.
    pose proof (match_atoms_complete _ parts t HF Ht) as H.
    destruct (match_atoms _ _); [discriminate | congruence]. }
  destruct Hp as [(a & d & b & -> & Ha & Hd0 & Hd & Hb0 & Hb)
                 |[[Hp0 Hp]|(a & -> & Ha0 & Ha)]].
  - eexists. split; [left; reflexivity|].
    apply (Hgo _ [list_ascii_of_string a; list_ascii_of_string d;
                  list_ascii_of_string b; list_ascii_of_string i]).
    + apply list_of_nonempty in Hd0, Hb0. repeat constructor; auto.
    + rewrite Hs, !list_of_append. cbn. now rewrite ?app_nil_r, <- ?app_assoc.
  - eexists. split; [right; left; reflexivity|].
    apply (Hgo _ [list_ascii_of_string p; list_ascii_of_string i]).
    + apply list_of_nonempty in Hp0. repeat constructor; auto.
    + rewrite Hs. cbn. now rewrite ?app_nil_r, <- ?app_assoc.
  - eexists. split; [right; right; left; reflexivity|].
    apply (Hgo _ [list_ascii_of_string a; ["_"%char]; list_ascii_of_string i]).
    + apply list_of_nonempty in Ha0. repeat constructor; auto.
    + rewrite Hs, !list_of_append. cbn. now rewrite ?app_nil_r, <- ?app_assoc.
Qed.

Lemma alpha_not_digit (c : ascii) : is_alpha c = true -> is_digit c = false.
Proof.
  unfold is_alpha, is_digit, between. cbn [nat_of_ascii].
  change (nat_of_ascii "a") with 97%nat. change (nat_of_ascii "z") with 122%nat.
  change (nat_of_ascii "A") with 65%nat. change (nat_of_ascii "Z") with 90%nat.
  change (nat_of_ascii "0") with 48%nat. change (nat_of_ascii "9") with 57%nat.
  intros H. apply orb_true_iff in H as [H|H]; apply andb_true_iff in H as [H1 H2];
    apply Nat.leb_le in H1, H2; apply andb_false_iff;
    rewrite !Nat.leb_gt; lia.
Qed.

Lemma last_of_nonempty (l : list ascii) :
  l <> [] -> exists q c, l = q ++ [c].
Proof.
  intros H. destruct (exists_last H) as (q & c & ->). now exists q, c.
Qed.

(** A prefix of any of the three shapes ends outside the digits. *)
Lemma prefix_shape_last (p : string) :
  prefix_shape p ->
  exists q c, list_ascii_of_string p = q ++ [c] /\ is_digit c = false.
Proof.
  intros [(a & d & b & -> & Ha & Hd0 & Hd & Hb0 & Hb)|[[Hp0 Hp]|(a & -> & Ha0 & Ha)]].
  - apply list_of_nonempty in Hb0.
    destruct (last_of_nonempty _ Hb0) as (q & c & E).
    exists (list_ascii_of_string a ++ list_ascii_of_string d ++ q), c.
    rewrite !list_of_append, E, <- !app_assoc. split; [reflexivity|].
    apply alpha_not_digit. unfold all in Hb. rewrite E, forallb_app in Hb.
    apply andb_true_iff in Hb as [_ Hb]. cbn in Hb. now rewrite andb_true_r in Hb.
  - apply list_of_nonempty in Hp0.
    destruct (last_of_nonempty _ Hp0) as (q & c & E).
    exists q, c. split; [exact E|].
    apply alpha_not_digit. unfold all in Hp. rewrite E, forallb_app in Hp.
    apply andb_true_iff in Hp as [_ Hp]. cbn in Hp. now rewrite andb_true_r in Hp.
  - exists (list_ascii_of_string a), "_"%char. rewrite list_of_append. split; reflexivity.
Qed.

Lemma splits_unique (name p i p' i' : string) :
  splits_as name p i -> splits_as name p' i' -> p = p' /\ i = i'.
Proof.
  intros (Hn & Hp & Hi0 & Hi) (Hn' & Hp' & Hi0' & Hi').
  destruct (list_of_name _ _ _ Hn) as (t & Hs & Ht).
  destruct (list_of_name _ _ _ Hn') as (t' & Hs' & Ht').
  destruct (prefix_shape_last _ Hp) as (q & c & Eq & Hc).
  destruct (prefix_shape_last _ Hp') as (q' & c' & Eq' & Hc').
  apply list_of_nonempty in Hi0, Hi0'.
  rewrite Hs, Eq, Eq' in Hs'.
  destruct (trailing_digits_unique q _ t q' _ t' c c' Hc Hi0 Hi Ht Hc' Hi0' Hi' Ht' Hs')
    as [E1 E2].
  split; apply list_of_inj; congruence.
Qed.

Lemma first_match_sound (pts : list pattern) (name : string) (g : string * string) :
  first_match pts name = Ok g -> exists pt, In pt pts /\ re_match pt name = Some g.
Proof.
  induction pts as [|pt pts IH]; cbn [first_match]; [discriminate|].
  destruct (re_match pt name) as [g'|] eqn:E.
  - intros [= <-]. exists pt. split; [now left | exact E].
  - intros H. destruct (IH H) as (pt' & Hin & Hm). exists pt'. split; [now right | exact Hm].
Qed.

Lemma first_match_complete (pts : list pattern) (name : string) (pt : pattern) :
  In pt pts -> re_match pt name <> None -> exists g, first_match pts name = Ok g.
Proof.
  induction pts as [|pt' pts IH]; cbn [first_match]; [intros []|].
  intros [->|Hin] Hm.
  - destruct (re_match pt name) as [g|]; [now exists g | congruence].
  - destruct (re_match pt' name) as [g|]; [now exists g | now apply IH].
Qed.

Lemma first_match_cases (pts : list pattern) (name : string) :
  (exists g, first_match pts name = Ok g) \/ first_match pts name = Raise ValueError.
Proof.
  induction pts as [|pt pts IH]; cbn [first_match]; [now right|].
  destruct (re_match pt name) as [g|]; [left; now exists g | exact IH].
Qed.

(** X19: [split_prefixed_name] returns [(prefix, index, value)] exactly for
    the names that are [prefix] then [index], possibly followed by one
    newline (which [$] lets pass), where [prefix] has one of the three
    shapes, [index] is a non-empty run of decimal digits and [value] is its
    number; the index is thereby the whole last run of digits.  It raises
    [PrefixError], a [ValueError], on every other name. *)
Theorem split_prefixed_name_spec (name : string) :
  (forall p i v,
     split_prefixed_name name = Ok (p, i, v) <->
     (name = (p ++ i)%string \/ name = (p ++ i ++ String newline EmptyString)%string) /\
     prefix_shape p /\ i <> EmptyString /\ all is_digit i /\ v = int i) /\
  (split_prefixed_name name = Raise ValueError <->
   ~ exists p i,
       (name = (p ++ i)%string \/ name = (p ++ i ++ String newline EmptyString)%string) /\
       prefix_shape p /\ i <> EmptyString /\ all is_digit i).
Proof.
  assert (Hfwd : forall p i v, split_prefixed_name name = Ok (p, i, v) ->
                   splits_as name p i /\ v = int i).
  { intros p i v. unfold split_prefixed_name.
    destruct (first_match prefix_pattern name) as [[p' i']| |] eqn:E; cbn [bind];
      try discriminate.
    intros [= <- <- <-]. split; [|reflexivity].
    apply first_match_sound in E as (pt & Hin & Hm).
    now apply (re_match_sound pt). }
  assert (Hbwd : forall p i, splits_as name p i ->
                   split_prefixed_name name = Ok (p, i, int i)).
  { intros p i Hs.
    destruct (re_match_complete name p i Hs) as (pt & Hin & Hm).
    destruct (first_match_complete _ _ _ Hin Hm) as ([p' i'] & E).
    assert (Hs' : splits_as name p' i').
    { apply first_match_sound in E as (pt' & Hin' & Hm').
      now apply (re_match_sound pt'). }
    destruct (splits_unique _ _ _ _ _ Hs Hs') as [-> ->].
    unfold split_prefixed_name. now rewrite E. }
  split.
  - intros p i v. split.
    + intros H. destruct (Hfwd p i v H) as ((H1 & H2 & H3 & H4) & H5). tauto.
    + intros (H1 & H2 & H3 & H4 & ->). apply Hbwd. tauto.
  - split.
    + intros H (p & i & Hs). rewrite (Hbwd p i) in H by exact Hs. discriminate.
    + intros H. unfold split_prefixed_name.
      destruct (first_match_cases prefix_pattern name) as [([p i] & E)| ->];
        [|reflexivity].
      exfalso. apply H. exists p, i.
      apply (Hfwd p i (int i)). unfold split_prefixed_name. now rewrite E.
Qed.

(** The examples of the docstring. *)
Example split_prefixed_name_examples :
  split_prefixed_name "DMX_0123" = Ok ("DMX_"%string, "0123"%string, 123%Z) /\
  split_prefixed_name "T2EFAC17" = Ok ("T2EFAC"%string, "17"%string, 17%Z) /\
  split_prefixed_name "F12" = Ok ("F"%string, "12"%string, 12%Z) /\
  split_prefixed_name "DMXR1_2" = Ok ("DMXR1_"%string, "2"%string, 2%Z) /\
  split_prefixed_name "PEPOCH" = Raise ValueError.
Proof. repeat split; vm_compute; reflexivity. Qed.

End PrefixExtras.

(* ================================================================== *)
(** * Properties of [interesting_lines] *)
(* ================================================================== *)

Module LinesExtras.

Import Lines.

(** ** Stripping *)

Lemma lstrip_head (s : string) (c : ascii) (r : string) :
  lstrip s = String c r -> is_space c = false.
Proof.
  induction s as [|x s IH]; cbn [lstrip]; [discriminate|].
  destruct (is_space x) eqn:E; [exact IH|]. now intros [= <- <-].
Qed.

Lemma lstrip_fixed (c : ascii) (r : string) :
  is_space c = false -> lstrip (String c r) = String c r.
Proof. intros H. cbn [lstrip]. now rewrite H. Qed.

Lemma rstrip_head (c : ascii) (s : string) :
  rstrip (String c s) = EmptyString /\ is_space c = true \/
  exists r, rstrip (String c s) = String c r.
Proof.
  cbn [rstrip]. destruct (rstrip s) as [|y r].
  - destruct (is_space c); [now left | right; now eexists].
  - right. now eexists.
Qed.



Lemma strip_cases (s : string) :
  strip s = EmptyString \/
  exists c r, strip s = String c r /\ is_space c = false.
Proof.
  unfold strip. destruct (lstrip s) as [|c l] eqn:E; [now left|].
  pose proof (lstrip_head _ _ _ E) as Hc.
  destruct (rstrip_head c l) as [[_ H]|(r & H)]; [congruence|].
  right. now exists c, r.
Qed.


Lemma startswith_rstrip (s : string) : startswith s (rstrip s) = true.
Proof.
  induction s as [|c s IH]; [reflexivity|]. cbn [rstrip].
  destruct (rstrip s) as [|y r].
  - destruct (is_space c); cbn [startswith]; [reflexivity|].
    rewrite Ascii.eqb_refl. now destruct s.
  - cbn [startswith]. now rewrite Ascii.eqb_refl, IH.
Qed.

(** ** The check of the comment strings *)

(** A comment string passes the check exactly when it begins outside the
    whitespace. *)
Lemma comment_check (c : string) :
  is_empty (strip c) || negb (startswith c (strip c)) = true <->
  c = EmptyString \/ exists x rest, c = String x rest /\ is_space x = true.
Proof.
  destruct c as [|x rest]; [cbn; split; auto|].
  destruct (is_space x) eqn:Ex.
  - split; [intros _; right; now exists x, rest|]. intros _.
    destruct (strip_cases (String x rest)) as [H|(y & r & H & Hy)]; rewrite H;
      [reflexivity|].
    cbn [is_empty startswith orb].
    destruct (Ascii.eqb_spec y x) as [->|]; [congruence | reflexivity].
  - unfold strip. rewrite (lstrip_fixed _ _ Ex), startswith_rstrip.
    destruct (rstrip_head x rest) as [[_ H]|(r & H)]; [congruence|]. rewrite H.
    cbn. split; [discriminate|]. intros [H'|(y & r' & [= <- <-] & H')]; congruence.
Qed.

Lemma check_comments_cases (cc : list string) :
  check_comments cc = Ok tt \/ check_comments cc = Raise ValueError.
Proof.
  induction cc as [|c cc IH]; cbn [check_comments]; [now left|].
  destruct (_ || _); [now right | exact IH].
Qed.

Lemma check_comments_raises (cc : list string) :
  check_comments cc = Raise ValueError <->
  exists c, In c cc /\
            (c = EmptyString \/ exists x rest, c = String x rest /\ is_space x = true).
Proof.
  induction cc as [|c cc IH]; cbn [check_comments].
  - split; [discriminate | intros (c & [] & _)].
  - destruct (_ || _) eqn:E.
    + split; [|reflexivity]. intros _. exists c. split; [now left|].
      now apply comment_check.
    + rewrite IH. split.
      * intros (c' & Hin & H). exists c'. split; [now right | exact H].
      * intros (c' & [<-|Hin] & H).
        -- apply comment_check in H. congruence.
        -- now exists c'.
Qed.

(** X20: [interesting_lines] raises [ValueError] exactly when one of the
    comment strings is empty or begins with a whitespace character,
    whatever the lines; a comment string that ends in whitespace is
    accepted. *)
Theorem interesting_lines_comment_check (lines : list string) (comments : comments_arg) :
  (interesting_lines lines comments = Raise ValueError <->
   exists c, In c (tuple_of comments) /\
             (c = EmptyString \/
              exists x rest, c = String x rest /\ is_space x = true)) /\
  (interesting_lines lines comments = Raise ValueError \/
   exists out, interesting_lines lines comments = Ok out).
Proof.
  unfold interesting_lines.
  destruct (check_comments_cases (tuple_of comments)) as [H|H].
  - split.
    + rewrite <- check_comments_raises, H. cbn [bind]. split; discriminate.
    + right. rewrite H. cbn [bind]. now eexists.
  - split.
    + rewrite <- check_comments_raises, H. cbn [bind]. tauto.
    + left. rewrite H. reflexivity.
Qed.

(** ** The lines that are yielded *)





End LinesExtras.

(* ================================================================== *)
(** * Properties of [PosVel] *)
(* ================================================================== *)

Module PosVelExtras.

Import Numeric PV.

Lemma init_ok (p v : list Q) (o g : option string) (a : PosVel) :
  init p v o g = Ok a ->
  List.length p = 3%nat /\ List.length v = 3%nat /\ is_none o = is_none g /\
  a = {| pos := p; vel := v; obj := o; origin := g |}.
Proof.
  unfold init.
  destruct (Nat.eqb_spec (List.length p) 3); cbn [negb]; [|discriminate].
  destruct (Nat.eqb_spec (List.length v) 3); cbn [negb]; [|discriminate].
  destruct (Bool.eqb (is_none o) (is_none g)) eqn:E; cbn [negb]; [|discriminate].
  intros [= <-]. apply Bool.eqb_prop in E. auto.
Qed.

Lemma init_labelled (p v : list Q) (o g : string) :
  List.length p = 3%nat -> List.length v = 3%nat ->
  init p v (Some o) (Some g) =
  Ok {| pos := p; vel := v; obj := Some o; origin := Some g |}.
Proof. intros Hp Hv. unfold init. now rewrite Hp, Hv. Qed.

Lemma zip_with_length3 (op : Q -> Q -> Q) (a b : list Q) :
  List.length a = 3%nat -> List.length b = 3%nat ->
  List.length (zip_with op a b) = 3%nat.
Proof.
  destruct a as [|? [|? [|? [|]]]]; destruct b as [|? [|? [|? [|]]]]; cbn; congruence.
Qed.

Lemma broadcast3 (op : Q -> Q -> Q) (a b : list Q) :
  List.length a = 3%nat -> List.length b = 3%nat ->
  broadcast op a b = Ok (zip_with op a b).
Proof. intros Ha Hb. unfold broadcast. now rewrite Ha, Hb. Qed.

(** X22: subtraction of labelled vectors, [a] from [A] to [B] and [b] from
    [C] to [D].  With a common end point ([B = D]) the difference runs from
    [A] to [C]; otherwise, with a common origin ([A = C]), from [D] to [B];
    with neither, [ValueError] is raised.  The components are
    [a + (- b)]. *)
Theorem posvel_sub_labels (pa va pb vb : list Q) (A B C D : string) (a b : PosVel) :
  init pa va (Some B) (Some A) = Ok a ->
  init pb vb (Some D) (Some C) = Ok b ->
  (B = D ->
   sub a b = Ok {| pos := zip_with Qplus pa (map Qopp pb);
                   vel := zip_with Qplus va (map Qopp vb);
                   obj := Some C; origin := Some A |}) /\
  (B <> D -> A = C ->
   sub a b = Ok {| pos := zip_with Qplus pa (map Qopp pb);
                   vel := zip_with Qplus va (map Qopp vb);
                   obj := Some B; origin := Some D |}) /\
  (B <> D -> A <> C -> sub a b = Raise ValueError).
Proof.
  intros Ha Hb.
  apply init_ok in Ha as (Hpa & Hva & _ & ->).
  apply init_ok in Hb as (Hpb & Hvb & _ & ->).
  unfold sub, neg. cbn [pos vel obj origin].
  rewrite init_labelled by now rewrite length_map. cbn [bind].
  unfold add, _has_labels, label_eq. cbn [pos vel obj origin is_none negb andb].
  assert (Hp : broadcast Qplus pa (map Qopp pb) = Ok (zip_with Qplus pa (map Qopp pb)))
    by (apply broadcast3; [|rewrite length_map]; assumption).
  assert (Hv : broadcast Qplus va (map Qopp vb) = Ok (zip_with Qplus va (map Qopp vb)))
    by (apply broadcast3; [|rewrite length_map]; assumption).
  assert (Hlp : List.length (zip_with Qplus pa (map Qopp pb)) = 3%nat)
    by (apply zip_with_length3; [|rewrite length_map]; assumption).
  assert (Hlv : List.length (zip_with Qplus va (map Qopp vb)) = 3%nat)
    by (apply zip_with_length3; [|rewrite length_map]; assumption).
  split; [|split].
  - intros <-. rewrite String.eqb_refl. cbn [bind]. rewrite Hp, Hv. cbn [bind fst snd].
    now apply init_labelled.
  - intros HBD <-. destruct (String.eqb_spec B D) as [|_]; [contradiction|].
    rewrite String.eqb_refl. cbn [bind]. rewrite Hp, Hv. cbn [bind fst snd].
    now apply init_labelled.
  - intros HBD HAC. destruct (String.eqb_spec B D) as [|_]; [contradiction|].
    destruct (String.eqb_spec A C) as [|_]; [contradiction|]. reflexivity.
Qed.

Lemma posvel_sub_labels_witness :
  exists a b,
    init [1; 2; 3] [0; 0; 0] (Some "earth"%string) (Some "ssb"%string) = Ok a /\
    init [4; 5; 6] [1; 1; 1] (Some "sun"%string) (Some "ssb"%string) = Ok b /\
    sub a b = Ok {| pos := zip_with Qplus [1; 2; 3] (map Qopp [4; 5; 6]);
                    vel := zip_with Qplus [0; 0; 0] (map Qopp [1; 1; 1]);
                    obj := Some "earth"%string; origin := Some "sun"%string |}.
Proof.
  do 2 eexists. split; [reflexivity|]. split; [reflexivity|].
  refine (proj1 (proj2 (posvel_sub_labels [1; 2; 3] [0; 0; 0] [4; 5; 6] [1; 1; 1]
            "ssb" "earth" "ssb" "sun" _ _ eq_refl eq_refl)) _ eq_refl).
  discriminate.
Defined.

Lemma zip_plus_comm (a b : list Q) :
  Forall2 Qeq (zip_with Qplus a b) (zip_with Qplus b a).
Proof.
  revert b. induction a as [|x a IH]; intros [|y b]; cbn [zip_with]; try constructor.
  - apply Qplus_comm.
  - apply IH.
Qed.

(** X23: addition of labelled vectors, [a] from [A] to [B] and [b] from
    [C] to [D], in either order.  [a + b] and [b + a] raise [ValueError]
    together, exactly when neither [B = C] nor [A = D]; otherwise both
    return, with equal components.  Their labels agree unless the two
    vectors form a round trip ([B = C] and [A = D] with [A <> B]): then
    [a + b] runs from [A] to [A] and [b + a] from [B] to [B]. *)
Theorem posvel_add_commutes (pa va pb vb : list Q) (A B C D : string) (a b : PosVel) :
  init pa va (Some B) (Some A) = Ok a ->
  init pb vb (Some D) (Some C) = Ok b ->
  (B <> C /\ A <> D -> add a b = Raise ValueError /\ add b a = Raise ValueError) /\
  (B = C \/ A = D ->
   exists r r',
     add a b = Ok r /\ add b a = Ok r' /\
     Forall2 Qeq (pos r) (pos r') /\ Forall2 Qeq (vel r) (vel r') /\
     origin r = Some (if String.eqb B C then A else C) /\
     obj r = Some (if String.eqb B C then D else B) /\
     origin r' = Some (if String.eqb D A then C else A) /\
     obj r' = Some (if String.eqb D A then B else D)).
Proof.
  intros Ha Hb.
  apply init_ok in Ha as (Hpa & Hva & _ & ->).
  apply init_ok in Hb as (Hpb & Hvb & _ & ->).
  unfold add, _has_labels, label_eq. cbn [pos vel obj origin is_none negb andb].
  rewrite !broadcast3 by assumption.
  split.
  - intros [HBC HAD].
    destruct (String.eqb_spec B C) as [|_]; [contradiction|].
    destruct (String.eqb_spec A D) as [|_]; [contradiction|].
    destruct (String.eqb_spec D A) as [|_]; [congruence|].
    destruct (String.eqb_spec C B) as [|_]; [congruence|].
    split; reflexivity.
  - intros H.
    assert (E1 : forall o g, init (zip_with Qplus pa pb) (zip_with Qplus va vb)
                               (Some o) (Some g)
                 = Ok {| pos := zip_with Qplus pa pb; vel := zip_with Qplus va vb;
                         obj := Some o; origin := Some g |})
      by (intros; apply init_labelled; now apply zip_with_length3).
    assert (E2 : forall o g, init (zip_with Qplus pb pa) (zip_with Qplus vb va)
                               (Some o) (Some g)
                 = Ok {| pos := zip_with Qplus pb pa; vel := zip_with Qplus vb va;
                         obj := Some o; origin := Some g |})
      by (intros; apply init_labelled; now apply zip_with_length3).
    destruct (String.eqb_spec B C) as [HBC|HBC];
      destruct (String.eqb_spec D A) as [HDA|HDA];
      destruct (String.eqb_spec A D) as [HAD|HAD]; try congruence;
      destruct (String.eqb_spec C B) as [HCB|HCB]; try congruence;
      try (exfalso; destruct H; congruence);
      cbn [bind fst snd]; rewrite E1, E2; do 2 eexists;
      (split; [reflexivity|]); (split; [reflexivity|]);
      cbn [pos vel obj origin]; auto 10 using zip_plus_comm.
Qed.

Lemma posvel_add_commutes_witness :
  exists a b r r',
    init [1; 2; 3] [0; 0; 0] (Some "earth"%string) (Some "ssb"%string) = Ok a /\
    init [4; 5; 6] [1; 1; 1] (Some "ssb"%string) (Some "earth"%string) = Ok b /\
    add a b = Ok r /\ add b a = Ok r' /\
    origin r = Some "ssb"%string /\ obj r = Some "ssb"%string /\
    origin r' = Some "earth"%string /\ obj r' = Some "earth"%string.
Proof.
  do 2 eexists.
  destruct (proj2 (posvel_add_commutes [1; 2; 3] [0; 0; 0] [4; 5; 6] [1; 1; 1]
                     "ssb" "earth" "earth" "ssb" _ _ eq_refl eq_refl)
                  (or_introl eq_refl))
    as (r & r' & H1 & H2 & _ & _ & H3 & H4 & H5 & H6).
  exists r, r'. repeat split; assumption.
Defined.

End PosVelExtras.
